(** * errorpro core: quantities, [assign], [fit] and dependency unpacking

    A shallow embedding of [src/errorpro/core.py].  The module builds
    quantities (a value array, an error array, a dimension, formulas and a
    display unit) from user input, overwrites fit parameters after a curve
    fit and unpacks the dependencies of an expression for plotting.

    The code leans on collaborators that live outside [core.py]: numpy for
    arrays, sympy for expressions, and the package's own unit parser, formula
    engine, dimension solver and fitting backend.  Numbers are float64 in the
    program; here they are an abstract carrier with the one operation the
    module applies to them (multiplication by a unit factor). *)

From Stdlib Require Import ZArith.
From stdpp Require Import base decidable option list gmap strings pretty.

(** ** Numbers, dimensions and units *)

(** The carriers [core.py] computes with.  [fmul] is float multiplication,
    [fone] the default unit factor [1], [fzero] the filler of [np.zeros_like].
    [dimensionless] is the value of [Dimension()]; [==] on dimensions is
    decidable equality. *)
Class Domain := {
  num : Type;
  num_eq_dec :: EqDecision num;
  fmul : num → num → num;
  fone : num;
  fzero : num;
  Dim : Type;
  Dim_eq_dec :: EqDecision Dim;
  dimensionless : Dim;
  Unit : Type;
}.

(** Quantities are python objects; a [loc] is the identity of one. *)
Abbreviation loc := nat.

Section Model.
Context `{D : Domain}.

(** ** numpy arrays *)

(** An ndarray in C (row-major) order: its shape and its flat data.  A scalar
    ([np.float64] or a 0-d array) has shape [()]. *)
Record Array := { shape : list nat; data : list num }.

Definition size_of (s : list nat) : nat := foldr Nat.mul 1 s.

(** [length (data a) = a.size] for every array numpy builds. *)
Definition wf_array (a : Array) : Prop := length (data a) = size_of (shape a).

Definition scalar (c : num) : Array := {| shape := []; data := [c] |}.

(** [np.float_(f) * np.float_(a)] for a scalar factor [f]: the shape is kept
    and every element is multiplied. *)
Definition scale (f : num) (a : Array) : Array :=
  {| shape := shape a; data := map (fmul f) (data a) |}.

(** [np.resize(a, new_shape)]: the flat data repeated as often as needed and
    cut to the new size; zeros when either side is empty.
<<
    a = ravel(a)
    if a.size == 0 or new_size == 0:
        return np.zeros_like(a, shape=new_shape)
    repeats = -(-new_size // a.size)
    a = concatenate((a,) * repeats)[:new_size]
    return reshape(a, new_shape)
>> *)
Definition np_resize (a : Array) (new_shape : list nat) : Array :=
  let new_size := size_of new_shape in
  let n := length (data a) in
  if (n =? 0) || (new_size =? 0)
  then {| shape := new_shape; data := replicate new_size fzero |}
  else
    let repeats := (new_size + n - 1) / n in
    {| shape := new_shape;
       data := take new_size (concat (replicate repeats (data a))) |}.

(** The python slice [l[-k:]]: the last [k] items, the whole tuple when it is
    shorter, and (since [-0] is [0]) the whole tuple for [k = 0]. *)
Definition last_items {A} (k : nat) (l : list A) : list A :=
  if k =? 0 then l else drop (length l - k) l.

(** [error.shape == () or value.shape[-len(error.shape):] == error.shape] *)
Definition shapes_fit (vs es : list nat) : bool :=
  bool_decide (es = []) || bool_decide (last_items (length es) vs = es).

(** ** sympy expressions *)

(** The symbols of an expression: quantities (the package's [Quantity] is a
    subclass of sympy's [Symbol], compared here by identity) and plain
    symbols such as the [x_err] symbols of an error formula. *)
Inductive Symbol := Q (q : loc) | V (s : string).

Inductive Expr :=
| Num (c : num)
| Sym (s : Symbol)
| Add (a b : Expr)
| Mul (a b : Expr)
| Pow (a b : Expr)
| Fn (f : string) (a : Expr).

#[export] Instance Symbol_eq_dec : EqDecision Symbol.
Proof. solve_decision. Defined.

#[export] Instance Expr_eq_dec : EqDecision Expr.
Proof. solve_decision. Defined.

Fixpoint symbols (e : Expr) : list Symbol :=
  match e with
  | Num _ => []
  | Sym s => [s]
  | Add a b | Mul a b | Pow a b => symbols a ++ symbols b
  | Fn _ a => symbols a
  end.

(** [expr.free_symbols] is a python set; its iteration order is fixed here to
    the order [remove_dups] leaves. *)
Definition free_symbols (e : Expr) : list Symbol := remove_dups (symbols e).

(** [expr.is_number]: no free symbol. *)
Definition is_number (e : Expr) : bool := bool_decide (free_symbols e = []).

(** [isinstance(e, Quantity)] *)
Definition as_quantity (e : Expr) : option loc :=
  match e with Sym (Q q) => Some q | _ => None end.

(** [expr.subs(old, new)]: every occurrence of the subexpression [old] is
    replaced, outermost first. *)
Fixpoint subs (e old new : Expr) : Expr :=
  if decide (e = old) then new else
  match e with
  | Add a b => Add (subs a old new) (subs b old new)
  | Mul a b => Mul (subs a old new) (subs b old new)
  | Pow a b => Pow (subs a old new) (subs b old new)
  | Fn f a => Fn f (subs a old new)
  | _ => e
  end.

(** [expr.has(x)] for a quantity [x] *)
Definition has (e : Expr) (x : loc) : bool := bool_decide (Q x ∈ free_symbols e).

(** ** Quantities *)

(** What a formula attribute can hold besides [None]: a sympy expression or a
    python string ([fit] stores the string ["fit"]). *)
Inductive Formula := FExpr (e : Expr) | FStr (s : string).

Record Quantity := {
  name : string;
  longname : option string;
  value : option Array;
  value_formula : option Formula;
  error : option Array;
  error_formula : option Formula;
  prefer_unit : option Unit;
  dim : option Dim;
}.

Definition set_value (v : option Array) (q : Quantity) : Quantity :=
  {| name := name q; longname := longname q; value := v;
     value_formula := value_formula q; error := error q;
     error_formula := error_formula q; prefer_unit := prefer_unit q;
     dim := dim q |}.

Definition set_value_formula (f : option Formula) (q : Quantity) : Quantity :=
  {| name := name q; longname := longname q; value := value q;
     value_formula := f; error := error q;
     error_formula := error_formula q; prefer_unit := prefer_unit q;
     dim := dim q |}.

Definition set_error (e : option Array) (q : Quantity) : Quantity :=
  {| name := name q; longname := longname q; value := value q;
     value_formula := value_formula q; error := e;
     error_formula := error_formula q; prefer_unit := prefer_unit q;
     dim := dim q |}.

Definition set_error_formula (f : option Formula) (q : Quantity) : Quantity :=
  {| name := name q; longname := longname q; value := value q;
     value_formula := value_formula q; error := error q;
     error_formula := f; prefer_unit := prefer_unit q;
     dim := dim q |}.

Definition set_prefer_unit (u : option Unit) (q : Quantity) : Quantity :=
  {| name := name q; longname := longname q; value := value q;
     value_formula := value_formula q; error := error q;
     error_formula := error_formula q; prefer_unit := u;
     dim := dim q |}.

Definition set_dim (d : option Dim) (q : Quantity) : Quantity :=
  {| name := name q; longname := longname q; value := value q;
     value_formula := value_formula q; error := error q;
     error_formula := error_formula q; prefer_unit := prefer_unit q;
     dim := d |}.

(** ** Exceptions *)

(** The messages of the [RuntimeError]s that [core.py] raises itself, with the
    values its format string prints. *)
Inductive Message :=
| UnitDimensionMismatch (value_dim error_dim : Dim)
| FormulaDimensionMismatch (value_dim calculated_dim : Dim)
| ShapeMismatch (value_shape error_shape : list nat)
| FitDimensionsNotFound.

Inductive PyClass :=
| RuntimeErrorC | ValueErrorC | TypeErrorC | AssertionErrorC
| AttributeErrorC | KeyErrorC | IndexErrorC | OtherErrorC.

(** An exception: one of the [raise RuntimeError(...)] statements of
    [core.py], or one raised elsewhere (by a collaborator or by the
    interpreter), of which the class and the text are kept. *)
Inductive Exn :=
| RuntimeError (m : Message)
| Raised (c : PyClass) (s : string).

Definition TypeError : Exn := Raised TypeErrorC "".
Definition AssertionError : Exn := Raised AssertionErrorC "".
Definition AttributeError : Exn := Raised AttributeErrorC "".
Definition IndexError : Exn := Raised IndexErrorC "".
Definition KeyError (k : string) : Exn := Raised KeyErrorC k.

Inductive Res (A : Type) := Ok (a : A) | Raise (e : Exn).
#[global] Arguments Ok {A} a.
#[global] Arguments Raise {A} e.

#[export] Instance Res_ret : MRet Res := λ A a, Ok a.
#[export] Instance Res_bind : MBind Res := λ A B k r,
  match r with Ok a => k a | Raise e => Raise e end.

(** What a call of a collaborator gives: a value, or an exception of some
    class with some text. *)
Inductive Ext (A : Type) := Done (a : A) | Throw (c : PyClass) (s : string).
#[global] Arguments Done {A} a.
#[global] Arguments Throw {A} c s.

#[export] Instance Ext_ret : MRet Ext := λ A a, Done a.
#[export] Instance Ext_bind : MBind Ext := λ A B k r,
  match r with Done a => k a | Throw c s => Throw c s end.

Definition call {A} (r : Ext A) : Res A :=
  match r with Done a => Ok a | Throw c s => Raise (Raised c s) end.

Definition is_dimension_mismatch {A} (r : Res A) : Prop :=
  match r with
  | Raise (RuntimeError (UnitDimensionMismatch _ _))
  | Raise (RuntimeError (FormulaDimensionMismatch _ _)) => True
  | _ => False
  end.

(** ** The world: heap of quantities, the shared default list, calls made *)

(** The calls of collaborators that the trace records. *)
Inductive Event :=
| EvDimSolve (func : Expr) (target : option Dim) (known : gmap string (option Dim))
| EvFitting (func : Expr).

(** [heap] holds every [Quantity] object alive; [ignore_default] is the list
    object created once for the default [ignore=[]] of
    [_find_all_dependencies]; [trace] records collaborator calls, oldest
    first. *)
Record World := {
  heap : gmap loc Quantity;
  ignore_default : list loc;
  trace : list Event;
}.

Definition set_heap (h : gmap loc Quantity) (w : World) : World :=
  {| heap := h; ignore_default := ignore_default w; trace := trace w |}.

Definition set_ignore_default (l : list loc) (w : World) : World :=
  {| heap := heap w; ignore_default := l; trace := trace w |}.

Definition log_event (e : Event) (w : World) : World :=
  {| heap := heap w; ignore_default := ignore_default w; trace := trace w ++ [e] |}.

(** A python computation: it ends with a value or an exception, and the
    world it has reached stays either way. *)
Definition M (A : Type) : Type := World → Res A * World.

#[export] Instance M_ret : MRet M := λ A a w, (Ok a, w).
#[export] Instance M_bind : MBind M := λ A B k m w,
  match m w with
  | (Ok a, w') => k a w'
  | (Raise e, w') => (Raise e, w')
  end.

Definition raise {A} (e : Exn) : M A := λ w, (Raise e, w).
Definition lift {A} (r : Res A) : M A := λ w, (r, w).
Definition with_heap {A} (f : gmap loc Quantity → Res A) : M A := λ w, (f (heap w), w).
Definition emit (e : Event) : M () := λ w, (Ok (), log_event e w).

(** [q.attr] of an object: [AttributeError] stands in for an object that is
    not a quantity. *)
Definition getattr {A} (q : loc) (f : Quantity → A) : M A := λ w,
  match heap w !! q with
  | Some o => (Ok (f o), w)
  | None => (Raise AttributeError, w)
  end.

(** [q.attr = v] *)
Definition setattr (q : loc) (f : Quantity → Quantity) : M () := λ w,
  match heap w !! q with
  | Some o => (Ok (), set_heap (<[q := f o]> (heap w)) w)
  | None => (Raise AttributeError, w)
  end.

(** ** Collaborators *)

(** The optional arguments [fit] hands through to the fitting backend. *)
Record FitOptions := {
  ydata_axes : option (list nat);
  weighted : option bool;
  absolute_sigma : bool;
}.

(** The functions [core.py] imports from the rest of the package.  They read
    quantities and raise; none of them writes to a quantity.
    - [parse_unit u] is [(factor, dim, unit)], the unit in canonical form;
    - [expr_float e] is [np.float_(e)] for a sympy number;
    - [get_value], [get_dimension], [get_error] evaluate a formula;
    - [dim_solve h func target known] is the dictionary of dimensions by
      name (a symbol carries its name; here the heap holds it);
    - [fitting_fit] is [fitting.fit], [qtable] the table renderer;
    - [dummy_name] names a quantity created without a name;
    - [str_split s] is [s.split()], the interpreter's splitting of a string
      at runs of whitespace; which characters are whitespace is the
      interpreter's matter (for a Python 3 [str] the Unicode ones, among
      them the separators 0x1c to 0x1f), so it is not fixed here. *)
Class Engine := {
  parse_unit : Unit → Ext (num * Dim * Unit);
  expr_float : Expr → Ext num;
  get_value : gmap loc Quantity → Expr → Ext Array;
  get_dimension : gmap loc Quantity → Expr → Ext Dim;
  get_error : gmap loc Quantity → Expr → Ext (Array * Expr);
  dim_solve : gmap loc Quantity → Expr → option Dim →
              gmap string (option Dim) → Ext (gmap string (option Dim));
  fitting_fit : gmap loc Quantity → Expr → list Expr → loc → list loc →
                FitOptions → Ext (list Array * list Array);
  qtable : gmap loc Quantity → list loc → Ext string;
  dummy_name : loc → string;
  str_split : string → list string;
}.

(** A parse without the canonical unit expression. *)
Definition forget_unit (r : Ext (num * Dim * Unit)) : Ext (num * Dim) :=
  match r with Done (f, d, _) => Done (f, d) | Throw c s => Throw c s end.

(** Two engines that differ at most in how they spell canonical units. *)
Definition same_up_to_units (E1 E2 : Engine) : Prop :=
  (∀ u, forget_unit (@parse_unit E1 u) = forget_unit (@parse_unit E2 u)) ∧
  @expr_float E1 = @expr_float E2 ∧
  @get_value E1 = @get_value E2 ∧
  @get_dimension E1 = @get_dimension E2 ∧
  @get_error E1 = @get_error E2 ∧
  @dummy_name E1 = @dummy_name E2.

Context `{E : Engine}.

(** Modelled from the spec: the [Quantity] class is not in [core.py].
    [Quantity(name, longname)] creates a new object (name: the display
    symbol, an auto-generated dummy if unspecified) whose other attributes
    are absent; an empty placeholder has no dimension yet. *)
Definition new_quantity (name : option string) (longname : option string) : M loc := λ w,
  let l := fresh (dom (heap w)) in
  let q := {| name := default (dummy_name l) name; longname := longname;
              value := None; value_formula := None; error := None;
              error_formula := None; prefer_unit := None; dim := None |} in
  (Ok l, set_heap (<[l := q]> (heap w)) w).

(** ** [assign] *)

(** The [value] argument: a sympy expression, or a number or array that
    [np.float_] takes as it is. *)
Inductive ValueArg := VExpr (e : Expr) | VNum (a : Array).

(** What a unit resolves to: [(factor, dim, unit)]; [runit] is [None] when no
    unit was given. *)
Record Resolved := { factor : num; rdim : Dim; runit : option Unit }.

Definition no_unit : Resolved :=
  {| factor := fone; rdim := dimensionless; runit := None |}.

Definition parsed (u : Unit) : Res Resolved :=
  '(f, d, u') ← call (parse_unit u);
  mret {| factor := f; rdim := d; runit := Some u' |}.

(** Lines 35-61: the units of value and error.
<<
    if unit is not None:
        value_factor, value_dim, value_unit = parse_unit(unit)
        error_factor = value_factor; error_dim = value_dim; error_unit = value_unit
    else:
        if value_unit is not None:
            value_factor, value_dim, value_unit = parse_unit(value_unit)
        if error_unit is not None:
            error_factor, error_dim, error_unit = parse_unit(error_unit)
            if value_unit is not None and not value_dim == error_dim:
                raise RuntimeError("dimension mismatch\n%s != %s" % (value_dim, error_dim))
>> *)
Definition resolve_units (unit value_unit error_unit : option Unit)
  : Res (Resolved * Resolved) :=
  match unit with
  | Some u => rv ← parsed u; mret (rv, rv)
  | None =>
    rv ← match value_unit with Some u => parsed u | None => mret no_unit end;
    match error_unit with
    | Some u =>
      re ← parsed u;
      if bool_decide (is_Some (runit rv)) && negb (bool_decide (rdim rv = rdim re))
      then Raise (RuntimeError (UnitDimensionMismatch (rdim rv) (rdim re)))
      else mret (rv, re)
    | None => mret (rv, no_unit)
    end
  end.

(** Lines 63-84: the value, its formula and the dimension.
<<
    if isinstance(value, Expr) and not value.is_number:
        value_formula = value
        value = get_value(value_formula)
        if ignore_dim:
            value = np.float_(value_factor)*np.float_(value)
        else:
            calculated_dim = get_dimension(value_formula)
            if value_unit is None:
                value_dim = calculated_dim
            else:
                if not calculated_dim == value_dim:
                    raise RuntimeError("dimension mismatch \n%s != %s" % (value_dim, calculated_dim))
    else:
        value=np.float_(value_factor)*np.float_(value)
>> *)
Definition process_value (h : gmap loc Quantity) (value : ValueArg)
    (ignore_dim : bool) (rv : Resolved) : Res (Array * option Expr * Dim) :=
  match value with
  | VExpr e =>
    if negb (is_number e) then
      v ← call (get_value h e);
      if ignore_dim then mret (scale (factor rv) v, Some e, rdim rv)
      else
        calculated_dim ← call (get_dimension h e);
        match runit rv with
        | None => mret (v, Some e, calculated_dim)
        | Some _ =>
          if negb (bool_decide (calculated_dim = rdim rv))
          then Raise (RuntimeError (FormulaDimensionMismatch (rdim rv) calculated_dim))
          else mret (v, Some e, rdim rv)
        end
    else
      c ← call (expr_float e);
      mret (scale (factor rv) (scalar c), None, rdim rv)
  | VNum a => mret (scale (factor rv) a, None, rdim rv)
  end.

(** Lines 86-105: the error and its formula.
<<
    if error is not None:
        error=np.float_(error_factor)*np.float_(error)
        if error.shape == () or value.shape[-len(error.shape):] == error.shape:
            error = np.resize(error, value.shape)
        else:
            raise RuntimeError("length of value and error don't match and "
                               "can't be adjusted by duplicating.\n"
                               "%s and %s" % (value.shape, error.shape))
    elif value_formula is not None:
        error, error_formula = get_error(value_formula)
        if ignore_dim:
            error = np.float_(error_factor)*np.float_(error)
>> *)
Definition process_error (h : gmap loc Quantity) (error : option Array)
    (value : Array) (value_formula : option Expr) (ignore_dim : bool)
    (re : Resolved) : Res (option Array * option Expr) :=
  match error with
  | Some e =>
    let e := scale (factor re) e in
    if shapes_fit (shape value) (shape e)
    then mret (Some (np_resize e (shape value)), None)
    else Raise (RuntimeError (ShapeMismatch (shape value) (shape e)))
  | None =>
    match value_formula with
    | Some f =>
      '(err, error_formula) ← call (get_error h f);
      mret (Some (if ignore_dim then scale (factor re) err else err),
            Some error_formula)
    | None => mret (None, None)
    end
  end.

(** Lines 107-118: the new quantity.
<<
    q = Quantity(name, longname)
    q.value = value
    q.value_formula = value_formula
    q.error = error
    q.error_formula = error_formula
    if value_unit is not None:
        q.prefer_unit = value_unit
    else:
        q.prefer_unit = error_unit
    q.dim = value_dim
    return q
>> *)
Definition build_quantity (name longname : option string) (value : Array)
    (value_formula : option Expr) (error : option Array)
    (error_formula : option Expr) (rv re : Resolved) (value_dim : Dim) : M loc :=
  q ← new_quantity name longname;
  setattr q (set_value (Some value));;
  setattr q (set_value_formula (FExpr <$> value_formula));;
  setattr q (set_error error);;
  setattr q (set_error_formula (FExpr <$> error_formula));;
  setattr q (set_prefer_unit
               (match runit rv with Some u => Some u | None => runit re end));;
  setattr q (set_dim (Some value_dim));;
  mret q.

(** The attributes of the object that lines 107-116 leave behind. *)
Definition assigned (l : loc) (name longname : option string) (value : Array)
    (value_formula : option Expr) (error : option Array)
    (error_formula : option Expr) (rv re : Resolved) (value_dim : Dim) : Quantity :=
  {| name := default (dummy_name l) name; longname := longname;
     value := Some value; value_formula := FExpr <$> value_formula;
     error := error; error_formula := FExpr <$> error_formula;
     prefer_unit := match runit rv with Some u => Some u | None => runit re end;
     dim := Some value_dim |}.

(** [assign(value, error, unit, name, longname, value_unit, error_unit,
    ignore_dim)], lines 14-118. *)
Definition assign (value : ValueArg) (error : option Array) (unit : option Unit)
    (name longname : option string) (value_unit error_unit : option Unit)
    (ignore_dim : bool) : M loc :=
  '(rv, re) ← lift (resolve_units unit value_unit error_unit);
  '(v, value_formula, value_dim) ← with_heap (λ h, process_value h value ignore_dim rv);
  '(err, error_formula) ←
     with_heap (λ h, process_error h error v value_formula ignore_dim re);
  build_quantity name longname v value_formula err error_formula rv re value_dim.

(** ** [params] *)

(** A generator object: the names for which it has not made a quantity
    yet. *)
Record Generator := { pending : list string }.

(** [params] (called with the names as arguments), lines 173-184.  One
    string is split at whitespace.  What is returned is a generator
    expression: the call itself creates no quantity.
<<
    if len(names) == 1:
        names = names[0].split()
    return (Quantity(name) for name in names)
>> *)
Definition params (names : list string) : Generator :=
  {| pending := match names with [n] => str_split n | _ => names end |}.

(** [next(g)]: the generator makes the quantity for its next name and keeps
    the rest; [None] stands for [StopIteration], after which it stays
    exhausted.  The generator afterwards is returned with the item. *)
Definition next (g : Generator) : M (option loc * Generator) :=
  match pending g with
  | [] => mret (None, g)
  | n :: rest =>
    l ← new_quantity (Some n) None;
    mret (Some l, {| pending := rest |})
  end.

(** At most [k] items of a generator, by [k] calls of [next] or fewer when
    it is exhausted before. *)
Fixpoint take_items (k : nat) (g : Generator) : M (list loc * Generator) :=
  match k with
  | O => mret ([], g)
  | S k =>
    '(item, g) ← next g;
    match item with
    | None => mret ([], g)
    | Some l => '(ls, g) ← take_items k g; mret (l :: ls, g)
    end
  end.

(** Iteration to the end, as [tuple(g)], a [for] loop or an unpacking
    assignment with as many targets as items do it: [next] until
    [StopIteration], which is one call more than there are items. *)
Definition iterate (g : Generator) : M (list loc * Generator) :=
  take_items (S (length (pending g))) g.

(** ** [fit] *)

(** A python sequence argument: a list can be written to, a tuple cannot. *)
Inductive PySeq := PyList (l : list Expr) | PyTuple (l : list Expr).

(** [xdata] and [xvar]: one expression (no [__iter__]) or a sequence. *)
Inductive XArg := XOne (e : Expr) | XSeq (s : PySeq).

Definition items (s : PySeq) : list Expr :=
  match s with PyList l | PyTuple l => l end.

Definition is_list (s : PySeq) : bool :=
  match s with PyList _ => true | PyTuple _ => false end.

(** [if not hasattr(x, '__iter__'): x = (x,)] *)
Definition as_sequence (x : XArg) : PySeq :=
  match x with XOne e => PyTuple [e] | XSeq s => s end.

(** Lines 228-235, one round per x axis.  [xvar = None] stands for
    [xvar = xdata], the same object, so that [xvar[xaxis] is xdata[xaxis]].
<<
    for xaxis in range(len(xdata)):
        if not isinstance(xdata[xaxis], Quantity):
            xdata[xaxis] = assign(xdata[xaxis])
        if not xvar[xaxis] is xdata[xaxis]:
            func = func.subs(xvar[xaxis], xdata[xaxis])
>> *)
Fixpoint fit_xaxes (writable : bool) (xdata : list Expr) (xvar : option (list Expr))
    (func : Expr) : M (list Expr * Expr) :=
  match xdata with
  | [] => mret ([], func)
  | x :: xdata' =>
    x' ← match as_quantity x with
         | Some _ => mret x
         | None =>
           q ← assign (VExpr x) None None None None None None false;
           if writable then mret (Sym (Q q)) else raise TypeError
         end;
    match xvar with
    | None =>
      '(xs, func') ← fit_xaxes writable xdata' None func;
      mret (x' :: xs, func')
    | Some [] => raise IndexError
    | Some (v :: xvar') =>
      let func := if bool_decide (v = x') then func else subs func v x' in
      '(xs, func') ← fit_xaxes writable xdata' (Some xvar') func;
      mret (x' :: xs, func')
    end
  end.

(** Lines 217-239: [xdata] and [xvar] as sequences, the x axes, [ydata].
<<
    if not hasattr(xdata, '__iter__'):
        xdata = (xdata,)
    if xvar is not None:
        if not hasattr(xvar, '__iter__'):
            xvar = (xvar,)
        assert len(xvar)==len(xdata)
    else:
        xvar = xdata
    ...
    if not isinstance(ydata, Quantity):
        ydata = assign(ydata)
>> *)
Definition fit_prepare (func : Expr) (xdata : XArg) (ydata : Expr)
    (xvar : option XArg) : M (Expr * list Expr * loc) :=
  let xs := as_sequence xdata in
  xv ← match xvar with
       | Some v =>
         let v := as_sequence v in
         if bool_decide (length (items v) = length (items xs))
         then mret (Some (items v)) else raise AssertionError
       | None => mret None
       end;
  '(xs', func') ← fit_xaxes (is_list xs) (items xs) xv func;
  y ← match as_quantity ydata with
      | Some y => mret y
      | None => assign (VExpr ydata) None None None None None None false
      end;
  mret (func', xs', y).

(** Lines 244-247: a [ValueError] or [RuntimeError] of [get_dimension] gives
    [func_dim = None]; any other exception goes through. *)
Definition try_dimension (r : Ext Dim) : Res (option Dim) :=
  match r with
  | Done d => Ok (Some d)
  | Throw ValueErrorC _ | Throw RuntimeErrorC _ => Ok None
  | Throw c s => Raise (Raised c s)
  end.

(** Lines 251-254.
<<
    known_dim = {}
    for q in func.free_symbols:
        if not q in params:
            known_dim[q.name] = q.dim
>> *)
Fixpoint collect_known (params : list loc) (syms : list Symbol)
    (known : gmap string (option Dim)) : M (gmap string (option Dim)) :=
  match syms with
  | [] => mret known
  | Q q :: rest =>
    if bool_decide (q ∈ params) then collect_known params rest known
    else
      d ← getattr q dim;
      n ← getattr q name;
      collect_known params rest (<[n := d]> known)
  | V _ :: _ => raise AttributeError
  end.

(** Lines 257-260.
<<
    for q in func.free_symbols:
        if not q.dim == known_dim[q.name]:
            q.dim = known_dim[q.name]
            q.prefer_unit = None
>> *)
Fixpoint save_dims (known : gmap string (option Dim)) (syms : list Symbol) : M () :=
  match syms with
  | [] => mret ()
  | Q q :: rest =>
    d ← getattr q dim;
    n ← getattr q name;
    match known !! n with
    | None => raise (KeyError n)
    | Some solved =>
      (if negb (bool_decide (d = solved))
       then setattr q (set_dim solved);; setattr q (set_prefer_unit None)
       else mret ());;
      save_dims known rest
    end
  | V _ :: _ => raise AttributeError
  end.

(** Lines 261-266: the dimension of the function after the solver.
<<
    func_dim = get_dimension(func)
    if not func_dim == ydata.dim:
        raise RuntimeError("Finding dimensions of fit parameters was not successful. ...")
>> *)
Definition check_dimensions (func : Expr) (y : loc) : M () :=
  func_dim ← with_heap (λ h, call (get_dimension h func));
  ydim ← getattr y dim;
  if negb (bool_decide (Some func_dim = ydim))
  then raise (RuntimeError FitDimensionsNotFound)
  else mret ().

(** Lines 255-266: the call of the solver, the dimensions it found, the
    check.
<<
    known_dim = dim_solve(func, ydata.dim, known_dim)
    for q in func.free_symbols:
        ...
    func_dim = get_dimension(func)
    ...
>> *)
Definition solve_dimensions (func : Expr) (y : loc) (ydim : option Dim)
    (known : gmap string (option Dim)) : M () :=
  solved ← with_heap (λ h, call (dim_solve h func ydim known));
  save_dims solved (free_symbols func);;
  check_dimensions func y.

(** Lines 241-266, under [not ignore_dim].
<<
    try:
        func_dim = get_dimension(func)
    except (ValueError, RuntimeError):
        func_dim = None
    if not func_dim == ydata.dim:
        known_dim = {}
        for q in func.free_symbols:
            ...
        known_dim = dim_solve(func, ydata.dim, known_dim)
        ...
>> *)
Definition fit_dimensions (func : Expr) (y : loc) (params : list loc) : M () :=
  func_dim ← with_heap (λ h, try_dimension (get_dimension h func));
  ydim ← getattr y dim;
  if negb (bool_decide (func_dim = ydim)) then
    known ← collect_known params (free_symbols func) ∅;
    ydim ← getattr y dim;
    emit (EvDimSolve func ydim known);;
    solve_dimensions func y ydim known
  else mret ().

(** Lines 271-276.
<<
    for i, p in enumerate(params):
        p.value = values[i]
        p.value_formula = "fit"
        p.error = errors[i]
        p.error_formula = "fit"
>> *)
Fixpoint save_results (i : nat) (params : list loc) (values errors : list Array) : M () :=
  match params with
  | [] => mret ()
  | p :: rest =>
    match values !! i with
    | None => raise IndexError
    | Some v =>
      setattr p (set_value (Some v));;
      setattr p (set_value_formula (Some (FStr "fit")));;
      match errors !! i with
      | None => raise IndexError
      | Some e =>
        setattr p (set_error (Some e));;
        setattr p (set_error_formula (Some (FStr "fit")));;
        save_results (S i) rest values errors
      end
    end
  end.

(** Lines 268-284: the fit itself, its results, the rendering.  The value
    returned is the rendering of the parameters' table, which reads the
    quantities and writes none.
<<
    values, errors = fitting.fit(func, xdata, ydata, params, ydata_axes, weighted, absolute_sigma)
    for i, p in enumerate(params):
        ...
    ... the table of the parameters, rendered ...
>> *)
Definition fit_finish (func : Expr) (xs : list Expr) (y : loc) (params : list loc)
    (opts : FitOptions) : M string :=
  emit (EvFitting func);;
  '(values, errors) ← with_heap (λ h, call (fitting_fit h func xs y params opts));
  save_results 0 params values errors;;
  with_heap (λ h, call (qtable h params)).

(** [fit(func, xdata, ydata, params, xvar, ydata_axes, weighted,
    absolute_sigma, ignore_dim)], lines 187-284. *)
Definition fit (func : Expr) (xdata : XArg) (ydata : Expr) (params : list loc)
    (xvar : option XArg) (opts : FitOptions) (ignore_dim : bool) : M string :=
  '(func, xs, y) ← fit_prepare func xdata ydata xvar;
  (if ignore_dim then mret () else fit_dimensions func y params);;
  fit_finish func xs y params opts.

(** ** [_find_all_dependencies] and its use in [plot] *)

(** The loop of lines 436-441 over the free symbols [qs] of the expression,
    with [recurse] for the call of line 439.  [unpacked] and the content of
    the list [ignore] are the loop's state; a plain symbol (or an object that
    is no quantity) has no [value_formula].
<<
    for q in expr.free_symbols:
        if not q in ignore and isinstance(q.value_formula, Expr):
            ignore.append(q)
            content = _find_all_dependencies(q.value_formula, find=find, ignore=ignore)
            if find in content.free_symbols:
                unpacked = unpacked.subs(q, content)
>> *)
Fixpoint unpack_loop (recurse : Expr → list loc → option (Res Expr * list loc))
    (h : gmap loc Quantity) (find : loc) (qs : list Symbol) (unpacked : Expr)
    (ignore : list loc) : option (Res Expr * list loc) :=
  match qs with
  | [] => Some (Ok unpacked, ignore)
  | V _ :: _ => Some (Raise AttributeError, ignore)
  | Q q :: qs =>
    if bool_decide (q ∈ ignore) then unpack_loop recurse h find qs unpacked ignore
    else
      match value_formula <$> h !! q with
      | None => Some (Raise AttributeError, ignore)
      | Some (Some (FExpr formula)) =>
        match recurse formula (ignore ++ [q]) with
        | None => None
        | Some (Raise e, ignore) => Some (Raise e, ignore)
        | Some (Ok content, ignore) =>
          unpack_loop recurse h find qs
            (if bool_decide (Q find ∈ free_symbols content)
             then subs unpacked (Sym (Q q)) content else unpacked)
            ignore
        end
      | Some _ => unpack_loop recurse h find qs unpacked ignore
      end
  end.

(** [_find_all_dependencies(expr, find, ignore)], lines 431-442, called with
    the list object [ignore]; the result comes with the content of that list
    afterwards, whichever way the call ends.  The recursion follows value
    formulas through the heap; [fuel] bounds its depth and [None] means the
    bound was too small.
<<
    unpacked = expr
    for q in expr.free_symbols:
        ...
    return unpacked
>> *)
Fixpoint find_all_dependencies (fuel : nat) (h : gmap loc Quantity) (expr : Expr)
    (find : loc) (ignore : list loc) : option (Res Expr * list loc) :=
  match fuel with
  | O => None
  | S fuel =>
    unpack_loop (λ formula ignore, find_all_dependencies fuel h formula find ignore)
      h find (free_symbols expr) expr ignore
  end.

(** [_find_all_dependencies(expr, find)]: the caller leaves [ignore] out, so
    the call works on the one list object that is the parameter's default. *)
Definition find_all_dependencies_default (fuel : nat) (expr : Expr) (find : loc)
    (w : World) : option (Res Expr * World) :=
  match find_all_dependencies fuel (heap w) expr find (ignore_default w) with
  | None => None
  | Some (r, ignore) => Some (r, set_ignore_default ignore w)
  end.

(** A quantity computed from a formula, and one that is only a name. *)
Definition formula_quantity (n : string) (f : Expr) : Quantity :=
  {| name := n; longname := None; value := None;
     value_formula := Some (FExpr f); error := None; error_formula := None;
     prefer_unit := None; dim := None |}.

Definition bare_quantity (n : string) : Quantity :=
  {| name := n; longname := None; value := None; value_formula := None;
     error := None; error_formula := None; prefer_unit := None; dim := None |}.

(** The world of a script that has [x] and [y = x]. *)
Definition two_quantities : World :=
  {| heap := {[ 0 := bare_quantity "x"; 1 := formula_quantity "y" (Sym (Q 0)) ]};
     ignore_default := []; trace := [] |}.

(** How [plot] takes an [x, y] pair. *)
Inductive PlotKind := PlotFunction (y : Expr) | PlotDataSet.

(** Lines 359-386 of [plot]: the pair is a function when [x] is a quantity
    that the unpacked [y] depends on, a data set otherwise.
<<
    if isinstance(x, Quantity):
        unpacked_y = _find_all_dependencies(y, x)
        if unpacked_y.has(x):
            ...
            functions.append((x, y, options))
            continue
    # otherwise, it's a data set
>> *)
Definition plot_kind (fuel : nat) (x y : Expr) (w : World)
  : option (Res PlotKind * World) :=
  match as_quantity x with
  | Some xq =>
    match find_all_dependencies_default fuel y xq w with
    | None => None
    | Some (Raise e, w') => Some (Raise e, w')
    | Some (Ok unpacked_y, w') =>
      Some (Ok (if has unpacked_y xq then PlotFunction unpacked_y else PlotDataSet), w')
    end
  | None => Some (Ok PlotDataSet, w)
  end.

(** Two resolutions that agree on everything but the canonical unit. *)
Definition same_resolved (r1 r2 : Resolved) : Prop :=
  factor r1 = factor r2 ∧ rdim r1 = rdim r2 ∧
  (runit r1 = None ↔ runit r2 = None).

(** Two results that end alike: with related values, or the same exception. *)
Definition res_agree {A} (R : A → A → Prop) (r1 r2 : Res A) : Prop :=
  match r1, r2 with
  | Ok a1, Ok a2 => R a1 a2
  | Raise e1, Raise e2 => e1 = e2
  | _, _ => False
  end.

(** A quantity without its display unit. *)
Definition without_unit (o : Quantity) : Quantity := set_prefer_unit None o.

(** ** Runs of a script *)

(** One call of an operation of [core.py], however it ends; for [params],
    whose call creates nothing, taking any number of items of the generator
    it returns. *)
Inductive step : World → World → Prop :=
| step_assign value error unit name longname value_unit error_unit ignore_dim w r w' :
    assign value error unit name longname value_unit error_unit ignore_dim w = (r, w') →
    step w w'
| step_params names k w r w' :
    take_items k (params names) w = (r, w') → step w w'
| step_fit func xdata ydata ps xvar opts ignore_dim w r w' :
    fit func xdata ydata ps xvar opts ignore_dim w = (r, w') → step w w'
| step_plot fuel x y w r w' :
    plot_kind fuel x y w = Some (r, w') → step w w'.

Definition empty_world : World := {| heap := ∅; ignore_default := []; trace := [] |}.

(** The worlds a script can reach from an empty interpreter. *)
Definition reachable (w : World) : Prop := rtc step empty_world w.

(** What a formula attribute may hold: nothing, an expression, or the string
    ["fit"]. *)
Definition formula_ok (f : option Formula) : Prop :=
  ∀ s, f = Some (FStr s) → s = "fit"%string.

Definition formulas_ok (w : World) : Prop :=
  ∀ l o, heap w !! l = Some o →
    formula_ok (value_formula o) ∧ formula_ok (error_formula o).

Definition is_dim_solve (e : Event) : bool :=
  match e with EvDimSolve _ _ _ => true | _ => false end.

Definition is_fitting (e : Event) : bool :=
  match e with EvFitting _ => true | _ => false end.

(** The number of calls of the dimension solver in a trace. *)
Definition solver_calls (t : list Event) : nat :=
  length (filter (λ e, is_dim_solve e) t).

Definition fitting_calls (t : list Event) : nat :=
  length (filter (λ e, is_fitting e) t).

(** Both formulas of a quantity hold the string of a fit. *)
Definition fitted (o : Quantity) : Prop :=
  value_formula o = Some (FStr "fit") ∧ error_formula o = Some (FStr "fit").

(** ** What a computation keeps *)

(** [m] keeps the relation [R] between the world before and the world after,
    however it ends. *)
Definition stable {A} (R : World → World → Prop) (m : M A) : Prop :=
  ∀ w, R w (m w).2.

(** The attributes that the results of a fit do not touch. *)
Definition meta (o : Quantity) : string * option Dim * option Unit :=
  (name o, dim o, prefer_unit o).

Definition same_meta (w w' : World) : Prop :=
  ∀ l, meta <$> heap w !! l = meta <$> heap w' !! l.

Definition same_trace (w w' : World) : Prop := trace w' = trace w.

Definition same_solver_calls (w w' : World) : Prop :=
  solver_calls (trace w') = solver_calls (trace w).

(** Formulas stay admissible. *)
Definition keeps_formulas (w w' : World) : Prop := formulas_ok w → formulas_ok w'.


(** ** [formula] *)

(** The python slices [s[-k:]] and [s[:-k]] of a string, for [k > 0]: the
    last [k] characters (all of a shorter string) and what is before them. *)
Definition str_last (k : nat) (s : string) : string :=
  String.substring (String.length s - k) k s.

Definition str_but_last (k : nat) (s : string) : string :=
  String.substring 0 (String.length s - k) s.

(** [var.name] of a symbol; a quantity has its name in the heap. *)
Definition symbol_name (h : gmap loc Quantity) (s : Symbol) : option string :=
  match s with
  | V n => Some n
  | Q l => name <$> h !! l
  end.

(** Lines 143-146, the loop over [vars]: a symbol whose name ends in [_err]
    gives way to [\sigma] applied to the symbol without that ending.
<<
    sigma = Function("\sigma")
    for var in formula.free_symbols:
        if var.name[-4:] == "_err":
            formula = formula.subs(var, sigma( Symbol(var.name[:-4], **var._assumptions)))
>> *)
Fixpoint sigma_loop (h : gmap loc Quantity) (vars : list Symbol) (formula : Expr)
  : option Expr :=
  match vars with
  | [] => Some formula
  | var :: vars =>
    match symbol_name h var with
    | None => None
    | Some n =>
      sigma_loop h vars
        (if bool_decide (str_last 4 n = "_err"%string)
         then subs formula (Sym var) (Fn "\sigma" (Sym (V (str_but_last 4 n))))
         else formula)
    end
  end.

(** What [s.endswith("_err")] says of a name, through the slice of line 145. *)
Definition ends_err (n : string) : bool := bool_decide (str_last 4 n = "_err"%string).

(** The replacement of one symbol, and a formula in which every symbol is
    replaced at once; the loop above makes one substitution after the other,
    in the order of the set it iterates over. *)
Definition sigma_of (h : gmap loc Quantity) (s : Symbol) : Expr :=
  match symbol_name h s with
  | Some n =>
    if ends_err n then Fn "\sigma" (Sym (V (str_but_last 4 n))) else Sym s
  | None => Sym s
  end.

Fixpoint with_sigma (h : gmap loc Quantity) (e : Expr) : Expr :=
  match e with
  | Num c => Num c
  | Sym s => sigma_of h s
  | Add a b => Add (with_sigma h a) (with_sigma h b)
  | Mul a b => Mul (with_sigma h a) (with_sigma h b)
  | Pow a b => Pow (with_sigma h a) (with_sigma h b)
  | Fn f a => Fn f (with_sigma h a)
  end.

(** The same with the replacement made for the symbols of [seen] only. *)
Fixpoint with_sigma_on (seen : list Symbol) (h : gmap loc Quantity) (e : Expr)
  : Expr :=
  match e with
  | Num c => Num c
  | Sym s => if bool_decide (s ∈ seen) then sigma_of h s else Sym s
  | Add a b => Add (with_sigma_on seen h a) (with_sigma_on seen h b)
  | Mul a b => Mul (with_sigma_on seen h a) (with_sigma_on seen h b)
  | Pow a b => Pow (with_sigma_on seen h a) (with_sigma_on seen h b)
  | Fn f a => Fn f (with_sigma_on seen h a)
  end.

(** Every symbol of the formula has a name, and no name ends in [_err]
    twice over: then no substitution of the loop touches what an earlier one
    has put in, and the order of the loop does not matter. *)
Definition plain_errors (h : gmap loc Quantity) (e : Expr) : Prop :=
  ∀ s, s ∈ free_symbols e →
    ∃ n, symbol_name h s = Some n ∧
         (ends_err n = true → ends_err (str_but_last 4 n) = false).

(** How a call of [formula] ends: the failed [assert], the [ValueError] with
    the quantity's name, an [AttributeError] for an object that is no
    quantity, the string that the error formula is, or the rendering of the
    quantity with its formula (what [latex] is given; the buttons around it
    are display). *)
Inductive FormulaResult :=
| FormulaAssertionError
| FormulaValueError (name : string)
| FormulaAttributeError
| FormulaString (s : string)
| FormulaRendered (quantity : loc) (formula : Expr).

(** [formula(quantity)], lines 120-156.
<<
    assert isinstance(quantity, Quantity)
    if quantity.error_formula is None:
        raise ValueError("quantity '%s' doesn't have an error formula." % quantity.name)
    formula = quantity.error_formula
    if isinstance(formula,str):
        return formula
    else:
        ...
        latex_code = latex(sigma(quantity)) + " = " + latex(formula)
>> *)
Definition formula (h : gmap loc Quantity) (quantity : Expr) : FormulaResult :=
  match as_quantity quantity with
  | None => FormulaAssertionError
  | Some q =>
    match h !! q with
    | None => FormulaAttributeError
    | Some o =>
      match error_formula o with
      | None => FormulaValueError (name o)
      | Some (FStr s) => FormulaString s
      | Some (FExpr f) =>
        match sigma_loop h (free_symbols f) f with
        | None => FormulaAttributeError
        | Some f' => FormulaRendered q f'
        end
      end
    end
  end.

(** ** The arguments of [plot] *)

(** An argument of [plot]: an expression, an options dictionary or a string. *)
Inductive PlotArg :=
| PlotExpr (e : Expr)
| PlotDict (d : gmap string string)
| PlotStr (s : string).

(** [isinstance(a, dict) or isinstance(a, str)] *)
Definition is_options (a : PlotArg) : bool :=
  match a with PlotExpr _ => false | _ => true end.

(** Lines 323-337: how the loop of [plot] cuts its arguments into [x], [y]
    and options, [None] standing for the fresh [{}]; these are the rounds the
    loop makes when none of them raises.
<<
    i = 0
    while i+1<len(plots):
        x = plots[i]
        y = plots[i+1]
        if i+2<len(plots) and (isinstance(plots[i+2], dict)
                            or isinstance(plots[i+2], str)):
            options = plots[i+2]
            i += 3
        else:
            options = {}
            i += 2
>> *)
Fixpoint plot_rounds (plots : list PlotArg) : list (PlotArg * PlotArg * option PlotArg) :=
  match plots with
  | x :: tl =>
    match tl with
    | y :: rest =>
      match rest with
      | o :: rest' =>
        if is_options o then (x, y, Some o) :: plot_rounds rest'
        else (x, y, None) :: plot_rounds rest
      | [] => [(x, y, None)]
      end
    | [] => []
    end
  | [] => []
  end.

(** The arguments a round has taken, in order. *)
Definition round_args (r : PlotArg * PlotArg * option PlotArg) : list PlotArg :=
  match r with
  | (x, y, Some o) => [x; y; o]
  | (x, y, None) => [x; y]
  end.

(** ** Engines that differ in one collaborator *)

Definition same_but_get_dimension (E1 E2 : Engine) : Prop :=
  @parse_unit E1 = @parse_unit E2 ∧
  @expr_float E1 = @expr_float E2 ∧
  @get_value E1 = @get_value E2 ∧
  @get_error E1 = @get_error E2 ∧
  @dummy_name E1 = @dummy_name E2.

Definition same_but_get_error (E1 E2 : Engine) : Prop :=
  @parse_unit E1 = @parse_unit E2 ∧
  @expr_float E1 = @expr_float E2 ∧
  @get_value E1 = @get_value E2 ∧
  @get_dimension E1 = @get_dimension E2 ∧
  @dummy_name E1 = @dummy_name E2.

(** ** More of what a computation keeps *)

(** The attributes that the dimension solver does not touch. *)
Definition measurement (o : Quantity)
  : string * option string * option Array * option Formula * option Array *
    option Formula :=
  (name o, longname o, value o, value_formula o, error o, error_formula o).

Definition same_measurements (w w' : World) : Prop :=
  ∀ l, measurement <$> heap w !! l = measurement <$> heap w' !! l.

(** Every quantity of [w] is in [w'] with the same name, dimension and
    preferred unit; [w'] may hold more. *)
Definition keeps_meta (w w' : World) : Prop :=
  ∀ l o, heap w !! l = Some o → ∃ o', heap w' !! l = Some o' ∧ meta o' = meta o.

(** Every quantity of [w] is in [w'], whatever has become of it. *)
Definition keeps_quantities (w w' : World) : Prop :=
  ∀ l, is_Some (heap w !! l) → is_Some (heap w' !! l).

(** ** What the dependency search passes over *)

(** A symbol that the loop of [_find_all_dependencies] passes over: a
    quantity that is in the list, or one whose value formula is no
    expression. *)
Definition passed_over (h : gmap loc Quantity) (ig : list loc) (s : Symbol) : Prop :=
  match s with
  | Q q => q ∈ ig ∨ ∃ o, h !! q = Some o ∧ ∀ f, value_formula o ≠ Some (FExpr f)
  | V _ => False
  end.

(** ** The script [src/main.py] *)

(** The configuration dictionary, lines 10-16. *)
Record Config := {
  unit_system : string;
  fit_module : string;
  plot_module : string;
  directory : string;
  auto_results : string;
  rounding : bool
}.

Definition standard_config : Config :=
  {| unit_system := "si"; fit_module := "scipy"; plot_module := "matplotlib";
     directory := "."; auto_results := "results.csv"; rounding := true |}.

(** [config["directory"] = d] *)
Definition set_directory (d : string) (c : Config) : Config :=
  {| unit_system := unit_system c; fit_module := fit_module c;
     plot_module := plot_module c; directory := d;
     auto_results := auto_results c; rounding := rounding c |}.

(** What the script imports: the parser, the interpreter, the commands and
    the output module are not part of [src/].  [Store] is the pair of objects
    that the commands work on, the dictionary [data] and the [Output];
    [new_output] is the call [output.Output()] of line 8, which gives the
    store of an empty [data] and the new object.  Each of them may raise.
    The script is taken from line 7 on, the modules being imported. *)
Class Script := {
  Tree : Type;
  Command : Type;
  Store : Type;
  new_output : Ext Store;
  dirname : string → string;
  parse_file : string → Ext Tree;
  interpret : Tree → Ext (list Command);
  execute : Command → Config → Store → Ext Store;
  generate : Config → Store → Ext unit
}.

Context {Sc : Script}.

(** The calls the script makes to what it imports, in order. *)
Inductive Call :=
| COutput
| CParse (fileName : string)
| CInterpret (tree : Tree)
| CExecute (c : Command) (config : Config)
| CGenerate (config : Config).

(** Lines 24-27.
<<
    syntax_trees = []
    for fileName in sys.argv[1:]:
        syntax_trees.append(parse_file(fileName))
>> *)
Fixpoint parse_all (files : list string) : Res (list Tree) * list Call :=
  match files with
  | [] => (Ok [], [])
  | fileName :: files =>
    match parse_file fileName with
    | Throw c s => (Raise (Raised c s), [CParse fileName])
    | Done tree =>
      let '(r, calls) := parse_all files in
      (match r with Ok trees => Ok (tree :: trees) | Raise e => Raise e end,
       CParse fileName :: calls)
    end
  end.

(** Lines 29-32.
<<
    commands = []
    for tree in syntax_trees:
        commands.extend(interpreter.interpret(tree))
>> *)
Fixpoint interpret_all (trees : list Tree) : Res (list Command) * list Call :=
  match trees with
  | [] => (Ok [], [])
  | tree :: trees =>
    match interpret tree with
    | Throw c s => (Raise (Raised c s), [CInterpret tree])
    | Done commands =>
      let '(r, calls) := interpret_all trees in
      (match r with Ok more => Ok (commands ++ more) | Raise e => Raise e end,
       CInterpret tree :: calls)
    end
  end.

(** Lines 34-36.
<<
    for c in commands:
        c.execute(data, config, output)
>> *)
Fixpoint execute_all (commands : list Command) (config : Config) (store : Store)
  : Res Store * list Call :=
  match commands with
  | [] => (Ok store, [])
  | c :: commands =>
    match execute c config store with
    | Throw cl s => (Raise (Raised cl s), [CExecute c config])
    | Done store =>
      let '(r, calls) := execute_all commands config store in
      (r, CExecute c config :: calls)
    end
  end.

(** Lines 18-38, with the store that lines 7-8 made.
<<
    if len(sys.argv) < 2:
        raise ValueError("no input file specified.")
    config["directory"] = path.dirname(sys.argv[1])
    ...
    output.generate(data, config)
>> *)
Definition run_files (argv : list string) (store : Store) : Res unit * list Call :=
  match argv with
  | _ :: first :: _ =>
    let config := set_directory (dirname first) standard_config in
    match parse_all (tail argv) with
    | (Raise e, parsing) => (Raise e, parsing)
    | (Ok syntax_trees, parsing) =>
      match interpret_all syntax_trees with
      | (Raise e, interpreting) => (Raise e, parsing ++ interpreting)
      | (Ok commands, interpreting) =>
        match execute_all commands config store with
        | (Raise e, executing) => (Raise e, parsing ++ interpreting ++ executing)
        | (Ok store, executing) =>
          (call (generate config store),
           parsing ++ interpreting ++ executing ++ [CGenerate config])
        end
      end
    end
  | _ => (Raise (Raised ValueErrorC "no input file specified."), [])
  end.

(** The script, run with [sys.argv = argv]: how it ends and the calls it has
    made by then.  The [Output] is constructed before the command line is
    looked at.
<<
    data = {}
    output = output.Output()
>> *)
Definition main (argv : list string) : Res unit * list Call :=
  match new_output with
  | Throw c s => (Raise (Raised c s), [COutput])
  | Done store =>
    let '(r, calls) := run_files argv store in (r, COutput :: calls)
  end.

End Model.

(** ** A concrete engine

    Integers stand in for float64 and a dimension is its exponents of length,
    mass and time.  The collaborators below are small versions of the ones
    the package imports, enough to run [assign], [fit] and the dependency
    search on concrete quantities. *)
Module Demo.

Local Open Scope Z_scope.

#[export] Instance domain : Domain := {|
  num := Z; fmul := Z.mul; fone := 1; fzero := 0;
  Dim := Z * Z * Z; dimensionless := (0, 0, 0); Unit := string |}.

Definition length_dim : Dim := (1, 0, 0).
Definition mass_dim : Dim := (0, 1, 0).
Definition time_dim : Dim := (0, 0, 1).
Definition area_dim : Dim := (2, 0, 0).

Definition metre : Unit := "m"%string.
Definition kilometre : Unit := "km"%string.
Definition second : Unit := "s"%string.

(** Modelled from the spec: the Dimension class is not in [core.py].
    Multiplication adds exponents, a power scales them. *)
Definition dim_mul (a b : Dim) : Dim :=
  let '(l1, m1, t1) := a in let '(l2, m2, t2) := b in (l1 + l2, m1 + m2, t1 + t2).

Definition dim_pow (a : Dim) (n : Z) : Dim :=
  let '(l, m, t) := a in (l * n, m * n, t * n).

(** Modelled from the spec: the unit resolver is not in [core.py].  A unit
    expression resolves to (scale factor, Dimension, canonical unit
    expression) and an unrecognized symbol fails. *)
Definition unit_table (canon : string → string) (u : string) : Ext (num * Dim * Unit) :=
  if bool_decide (u = "m"%string) then Done (1, length_dim, canon u)
  else if bool_decide (u = "km"%string) then Done (1000, length_dim, canon u)
  else if bool_decide (u = "s"%string) then Done (1, time_dim, canon u)
  else if bool_decide (u = "min"%string) then Done (60, time_dim, canon u)
  else if bool_decide (u = "kg"%string) then Done (1, mass_dim, canon u)
  else Throw ValueErrorC "unknown unit".

(** Elementwise arithmetic on two arrays of one shape, or of an array and a
    scalar. *)
Definition elementwise (op : Z → Z → Z) (a b : Array) : Ext Array :=
  if bool_decide (shape a = shape b)
  then Done {| shape := shape a; data := zip_with op (data a) (data b) |}
  else
    match shape a, data a, shape b, data b with
    | [], [x], _, _ => Done {| shape := shape b; data := map (op x) (data b) |}
    | _, _, [], [y] => Done {| shape := shape a; data := map (λ x, op x y) (data a) |}
    | _, _, _, _ => Throw ValueErrorC "operands could not be broadcast together"
    end.

(** Modelled from the spec: value evaluation of the Formula Engine, which is
    not in [core.py]: standard expression evaluation substituting each leaf
    Quantity's stored value. *)
Fixpoint eval (h : gmap loc Quantity) (e : Expr) : Ext Array :=
  match e with
  | Num c => Done (scalar c)
  | Sym (Q q) =>
    match h !! q with
    | Some o =>
      match value o with
      | Some v => Done v
      | None => Throw RuntimeErrorC "quantity doesn't have a value, yet."
      end
    | None => Throw AttributeErrorC ""
    end
  | Sym (V _) => Throw AttributeErrorC ""
  | Add a b => x ← eval h a; y ← eval h b; elementwise Z.add x y
  | Mul a b => x ← eval h a; y ← eval h b; elementwise Z.mul x y
  | Pow a (Num n) =>
    x ← eval h a; Done {| shape := shape x; data := map (λ v, v ^ n) (data x) |}
  | Pow _ _ | Fn _ _ => Throw OtherErrorC "not supported"
  end.

(** Modelled from the spec: dimension evaluation of the Formula Engine.
    Addition requires operand dimensions to be equal, multiplication
    multiplies them, a power raises the base's dimension to the numeric
    exponent, a function requires a dimensionless argument. *)
Fixpoint dimension (h : gmap loc Quantity) (e : Expr) : Ext Dim :=
  match e with
  | Num _ => Done dimensionless
  | Sym (Q q) =>
    match h !! q with
    | Some o =>
      match dim o with
      | Some d => Done d
      | None => Throw RuntimeErrorC "quantity doesn't have a dimension, yet."
      end
    | None => Throw AttributeErrorC ""
    end
  | Sym (V _) => Throw AttributeErrorC ""
  | Add a b =>
    da ← dimension h a; db ← dimension h b;
    if bool_decide (da = db) then Done da
    else Throw RuntimeErrorC "dimension mismatch"
  | Mul a b => da ← dimension h a; db ← dimension h b; Done (dim_mul da db)
  | Pow a (Num n) => da ← dimension h a; Done (dim_pow da n)
  | Pow _ _ => Throw OtherErrorC "not supported"
  | Fn _ a =>
    da ← dimension h a;
    if bool_decide (da = dimensionless) then Done dimensionless
    else Throw RuntimeErrorC "dimension mismatch"
  end.

(** The partial derivative of a formula with respect to a quantity. *)
Fixpoint diff (e : Expr) (x : loc) : Ext Expr :=
  match e with
  | Num _ => Done (Num 0)
  | Sym s => Done (Num (if bool_decide (s = Q x) then 1 else 0))
  | Add a b => da ← diff a x; db ← diff b x; Done (Add da db)
  | Mul a b => da ← diff a x; db ← diff b x; Done (Add (Mul da b) (Mul a db))
  | Pow a (Num n) => da ← diff a x; Done (Mul (Mul (Num n) (Pow a (Num (n - 1)))) da)
  | Pow _ _ | Fn _ _ => Throw OtherErrorC "not supported"
  end.

(** One round per free symbol: a quantity with an error adds
    [(∂f/∂x · error(x))^2] to the sum and its symbolic form to the formula; a
    quantity without error adds nothing. *)
Fixpoint propagate_terms (h : gmap loc Quantity) (f : Expr) (syms : list Symbol)
    (integrand : Array) (formula : Expr) : Ext (Array * Expr) :=
  match syms with
  | [] => Done (integrand, formula)
  | V _ :: _ => Throw AttributeErrorC ""
  | Q x :: rest =>
    match h !! x with
    | None => Throw AttributeErrorC ""
    | Some o =>
      match error o with
      | None => propagate_terms h f rest integrand formula
      | Some err =>
        d ← diff f x;
        dv ← eval h d;
        t ← elementwise Z.mul err dv;
        t2 ← elementwise Z.mul t t;
        s ← elementwise Z.add integrand t2;
        propagate_terms h f rest s
          (Add formula (Pow (Mul (Sym (V (name o +:+ "_err"))) d) (Num 2)))
      end
    end
  end.

(** Modelled from the spec: error propagation of the Formula Engine,
    [error(f) = sqrt(Σ_i (∂f/∂x_i · error(x_i))^2)] over the distinct free
    symbols, with the symbolic expression kept.  The square root is the
    integer one. *)
Definition propagate (h : gmap loc Quantity) (f : Expr) : Ext (Array * Expr) :=
  '(s, formula) ← propagate_terms h f (free_symbols f) (scalar 0) (Num 0);
  Done ({| shape := shape s; data := map Z.sqrt (data s) |}, Fn "sqrt" formula).

(** The dimension of a product of powers: the part that is known and the
    exponent of every symbol whose dimension is not. *)
Fixpoint monomial (h : gmap loc Quantity) (known : gmap string (option Dim))
    (e : Expr) : Ext (Dim * gmap string Z) :=
  match e with
  | Num _ => Done (dimensionless, ∅)
  | Sym (Q q) =>
    match h !! q with
    | None => Throw AttributeErrorC ""
    | Some o =>
      match known !! name o with
      | Some (Some d) => Done (d, ∅)
      | _ => Done (dimensionless, {[ name o := 1 ]})
      end
    end
  | Sym (V _) => Throw AttributeErrorC ""
  | Mul a b =>
    '(da, ua) ← monomial h known a;
    '(db, ub) ← monomial h known b;
    Done (dim_mul da db, union_with (λ x y, Some (x + y)) ua ub)
  | Pow a (Num n) =>
    '(da, ua) ← monomial h known a;
    Done (dim_pow da n, fmap (M := gmap string) (Z.mul n) ua)
  | _ => Throw RuntimeErrorC "not supported"
  end.

(** Modelled from the spec: the Dimension Solver is not in [core.py].  This
    one solves products of powers with a single unknown; an inconsistent or
    underdetermined system fails. *)
Definition solve (h : gmap loc Quantity) (func : Expr) (target : option Dim)
    (known : gmap string (option Dim)) : Ext (gmap string (option Dim)) :=
  '(d, unknown) ← monomial h known func;
  match target, map_to_list (filter (λ kv, kv.2 ≠ 0) unknown) with
  | Some t, [(n, c)] =>
    let '(l, m, s) := dim_mul t (dim_pow d (-1)) in
    if bool_decide (l mod c = 0 ∧ m mod c = 0 ∧ s mod c = 0)
    then Done (<[n := Some (l / c, m / c, s / c)]> known)
    else Throw RuntimeErrorC "dimensions can't be solved"
  | Some t, [] =>
    if bool_decide (d = t) then Done known
    else Throw RuntimeErrorC "dimension mismatch"
  | _, _ => Throw RuntimeErrorC "dimensions can't be solved"
  end.

(** A stand-in for the fitting backend: every parameter comes back with
    value 1 and error 0. *)
Definition unit_fit (h : gmap loc Quantity) (func : Expr) (xdata : list Expr)
    (ydata : loc) (params : list loc) (opts : FitOptions)
  : Ext (list Array * list Array) :=
  Done (map (λ _, scalar 1) params, map (λ _, scalar 0) params).

(** Whitespace of ASCII text, as Python 3 has it: tab to carriage return,
    the separators 0x1c to 0x1f and the space. *)
Definition ascii_space (a : Ascii.ascii) : bool :=
  let n := Ascii.nat_of_ascii a in
  ((9 <=? n)%nat && (n <=? 13)%nat) || ((28 <=? n)%nat && (n <=? 32)%nat).

(** The words of a string: [word] is the word being read, backwards. *)
Fixpoint split_loop (word : list Ascii.ascii) (s : string) : list string :=
  match s with
  | EmptyString =>
    match word with [] => [] | _ => [String.string_of_list_ascii (rev word)] end
  | String a s =>
    if ascii_space a then
      match word with
      | [] => split_loop [] s
      | _ => String.string_of_list_ascii (rev word) :: split_loop [] s
      end
    else split_loop (a :: word) s
  end.

Definition split_whitespace (s : string) : list string := split_loop [] s.

Definition float_of (e : Expr) : Ext num :=
  v ← eval ∅ e;
  match data v with [c] => Done c | _ => Throw TypeErrorC "" end.

(** The engine, for a given spelling of canonical units. *)
Definition engine_with (canon : string → string) : Engine := {|
  parse_unit := unit_table canon;
  expr_float := float_of;
  get_value := eval;
  get_dimension := dimension;
  get_error := propagate;
  dim_solve := solve;
  fitting_fit := unit_fit;
  qtable := λ _ _, Done "table"%string;
  dummy_name := λ l, ("NoName_" +:+ pretty l)%string;
  str_split := split_whitespace;
|}.

#[export] Instance engine : Engine := engine_with id.

(** The same engine with canonical units spelled differently. *)
Definition engine' : Engine := engine_with (λ u, ("unit:" +:+ u)%string).

(** *** A script

    Three time values [t] in seconds, three heights [h] in metres with an
    error of one metre, and a fit parameter [v]:
<<
    t = assign([1, 2, 3], unit="s", name="t")
    h = assign([2, 4, 6], error=1, unit="m", name="h")
    v, = params("v")
>> *)
Definition array (s : list nat) (d : list Z) : Array := {| shape := s; data := d |}.

Definition t : loc := 0%nat.
Definition h : loc := 1%nat.
Definition v : loc := 2%nat.

Definition assign_t : M loc :=
  assign (VNum (array [3%nat] [1; 2; 3])) None (Some second) (Some "t"%string)
    None None None false.

Definition assign_h : M loc :=
  assign (VNum (array [3%nat] [2; 4; 6])) (Some (scalar 1)) (Some metre)
    (Some "h"%string) None None None false.

Definition world_t : World := Eval vm_compute in (assign_t empty_world).2.
Definition world_h : World := Eval vm_compute in (assign_h world_t).2.
Definition world_v : World :=
  Eval vm_compute in (iterate (params ["v"%string]) world_h).2.

Definition no_options : FitOptions :=
  {| ydata_axes := None; weighted := None; absolute_sigma := false |}.

(** [fit(v*t, t, h, [v])] and [fit(v*t, t, h, [v], ignore_dim=True)] *)
Definition fit_velocity (ignore_dim : bool) : M string :=
  fit (Mul (Sym (Q v)) (Sym (Q t))) (XOne (Sym (Q t))) (Sym (Q h)) [v] None
    no_options ignore_dim.

Definition world_fitted : World := Eval vm_compute in (fit_velocity true world_v).2.

(** What the kilometre resolves to. *)
Definition in_kilometres : Resolved :=
  Build_Resolved (D := domain) 1000 length_dim (Some kilometre).

(** A value of shape (3,4), an error for each column, an error for each row. *)
Definition grid : Array :=
  array [3%nat; 4%nat] [1; 2; 3; 4; 5; 6; 7; 8; 9; 10; 11; 12].
Definition per_column : Array := array [4%nat] [1; 2; 3; 4].
Definition per_row : Array := array [3%nat] [1; 2; 3].

(** *** Engines with one collaborator changed *)

(** The engine whose dimension evaluation always fails, the one whose error
    propagation always fails, the one whose fitting backend returns nothing
    and the one whose solver answers with an empty dictionary. *)
Definition engine_without_dimension : Engine := {|
  parse_unit := unit_table id; expr_float := float_of; get_value := eval;
  get_dimension := λ _ _, Throw RuntimeErrorC "no dimension";
  get_error := propagate; dim_solve := solve; fitting_fit := unit_fit;
  qtable := λ _ _, Done "table"%string;
  dummy_name := λ l, ("NoName_" +:+ pretty l)%string;
  str_split := split_whitespace;
|}.

Definition engine_without_error : Engine := {|
  parse_unit := unit_table id; expr_float := float_of; get_value := eval;
  get_dimension := dimension;
  get_error := λ _ _, Throw RuntimeErrorC "no error";
  dim_solve := solve; fitting_fit := unit_fit;
  qtable := λ _ _, Done "table"%string;
  dummy_name := λ l, ("NoName_" +:+ pretty l)%string;
  str_split := split_whitespace;
|}.

Definition engine_short_fit : Engine := {|
  parse_unit := unit_table id; expr_float := float_of; get_value := eval;
  get_dimension := dimension; get_error := propagate; dim_solve := solve;
  fitting_fit := λ _ _ _ _ _ _, Done ([], []);
  qtable := λ _ _, Done "table"%string;
  dummy_name := λ l, ("NoName_" +:+ pretty l)%string;
  str_split := split_whitespace;
|}.

Definition engine_forgetful_solver : Engine := {|
  parse_unit := unit_table id; expr_float := float_of; get_value := eval;
  get_dimension := dimension; get_error := propagate;
  dim_solve := λ _ _ _ _, Done ∅;
  fitting_fit := unit_fit;
  qtable := λ _ _, Done "table"%string;
  dummy_name := λ l, ("NoName_" +:+ pretty l)%string;
  str_split := split_whitespace;
|}.

(** *** More of the script *)

(** After [fit(v*t, t, h, [v])], which gives [v] its dimension. *)
Definition world_solved : World := Eval vm_compute in (fit_velocity false world_v).2.

(** After [assign(t*t)], which is what [fit(v*t*t, t*t, h, [v])] begins with. *)
Definition assign_squared : M loc :=
  assign (VExpr (Mul (Sym (Q t)) (Sym (Q t)))) None None None None None None false.

Definition world_squared : World := Eval vm_compute in (assign_squared world_v).2.

(** The quantity [h]. *)
Definition quantity_h : Quantity :=
  Eval vm_compute in default (bare_quantity "h") (heap world_h !! h).

(** After [assign(h*t)], whose error is propagated. *)
Definition assign_product : M loc :=
  assign (VExpr (Mul (Sym (Q h)) (Sym (Q t)))) None None None None None None false.

Definition world_product : World := Eval vm_compute in (assign_product world_h).2.

(** The names [a] and [b] with the separator 0x1c between them. *)
Definition separated_names : string :=
  ("a" +:+ String (Ascii.ascii_of_nat 28) "b")%string.

(** The world of [two_quantities] once [y] is in the default list. *)
Definition two_quantities_ignored : World :=
  set_ignore_default [1%nat] two_quantities.

(** *** A script runner

    A file parses to its name unless it is called [missing], a tree is
    interpreted as two commands, a command appends its name to the store and
    the output is always generated. *)
#[export] Instance script : Script := {|
  Tree := string;
  Command := string;
  Store := list string;
  new_output := Done [];
  dirname := λ f, ("dir/" +:+ f)%string;
  parse_file := λ f, if bool_decide (f = "missing"%string)
                     then Throw OtherErrorC "No such file" else Done f;
  interpret := λ tree, Done [(tree +:+ ":1")%string; (tree +:+ ":2")%string];
  execute := λ c _ store, Done (store ++ [c]);
  generate := λ _ _, Done ();
|}.

Definition command_line : list string := ["main.py"; "a.dat"; "b.dat"]%string.

End Demo.

(** * Properties of [assign] *)

Section Properties.
Context {D : Domain} {E : Engine}.

(** ** Arrays *)

Lemma size_of_app (a b : list nat) : size_of (a ++ b) = size_of a * size_of b.
Proof.
  induction a as [|x a IH]; simpl.
  - lia.
  - unfold size_of in *. simpl. rewrite IH. lia.
Qed.

Lemma length_concat_replicate {A} (k : nat) (l : list A) :
  length (concat (replicate k l)) = k * length l.
Proof.
  induction k as [|k IH]; simpl; [done|].
  rewrite length_app, IH. lia.
Qed.

Lemma concat_replicate_nil {A} (k : nat) : concat (replicate k (@nil A)) = [].
Proof. induction k; simpl; auto. Qed.

Lemma last_items_suffix {A} (es vs : list A) :
  es ≠ [] → last_items (length es) vs = es ↔ es `suffix_of` vs.
Proof.
  intros Hne. unfold last_items.
  destruct (Nat.eqb_spec (length es) 0) as [H0|H0].
  { destruct es; simpl in *; [done|lia]. }
  split.
  - intros Heq. exists (take (length vs - length es) vs).
    transitivity (take (length vs - length es) vs ++ drop (length vs - length es) vs);
      [by rewrite take_drop | by rewrite Heq].
  - intros [k ->]. rewrite length_app.
    replace (length k + length es - length es) with (length k) by lia.
    by rewrite drop_app_length.
Qed.

Lemma shapes_fit_suffix (vs es : list nat) :
  shapes_fit vs es = true ↔ es `suffix_of` vs.
Proof.
  unfold shapes_fit. destruct (decide (es = [])) as [->|Hne].
  - simpl. split; [intros _; apply suffix_nil | done].
  - rewrite orb_true_iff, !bool_decide_eq_true.
    rewrite last_items_suffix by done. split; [by intros [?|?] | by right].
Qed.

Lemma np_resize_shape (a : Array) (s : list nat) : shape (np_resize a s) = s.
Proof. unfold np_resize. by destruct (_ || _). Qed.

Lemma np_resize_leading (e : Array) (lead : list nat) :
  wf_array e →
  np_resize e (lead ++ shape e) =
  {| shape := lead ++ shape e;
     data := concat (replicate (size_of lead) (data e)) |}.
Proof.
  unfold wf_array, np_resize. intros Hwf.
  rewrite size_of_app, <- Hwf.
  set (n := length (data e)). set (k := size_of lead).
  destruct (Nat.eqb_spec n 0) as [Hn|Hn]; simpl.
  - f_equal. rewrite Hn, Nat.mul_0_r. simpl.
    assert (data e = []) as -> by (by apply length_zero_iff_nil).
    by rewrite concat_replicate_nil.
  - destruct (Nat.eqb_spec (k * n) 0) as [Hk|Hk].
    + assert (k = 0) as -> by nia. by rewrite Hk.
    + f_equal.
      replace ((k * n + n - 1) / n) with k.
      * apply take_ge. rewrite length_concat_replicate. fold n. lia.
      * replace (k * n + n - 1) with (k * n + (n - 1)) by lia.
        rewrite Nat.div_add_l by done. rewrite Nat.div_small; lia.
Qed.

Lemma scale_shape (f : num) (a : Array) : shape (scale f a) = shape a.
Proof. done. Qed.

Lemma scale_wf (f : num) (a : Array) : wf_array a → wf_array (scale f a).
Proof. unfold wf_array, scale. simpl. by rewrite length_map. Qed.

Lemma resized_error (f : num) (given : Array) (s : list nat) :
  wf_array given → shapes_fit s (shape given) = true →
  ∃ lead, s = lead ++ shape given ∧
    np_resize (scale f given) s =
    {| shape := s;
       data := concat (replicate (size_of lead) (map (fmul f) (data given))) |}.
Proof.
  intros Hwf [lead ->]%shapes_fit_suffix. exists lead. split; [done|].
  exact (np_resize_leading (scale f given) lead (scale_wf f given Hwf)).
Qed.

(** ** Running [assign] *)

Lemma build_quantity_run n ln v vf err ef rv re vd w :
  build_quantity n ln v vf err ef rv re vd w =
  (Ok (fresh (dom (heap w))),
   set_heap (<[fresh (dom (heap w)) := assigned (fresh (dom (heap w))) n ln v vf err ef rv re vd]> (heap w)) w).
Proof.
  unfold build_quantity, new_quantity, setattr, mbind, M_bind, mret, M_ret, set_heap.
  simpl. repeat (rewrite lookup_insert_eq; simpl).
  by rewrite !insert_insert_eq.
Qed.


Lemma assign_run val err_arg unit n ln vu eu ig w :
  assign val err_arg unit n ln vu eu ig w =
  match resolve_units unit vu eu with
  | Raise e => (Raise e, w)
  | Ok (rv, re) =>
    match process_value (heap w) val ig rv with
    | Raise e => (Raise e, w)
    | Ok (v, vf, vd) =>
      match process_error (heap w) err_arg v vf ig re with
      | Raise e => (Raise e, w)
      | Ok (err, ef) =>
        (Ok (fresh (dom (heap w))),
         set_heap (<[fresh (dom (heap w)) :=
                      assigned (fresh (dom (heap w))) n ln v vf err ef rv re vd]>
                     (heap w)) w)
      end
    end
  end.
Proof.
  unfold assign, lift, with_heap, mbind, M_bind.
  destruct (resolve_units unit vu eu) as [[rv re]|e]; [|done].
  destruct (process_value (heap w) val ig rv) as [[[v vf] vd]|e]; [|done].
  destruct (process_error (heap w) err_arg v vf ig re) as [[err ef]|e]; [|done].
  apply build_quantity_run.
Qed.

Lemma assign_ok_inv val err_arg unit n ln vu eu ig w q w' :
  assign val err_arg unit n ln vu eu ig w = (Ok q, w') →
  ∃ rv re v vf vd err ef,
    resolve_units unit vu eu = Ok (rv, re) ∧
    process_value (heap w) val ig rv = Ok (v, vf, vd) ∧
    process_error (heap w) err_arg v vf ig re = Ok (err, ef) ∧
    q = fresh (dom (heap w)) ∧
    w' = set_heap (<[q := assigned q n ln v vf err ef rv re vd]> (heap w)) w.
Proof.
  rewrite assign_run.
  destruct (resolve_units unit vu eu) as [[rv re]|e] eqn:H1; [|done].
  destruct (process_value (heap w) val ig rv) as [[[v vf] vd]|e] eqn:H2; [|done].
  destruct (process_error (heap w) err_arg v vf ig re) as [[err ef]|e] eqn:H3; [|done].
  intros [= <- <-]. by exists rv, re, v, vf, vd, err, ef.
Qed.

Lemma assign_ok_intro val err_arg unit n ln vu eu ig w rv re v vf vd err ef :
  resolve_units unit vu eu = Ok (rv, re) →
  process_value (heap w) val ig rv = Ok (v, vf, vd) →
  process_error (heap w) err_arg v vf ig re = Ok (err, ef) →
  assign val err_arg unit n ln vu eu ig w =
  (Ok (fresh (dom (heap w))),
   set_heap (<[fresh (dom (heap w)) :=
                assigned (fresh (dom (heap w))) n ln v vf err ef rv re vd]>
               (heap w)) w).
Proof. intros H1 H2 H3. by rewrite assign_run, H1, H2, H3. Qed.

Lemma assign_raise_inv val err_arg unit n ln vu eu ig w e w' :
  assign val err_arg unit n ln vu eu ig w = (Raise e, w') → w' = w.
Proof.
  rewrite assign_run.
  destruct (resolve_units unit vu eu) as [[rv re]|?]; [|congruence].
  destruct (process_value (heap w) val ig rv) as [[[v vf] vd]|?]; [|congruence].
  destruct (process_error (heap w) err_arg v vf ig re) as [[err ef]|?]; congruence.
Qed.

Lemma fresh_lookup_None (h : gmap loc Quantity) : h !! fresh (dom h) = None.
Proof. apply not_elem_of_dom, is_fresh. Qed.

Lemma assign_new_lookup q n ln v vf err ef rv re vd w :
  heap (set_heap (<[q := assigned q n ln v vf err ef rv re vd]> (heap w)) w) !! q =
  Some (assigned q n ln v vf err ef rv re vd).
Proof. simpl. apply lookup_insert_eq. Qed.

Lemma assign_keeps_world val err_arg unit n ln vu eu ig w :
  (∀ l o, heap w !! l = Some o →
          heap (assign val err_arg unit n ln vu eu ig w).2 !! l = Some o) ∧
  trace (assign val err_arg unit n ln vu eu ig w).2 = trace w.
Proof.
  destruct (assign val err_arg unit n ln vu eu ig w) as [[q|e] w'] eqn:Hrun.
  - apply assign_ok_inv in Hrun
      as (rv & re & v & vf & vd & err & ef & _ & _ & _ & -> & ->).
    simpl. split; [|done].
    intros l o Hl. rewrite lookup_insert_ne; [done|].
    intros <-. by rewrite fresh_lookup_None in Hl.
  - by apply assign_raise_inv in Hrun as ->.
Qed.

(** C7: [assign] leaves every quantity that exists before the call as it is
    (name, value, error, formulas, dimension and preferred unit), touches
    neither the shared default list nor the trace, and when it raises (a
    dimension mismatch, a shape mismatch or a collaborator's exception) the
    world is the one before the call. *)
Theorem assign_frame val err_arg unit n ln vu eu ig w :
  let r := assign val err_arg unit n ln vu eu ig w in
  (∀ l o, heap w !! l = Some o → heap r.2 !! l = Some o) ∧
  ignore_default r.2 = ignore_default w ∧
  trace r.2 = trace w ∧
  (∀ e, r.1 = Raise e → r.2 = w).
Proof.
  simpl. destruct (assign val err_arg unit n ln vu eu ig w) as [[q|e] w'] eqn:Hrun.
  - apply assign_ok_inv in Hrun
      as (rv & re & v & vf & vd & err & ef & _ & _ & _ & -> & ->).
    simpl. repeat split; [|done].
    intros l o Hl. rewrite lookup_insert_ne; [done|].
    intros <-. by rewrite fresh_lookup_None in Hl.
  - apply assign_raise_inv in Hrun as ->. simpl. eauto.
Qed.

(** C2: with an explicit error array, once the units and the value are
    resolved: if the error is scalar or its shape is a trailing part of the
    value's shape, [assign] succeeds and the stored error has the value's
    shape, its data being the scaled error repeated once per index of the
    leading axes; any other shape raises the shape mismatch carrying both
    shapes.  A (3,4) value takes a (4,) error as three copies of the row and
    rejects a (3,) error. *)
Theorem assign_error_broadcast val (err_arg : Array) unit n ln vu eu ig w rv re v vf vd :
  resolve_units unit vu eu = Ok (rv, re) →
  process_value (heap w) val ig rv = Ok (v, vf, vd) →
  wf_array err_arg →
  let run := assign val (Some err_arg) unit n ln vu eu ig w in
  let scaled := map (fmul (factor re)) (data err_arg) in
  ((shape err_arg = [] ∨ shape err_arg `suffix_of` shape v) →
     ∃ q w' o stored,
       run = (Ok q, w') ∧ heap w' !! q = Some o ∧ value o = Some v ∧
       error o = Some stored ∧ shape stored = shape v ∧
       ∀ lead, shape v = lead ++ shape err_arg →
         data stored = concat (replicate (size_of lead) scaled)) ∧
  (¬ (shape err_arg = [] ∨ shape err_arg `suffix_of` shape v) →
     run = (Raise (RuntimeError (ShapeMismatch (shape v) (shape err_arg))), w)) ∧
  (shape v = [3; 4] → shape err_arg = [4] →
     ∃ q w' o,
       run = (Ok q, w') ∧ heap w' !! q = Some o ∧
       error o = Some {| shape := [3; 4]; data := scaled ++ scaled ++ scaled |}) ∧
  (shape v = [3; 4] → shape err_arg = [3] →
     run = (Raise (RuntimeError (ShapeMismatch [3; 4] [3])), w)).
Proof.
  intros Hres Hval Hwf run scaled.
  assert (Hfit : shapes_fit (shape v) (shape err_arg) = true →
    run = (Ok (fresh (dom (heap w))),
           set_heap (<[fresh (dom (heap w)) :=
             assigned (fresh (dom (heap w))) n ln v vf
               (Some (np_resize (scale (factor re) err_arg) (shape v))) None rv re vd]>
             (heap w)) w)).
  { intros Hs. subst run. erewrite assign_ok_intro; [done..|].
    unfold process_error. by rewrite scale_shape, Hs. }
  assert (Hbad : shapes_fit (shape v) (shape err_arg) = false →
    run = (Raise (RuntimeError (ShapeMismatch (shape v) (shape err_arg))), w)).
  { intros Hs. subst run. rewrite assign_run, Hres, Hval.
    unfold process_error. by rewrite scale_shape, Hs. }
  assert (Hdata : ∀ lead, shape v = lead ++ shape err_arg →
    np_resize (scale (factor re) err_arg) (shape v) =
    {| shape := shape v; data := concat (replicate (size_of lead) scaled) |}).
  { intros lead Hv. rewrite Hv.
    by rewrite <- (scale_shape (factor re) err_arg),
      (np_resize_leading _ lead (scale_wf _ _ Hwf)). }
  repeat split.
  - intros Hshape.
    assert (shapes_fit (shape v) (shape err_arg) = true) as Hs.
    { apply shapes_fit_suffix. destruct Hshape as [->|?]; [apply suffix_nil|done]. }
    eexists _, _, _, _. split; [by apply Hfit|].
    split; [apply assign_new_lookup|]. simpl.
    split; [done|]. split; [done|]. split; [apply np_resize_shape|].
    intros lead Hv. by rewrite (Hdata lead Hv).
  - intros Hshape. apply Hbad. apply not_true_is_false.
    rewrite shapes_fit_suffix. tauto.
  - intros Hv He.
    assert (shapes_fit (shape v) (shape err_arg) = true) as Hs by (by rewrite Hv, He).
    eexists _, _, _. split; [by apply Hfit|].
    split; [apply assign_new_lookup|]. simpl.
    rewrite (Hdata [3]) by (by rewrite Hv, He). rewrite Hv. simpl.
    by rewrite app_nil_r.
  - intros Hv He. rewrite <- Hv, <- He. apply Hbad. by rewrite Hv, He.
Qed.


(** ** Units *)

Lemma parsed_inv u r :
  parsed u = Ok r ↔ ∃ c, parse_unit u = Done (factor r, rdim r, c) ∧ runit r = Some c.
Proof.
  unfold parsed. destruct (parse_unit u) as [[[f d] c]|c s]; simpl.
  - split.
    + intros [= <-]. by exists c.
    + intros (c' & [= -> -> ->] & Hc). destruct r; simpl in *; by subst.
  - split; [done|]. by intros (? & ? & _).
Qed.

Lemma parsed_not_core u (m : Message) : parsed u ≠ Raise (RuntimeError m).
Proof. unfold parsed. by destruct (parse_unit u) as [[[f d] c]|c s]. Qed.

Lemma resolve_units_inv unit vu eu rv re :
  resolve_units unit vu eu = Ok (rv, re) →
  match unit with
  | Some u => parsed u = Ok rv ∧ re = rv
  | None =>
    match vu with Some u => parsed u = Ok rv | None => rv = no_unit end ∧
    match eu with Some u => parsed u = Ok re | None => re = no_unit end
  end.
Proof.
  unfold resolve_units. intros H.
  destruct unit as [u|]; [|destruct vu as [u|], eu as [u'|]]; simpl in H;
    repeat match type of H with
           | context [parsed ?x] => destruct (parsed x); simpl in H
           | context [if ?b then _ else _] => destruct b; simpl in H
           end; cbv [mret Res_ret] in H; by simplify_eq.
Qed.

Ltac stage_cases :=
  repeat (simpl;
    match goal with
    | |- context [call ?r] => destruct r as [?|? ?] eqn:?
    | |- context [if ?b then _ else _] => destruct b eqn:?
    | |- context [match ?x with _ => _ end] => destruct x eqn:?
    end);
  cbv [mret Res_ret].

Lemma resolve_units_core_error unit vu eu m :
  resolve_units unit vu eu = Raise (RuntimeError m) →
  unit = None ∧ ∃ d d', m = UnitDimensionMismatch d d'.
Proof.
  unfold resolve_units, parsed. stage_cases; intros; simplify_eq; eauto.
Qed.

Lemma process_value_core_error h val ig rv m :
  process_value h val ig rv = Raise (RuntimeError m) →
  ∃ d d', m = FormulaDimensionMismatch d d'.
Proof.
  unfold process_value. stage_cases; intros; simplify_eq; eauto.
Qed.

Lemma process_error_core_error h err_arg v vf ig re m :
  process_error h err_arg v vf ig re = Raise (RuntimeError m) →
  ∃ s s', m = ShapeMismatch s s'.
Proof.
  unfold process_error. stage_cases; intros; simplify_eq; eauto.
Qed.

(** C1, as the code has it: for a value that is a formula (not a number),
    once the units are resolved, the stored value is the formula's value and
    the formula is kept.  With dimension checking on, the stored dimension is
    the computed one, which must equal the declared unit's when a value unit
    (or combined unit) was given, else [assign] raises the dimension mismatch.
    With [ignore_dim] the computed value is multiplied by the declared unit's
    factor and the stored dimension is the declared unit's; when no value
    unit was given that factor is 1 and the dimension is [Dimension()], not
    the computed one. *)
Theorem assign_formula_value e err_arg unit n ln vu eu ig w rv re :
  is_number e = false →
  resolve_units unit vu eu = Ok (rv, re) →
  let run := assign (VExpr e) err_arg unit n ln vu eu ig w in
  (∀ q w', run = (Ok q, w') →
     ∃ o v, heap w' !! q = Some o ∧ get_value (heap w) e = Done v ∧
       value_formula o = Some (FExpr e) ∧
       if ig then value o = Some (scale (factor rv) v) ∧ dim o = Some (rdim rv)
       else value o = Some v ∧
            ∃ cd, get_dimension (heap w) e = Done cd ∧ dim o = Some cd ∧
                  (is_Some (runit rv) → cd = rdim rv)) ∧
  (ig = false → ∀ v cd, is_Some (runit rv) →
     get_value (heap w) e = Done v → get_dimension (heap w) e = Done cd →
     cd ≠ rdim rv →
     run = (Raise (RuntimeError (FormulaDimensionMismatch (rdim rv) cd)), w)) ∧
  (∀ u, unit = Some u ∨ (unit = None ∧ vu = Some u) →
     ∃ c, parse_unit u = Done (factor rv, rdim rv, c) ∧ runit rv = Some c) ∧
  (unit = None → vu = None → rv = no_unit).
Proof.
  intros Hnum Hres run. repeat split.
  - intros q w' Hrun. apply assign_ok_inv in Hrun
      as (rv' & re' & v & vf & vd & err & ef & Hres' & Hval & _ & -> & ->).
    rewrite Hres in Hres'. injection Hres' as <- <-.
    unfold process_value in Hval. rewrite Hnum in Hval. simpl in Hval.
    destruct (get_value (heap w) e) as [v0|]; simpl in Hval; [|done].
    exists (assigned (fresh (dom (heap w))) n ln v vf err ef rv re vd), v0.
    split; [apply assign_new_lookup|]. split; [done|]. destruct ig.
    + by injection Hval as <- <- <-.
    + destruct (get_dimension (heap w) e) as [cd|]; simpl in Hval; [|done].
      destruct (runit rv) as [u|] eqn:Hu.
      * case_bool_decide as Hcd; simpl in Hval; [|done].
        injection Hval as <- <- <-. simpl. repeat split.
        exists cd. rewrite Hcd. eauto.
      * injection Hval as <- <- <-. simpl. repeat split.
        exists cd. repeat split. by intros [? ?].
  - intros -> v cd [u Hu] Hv Hd Hne. subst run.
    rewrite assign_run, Hres. unfold process_value.
    rewrite Hnum. simpl. rewrite Hv. simpl. rewrite Hd. simpl. rewrite Hu.
    by rewrite bool_decide_false.
  - intros u Hu. apply resolve_units_inv in Hres.
    destruct Hu as [->|[-> ->]]; apply parsed_inv; tauto.
  - intros -> ->. apply resolve_units_inv in Hres. tauto.
Qed.

(** C3: when a value unit and an error unit are given separately and resolve
    to different dimensions, [assign] raises the dimension mismatch that
    names both; a combined unit resolves once, the same factor, dimension and
    canonical unit serve for value and error (whatever [value_unit] and
    [error_unit] say), and the value-against-error mismatch cannot be
    raised. *)
Theorem assign_unit_consistency val err_arg n ln ig w :
  (∀ u u' f d c f' d' c',
     parse_unit u = Done (f, d, c) → parse_unit u' = Done (f', d', c') → d ≠ d' →
     assign val err_arg None n ln (Some u) (Some u') ig w =
     (Raise (RuntimeError (UnitDimensionMismatch d d')), w)) ∧
  (∀ u vu eu f d c,
     parse_unit u = Done (f, d, c) →
     resolve_units (Some u) vu eu =
       Ok ({| factor := f; rdim := d; runit := Some c |},
           {| factor := f; rdim := d; runit := Some c |})) ∧
  (∀ u vu eu d d' w',
     assign val err_arg (Some u) n ln vu eu ig w ≠
     (Raise (RuntimeError (UnitDimensionMismatch d d')), w')).
Proof.
  repeat split.
  - intros u u' f d c f' d' c' Hu Hu' Hne.
    rewrite assign_run. unfold resolve_units, parsed. rewrite Hu, Hu'. simpl.
    by rewrite (bool_decide_false (d = d')) by done.
  - intros u vu eu f d c Hu. unfold resolve_units, parsed. by rewrite Hu.
  - intros u vu eu d d' w'. rewrite assign_run.
    destruct (resolve_units (Some u) vu eu) as [[rv re]|x] eqn:H1.
    + destruct (process_value (heap w) val ig rv) as [[[v vf] vd]|x] eqn:H2.
      * destruct (process_error (heap w) err_arg v vf ig re) as [[err ef]|x] eqn:H3;
          [done|].
        intros [= -> _]. by apply process_error_core_error in H3 as (? & ? & ?).
      * intros [= -> _]. by apply process_value_core_error in H2 as (? & ? & ?).
    + intros [= -> _]. by apply resolve_units_core_error in H1 as [? _].
Qed.


(** ** What the stages return *)

Lemma process_value_inv h val ig rv v vf vd :
  process_value h val ig rv = Ok (v, vf, vd) →
  match val with
  | VNum a => v = scale (factor rv) a ∧ vf = None ∧ vd = rdim rv
  | VExpr e =>
    if is_number e
    then ∃ c, expr_float e = Done c ∧ v = scale (factor rv) (scalar c) ∧
              vf = None ∧ vd = rdim rv
    else ∃ computed, get_value h e = Done computed ∧ vf = Some e ∧
                     v = if ig then scale (factor rv) computed else computed
  end.
Proof.
  unfold process_value. destruct val as [e|a].
  - destruct (is_number e); simpl.
    + destruct (expr_float e) as [c|]; simpl; cbv [mret Res_ret]; [|done].
      intros [= <- <- <-]. by exists c.
    + destruct (get_value h e) as [computed|]; simpl; [|done].
      destruct ig; cbv [mret Res_ret].
      * intros [= <- <- <-]. by exists computed.
      * destruct (get_dimension h e) as [cd|]; simpl; [|done].
        destruct (runit rv); [destruct (negb _); [done|]|];
          cbv [mret Res_ret]; intros [= <- <- <-]; by exists computed.
  - cbv [mret Res_ret]. by intros [= <- <- <-].
Qed.

Lemma process_error_given h given v vf ig re err ef :
  process_error h (Some given) v vf ig re = Ok (err, ef) →
  shapes_fit (shape v) (shape given) = true ∧
  err = Some (np_resize (scale (factor re) given) (shape v)) ∧ ef = None.
Proof.
  unfold process_error. rewrite scale_shape.
  destruct (shapes_fit _ _); cbv [mret Res_ret]; [|done].
  by intros [= <- <-].
Qed.

Lemma process_error_propagated h e v ig re err ef :
  process_error h None v (Some e) ig re = Ok (err, ef) →
  ∃ propagated formula,
    get_error h e = Done (propagated, formula) ∧
    err = Some (if ig then scale (factor re) propagated else propagated) ∧
    ef = Some formula.
Proof.
  unfold process_error.
  destruct (get_error h e) as [[p f]|]; simpl; cbv [mret Res_ret]; [|done].
  intros [= <- <-]. by exists p, f.
Qed.

Lemma process_error_absent h v ig re err ef :
  process_error h None v None ig re = Ok (err, ef) → err = None ∧ ef = None.
Proof. unfold process_error. cbv [mret Res_ret]. by intros [= <- <-]. Qed.

(** The error of the quantity a successful [assign] builds: an explicit
    error is stored with the value's shape, its data being the given numbers, each
    multiplied by the error factor, repeated once per index of the leading
    axes, and there is no error formula; without an explicit error a value
    that came from a formula takes the error and the error formula that
    propagation gives, every number of the error multiplied by the error
    factor under [ignore_dim] and left as it is otherwise; else error and
    error formula are absent.  The error factor is the combined unit's when
    one is given, else the error unit's, else 1: a value unit alone rescales
    the value and not the error. *)
Theorem assign_error_source val err_arg unit n ln vu eu ig w q w' :
  assign val err_arg unit n ln vu eu ig w = (Ok q, w') →
  ∃ o rv re v,
    heap w' !! q = Some o ∧ resolve_units unit vu eu = Ok (rv, re) ∧
    value o = Some v ∧
    (∀ given, err_arg = Some given →
       error_formula o = None ∧
       (wf_array given →
        ∃ lead, shape v = lead ++ shape given ∧
          error o = Some
            {| shape := shape v;
               data := concat (replicate (size_of lead)
                                 (map (fmul (factor re)) (data given))) |})) ∧
    (∀ e, err_arg = None → val = VExpr e → is_number e = false →
       ∃ propagated formula,
         get_error (heap w) e = Done (propagated, formula) ∧
         error o = Some
           (if ig
            then {| shape := shape propagated;
                    data := map (fmul (factor re)) (data propagated) |}
            else propagated) ∧
         error_formula o = Some (FExpr formula)) ∧
    (err_arg = None → (∀ e, val = VExpr e → is_number e = true) →
       error o = None ∧ error_formula o = None) ∧
    (∀ u, unit = Some u ∨ (unit = None ∧ eu = Some u) →
       ∃ d c, parse_unit u = Done (factor re, d, c)) ∧
    (unit = None → eu = None → factor re = fone).
Proof.
  intros Hrun. apply assign_ok_inv in Hrun
    as (rv & re & v & vf & vd & err & ef & Hres & Hval & Herr & -> & ->).
  exists (assigned (fresh (dom (heap w))) n ln v vf err ef rv re vd), rv, re, v.
  split; [apply assign_new_lookup|]. split; [done|]. split; [done|].
  pose proof (resolve_units_inv _ _ _ _ _ Hres) as Hinv.
  apply process_value_inv in Hval. simpl.
  split_and!.
  - intros given ->. apply process_error_given in Herr as (Hfit & -> & ->).
    split; [done|]. intros Hwf.
    destruct (resized_error (factor re) given (shape v) Hwf Hfit) as (lead & Hv & ->).
    by exists lead.
  - intros e -> -> Hnum. rewrite Hnum in Hval.
    destruct Hval as (computed & _ & -> & _).
    apply process_error_propagated in Herr as (p & f & Hp & -> & ->).
    exists p, f. split; [done|]. split; [|done]. by destruct ig.
  - intros -> Hl.
    assert (vf = None) as ->.
    { destruct val as [e|a].
      - rewrite (Hl e eq_refl) in Hval. by destruct Hval as (c & _ & _ & -> & _).
      - by destruct Hval as (_ & -> & _). }
    by apply process_error_absent in Herr as [-> ->].
  - intros u [->|[-> ->]].
    + destruct Hinv as [Hp ->]. apply parsed_inv in Hp as (c & ? & _). eauto.
    + destruct Hinv as [_ Hp]. apply parsed_inv in Hp as (c & ? & _). eauto.
  - intros -> ->. by destruct Hinv as [_ ->].
Qed.

(** C9: with only an error unit and a literal value, [assign] never raises a
    dimension mismatch; the quantity it builds is dimensionless whatever the
    error unit's dimension, its preferred unit is the canonical error unit, a
    numeric value is stored as it was given (times 1) and an explicit error
    is stored with the value's shape, its numbers multiplied by the error
    unit's factor and repeated once per index of the leading axes; for a
    numeric value of whose shape the error's is a trailing part (or without
    an error) the call succeeds. *)
Theorem assign_error_unit_only val err_arg n ln u ig w f d c :
  parse_unit u = Done (f, d, c) →
  (∀ e, val = VExpr e → is_number e = true) →
  let run := assign val err_arg None n ln None (Some u) ig w in
  ¬ is_dimension_mismatch run.1 ∧
  (∀ q w', run = (Ok q, w') →
     ∃ o v, heap w' !! q = Some o ∧ value o = Some v ∧
       dim o = Some dimensionless ∧ prefer_unit o = Some c ∧
       (∀ a, val = VNum a →
          v = {| shape := shape a; data := map (fmul fone) (data a) |}) ∧
       ∀ given, err_arg = Some given → wf_array given →
         ∃ lead, shape v = lead ++ shape given ∧
           error o = Some
             {| shape := shape v;
                data := concat (replicate (size_of lead)
                                  (map (fmul f) (data given))) |}) ∧
  (∀ a, val = VNum a →
     (∀ given, err_arg = Some given → shape given `suffix_of` shape a) →
     ∃ q w', run = (Ok q, w')).
Proof.
  intros Hu Hlit run.
  assert (Hres : resolve_units None None (Some u) =
                 Ok (no_unit, {| factor := f; rdim := d; runit := Some c |})).
  { unfold resolve_units, parsed. by rewrite Hu. }
  assert (Hvf : ∀ v vf vd, process_value (heap w) val ig no_unit = Ok (v, vf, vd) →
                vf = None ∧ vd = dimensionless).
  { intros v vf vd Hval. apply process_value_inv in Hval. destruct val as [e|a].
    - rewrite (Hlit e eq_refl) in Hval. by destruct Hval as (? & _ & _ & -> & ->).
    - by destruct Hval as (_ & -> & ->). }
  split_and!.
  - subst run. rewrite assign_run, Hres.
    destruct (process_value (heap w) val ig no_unit) as [[[v vf] vd]|x] eqn:H2.
    + destruct (process_error _ err_arg v vf ig _) as [[err ef]|x] eqn:H3;
        simpl; [tauto|].
      destruct x as [m|]; [|tauto].
      apply process_error_core_error in H3 as (? & ? & ->). tauto.
    + simpl. destruct x as [m|]; [|tauto].
      apply process_value_core_error in H2 as Hm. destruct Hm as (d1 & d2 & ->).
      revert H2. unfold process_value. destruct val as [e|a].
      * rewrite (Hlit e eq_refl). stage_cases; intros; by simplify_eq/=.
      * done.
  - intros q w' Hrun. apply assign_ok_inv in Hrun
      as (rv & re & v & vf & vd & err & ef & Hres' & Hval & Herr & -> & ->).
    rewrite Hres in Hres'. injection Hres' as <- <-.
    pose proof (Hvf _ _ _ Hval) as [-> ->].
    apply process_value_inv in Hval.
    eexists _, v. split; [apply assign_new_lookup|]. simpl.
    split_and!; [done..| |].
    + intros a ->. by destruct Hval as (-> & _).
    + intros given -> Hwf. apply process_error_given in Herr as (Hfit & -> & _).
      destruct (resized_error f given (shape v) Hwf Hfit) as (lead & Hv & Hr).
      exists lead. split; [done|]. simpl. by rewrite Hr.
  - intros a -> Hfit. subst run. rewrite assign_run, Hres. simpl.
    destruct err_arg as [given|]; simpl.
    + rewrite (proj2 (shapes_fit_suffix _ _) (Hfit given eq_refl)). eauto.
    + eauto.
Qed.

End Properties.

(** * The preferred unit is display data *)

Section Units.
Context {D : Domain} (E1 E2 : Engine).

Lemma parsed_agree u :
  same_up_to_units E1 E2 →
  res_agree same_resolved (parsed (E := E1) u) (parsed (E := E2) u).
Proof.
  intros (Hp & _). specialize (Hp u). unfold parsed.
  destruct (@parse_unit _ E1 u) as [[[f1 d1] c1]|c1 s1],
           (@parse_unit _ E2 u) as [[[f2 d2] c2]|c2 s2]; simplify_eq/=; try done.
Qed.

Lemma resolve_units_agree unit vu eu :
  same_up_to_units E1 E2 →
  res_agree (λ p1 p2, same_resolved p1.1 p2.1 ∧ same_resolved p1.2 p2.2 ∧
                      (runit p1.2 = None ↔ runit p2.2 = None))
    (resolve_units (E := E1) unit vu eu) (resolve_units (E := E2) unit vu eu).
Proof.
  intros Hs. unfold resolve_units.
  destruct unit as [u|].
  - pose proof (parsed_agree u Hs) as Hu.
    destruct (parsed (E := E1) u) as [r1|], (parsed (E := E2) u) as [r2|];
      simpl in *; try done. split_and!; try done. apply Hu.
  - destruct vu as [u|], eu as [u'|]; simpl.
    + pose proof (parsed_agree u Hs) as Hu. pose proof (parsed_agree u' Hs) as Hu'.
      destruct (parsed (E := E1) u) as [r1|], (parsed (E := E2) u) as [r2|];
        simpl in *; try done.
      destruct (parsed (E := E1) u') as [r1'|], (parsed (E := E2) u') as [r2'|];
        simpl in *; try done.
      destruct Hu as (Hf & Hd & Hn), Hu' as (Hf' & Hd' & Hn').
      rewrite Hd, Hd'.
      assert (bool_decide (is_Some (runit r1)) = bool_decide (is_Some (runit r2))) as ->.
      { apply bool_decide_ext. rewrite <- !not_eq_None_Some. tauto. }
      destruct (_ && _); simpl; [done|]. by split_and!.
    + pose proof (parsed_agree u Hs) as Hu.
      destruct (parsed (E := E1) u) as [r1|], (parsed (E := E2) u) as [r2|];
        simpl in *; try done.
    + pose proof (parsed_agree u' Hs) as Hu'.
      destruct (parsed (E := E1) u') as [r1'|], (parsed (E := E2) u') as [r2'|];
        simpl in *; try done. split_and!; try done. apply Hu'.
    + done.
Qed.

Lemma process_value_agree h val ig r1 r2 :
  same_up_to_units E1 E2 → same_resolved r1 r2 →
  process_value (E := E1) h val ig r1 = process_value (E := E2) h val ig r2.
Proof.
  intros (_ & Hf & Hv & Hd & _) (Hfac & Hdim & Hn). unfold process_value.
  rewrite Hf, Hv, Hd, Hfac, Hdim.
  destruct (runit r1), (runit r2); try done.
  - destruct Hn as [_ Hn]. by specialize (Hn eq_refl).
  - destruct Hn as [Hn _]. by specialize (Hn eq_refl).
Qed.

Lemma process_error_agree h err_arg v vf ig r1 r2 :
  same_up_to_units E1 E2 → factor r1 = factor r2 →
  process_error (E := E1) h err_arg v vf ig r1 =
  process_error (E := E2) h err_arg v vf ig r2.
Proof.
  intros (_ & _ & _ & _ & He & _) Hfac. unfold process_error.
  by rewrite He, Hfac.
Qed.


(** The preferred unit of the quantity [assign] builds is the canonical
    form of the combined unit or value unit when one is given, else of the
    error unit when one is given, else absent.  It is display data only: an
    engine that spells canonical units differently gives the same outcome and
    the same quantities up to their preferred unit.  What is stored are the
    numbers given or computed, each multiplied by the factor of its own unit:
    a numeric value and the value of a formula under [ignore_dim] by the
    value factor (the values of a formula are left as computed otherwise),
    an explicit error and the error propagated under [ignore_dim] by the
    error factor.  The value factor is the combined unit's or the value
    unit's, the error factor the combined unit's or the error unit's, and 1
    without one: a value unit alone converts the value and leaves the
    error. *)
Theorem prefer_unit_is_metadata val err_arg unit n ln vu eu ig w :
  let run1 := assign (E := E1) val err_arg unit n ln vu eu ig w in
  let run2 := assign (E := E2) val err_arg unit n ln vu eu ig w in
  (∀ q w', run1 = (Ok q, w') →
     ∃ o, heap w' !! q = Some o ∧
       (∀ u, unit = Some u ∨ (unit = None ∧ vu = Some u) ∨
             (unit = None ∧ vu = None ∧ eu = Some u) →
          ∃ f d c, @parse_unit _ E1 u = Done (f, d, c) ∧ prefer_unit o = Some c) ∧
       (unit = None → vu = None → eu = None → prefer_unit o = None)) ∧
  (same_up_to_units E1 E2 →
     run1.1 = run2.1 ∧
     ∀ l, without_unit <$> heap run1.2 !! l = without_unit <$> heap run2.2 !! l) ∧
  (∀ q w', run1 = (Ok q, w') →
     ∃ o rv re v,
       resolve_units (E := E1) unit vu eu = Ok (rv, re) ∧
       heap w' !! q = Some o ∧ value o = Some v ∧
       (∀ a, val = VNum a →
          v = {| shape := shape a; data := map (fmul (factor rv)) (data a) |}) ∧
       (∀ e, val = VExpr e → is_number e = true →
          ∃ c, @expr_float _ E1 e = Done c ∧
               v = {| shape := []; data := [fmul (factor rv) c] |}) ∧
       (∀ e, val = VExpr e → is_number e = false →
          ∃ computed,
            @get_value _ E1 (heap w) e = Done computed ∧
            v = if ig
                then {| shape := shape computed;
                        data := map (fmul (factor rv)) (data computed) |}
                else computed) ∧
       (∀ given, err_arg = Some given → wf_array given →
          ∃ lead, shape v = lead ++ shape given ∧
            error o = Some
              {| shape := shape v;
                 data := concat (replicate (size_of lead)
                                   (map (fmul (factor re)) (data given))) |}) ∧
       (∀ e, err_arg = None → val = VExpr e → is_number e = false →
          ∃ propagated formula,
            @get_error _ E1 (heap w) e = Done (propagated, formula) ∧
            error o = Some
              (if ig
               then {| shape := shape propagated;
                       data := map (fmul (factor re)) (data propagated) |}
               else propagated)) ∧
       (∀ u, unit = Some u ∨ (unit = None ∧ vu = Some u) →
          ∃ d c, @parse_unit _ E1 u = Done (factor rv, d, c)) ∧
       (unit = None → vu = None → factor rv = fone) ∧
       (∀ u, unit = Some u ∨ (unit = None ∧ eu = Some u) →
          ∃ d c, @parse_unit _ E1 u = Done (factor re, d, c)) ∧
       (unit = None → eu = None → factor re = fone)).
Proof.
  intros run1 run2. split_and!.
  - intros q w' Hrun. apply assign_ok_inv in Hrun
      as (rv & re & v & vf & vd & err & ef & Hres & _ & _ & -> & ->).
    eexists. split; [apply assign_new_lookup|]. simpl.
    apply resolve_units_inv in Hres. split.
    + intros u [->|[[-> ->]|(-> & -> & ->)]].
      * destruct Hres as [Hp _]. apply parsed_inv in Hp as (c & Hp & ->). eauto.
      * destruct Hres as [Hp _]. apply parsed_inv in Hp as (c & Hp & ->). eauto.
      * destruct Hres as [-> Hp]. apply parsed_inv in Hp as (c & Hp & ->).
        simpl. eauto.
    + intros -> -> ->. by destruct Hres as [-> ->].
  - intros Hs. subst run1 run2. rewrite !assign_run.
    pose proof (resolve_units_agree unit vu eu Hs) as Hr.
    destruct (resolve_units (E := E1) unit vu eu) as [[rv1 re1]|x1],
             (resolve_units (E := E2) unit vu eu) as [[rv2 re2]|x2];
      simpl in Hr; try done; [|by subst].
    destruct Hr as (Hrv & Hre & _).
    rewrite (process_value_agree (heap w) val ig rv1 rv2 Hs Hrv).
    destruct (process_value (E := E2) (heap w) val ig rv2) as [[[v vf] vd]|x]; [|done].
    rewrite (process_error_agree (heap w) err_arg v vf ig re1 re2 Hs (proj1 Hre)).
    destruct (process_error (E := E2) (heap w) err_arg v vf ig re2) as [[err ef]|x];
      [|done].
    simpl. split; [done|]. intros l.
    destruct (decide (l = fresh (dom (heap w)))) as [->|Hne].
    + rewrite !lookup_insert_eq. simpl. f_equal.
      unfold without_unit, set_prefer_unit, assigned. simpl.
      destruct Hs as (_ & _ & _ & _ & _ & ->). done.
    + by rewrite !lookup_insert_ne.
  - intros q w' Hrun. apply assign_ok_inv in Hrun
      as (rv & re & v & vf & vd & err & ef & Hres & Hval & Herr & -> & ->).
    eexists _, rv, re, v. split; [done|]. split; [apply assign_new_lookup|].
    pose proof (resolve_units_inv _ _ _ _ _ Hres) as Hinv.
    apply process_value_inv in Hval. simpl. split; [done|].
    split_and!.
    + intros a ->. by destruct Hval as (-> & _).
    + intros e -> Hnum. rewrite Hnum in Hval.
      destruct Hval as (c & Hc & -> & _). by exists c.
    + intros e -> Hnum. rewrite Hnum in Hval.
      destruct Hval as (computed & Hc & _ & ->). exists computed.
      split; [done|]. by destruct ig.
    + intros given -> Hwf. apply process_error_given in Herr as (Hfit & -> & _).
      destruct (resized_error (factor re) given (shape v) Hwf Hfit)
        as (lead & Hv & Hr).
      exists lead. split; [done|]. by rewrite Hr.
    + intros e -> -> Hnum. rewrite Hnum in Hval.
      destruct Hval as (computed & _ & -> & _).
      apply process_error_propagated in Herr as (p & f & Hp & -> & _).
      exists p, f. split; [done|]. by destruct ig.
    + intros u [->|[-> ->]].
      * destruct Hinv as [Hp _]. apply parsed_inv in Hp as (c & ? & _). eauto.
      * destruct Hinv as [Hp _]. apply parsed_inv in Hp as (c & ? & _). eauto.
    + intros -> ->. by destruct Hinv as [-> _].
    + intros u [->|[-> ->]].
      * destruct Hinv as [Hp ->]. apply parsed_inv in Hp as (c & ? & _). eauto.
      * destruct Hinv as [_ Hp]. apply parsed_inv in Hp as (c & ? & _). eauto.
    + intros -> ->. by destruct Hinv as [_ ->].
Qed.

End Units.

(** * The dependency search and its default list *)

Section Dependencies.
Context {D : Domain}.

Lemma unpack_loop_mono rec1 rec2 h find qs unpacked ig x :
  (∀ f ig' y, rec1 f ig' = Some y → rec2 f ig' = Some y) →
  unpack_loop rec1 h find qs unpacked ig = Some x →
  unpack_loop rec2 h find qs unpacked ig = Some x.
Proof.
  intros Hrec. revert unpacked ig.
  induction qs as [|[q|s] qs IH]; intros unpacked ig; simpl; [done| |done].
  case_bool_decide; [apply IH|].
  destruct (value_formula <$> h !! q) as [[[f|s]|]|]; try done; try apply IH.
  destruct (rec1 f (ig ++ [q])) as [[[content|e] ig']|] eqn:H1; [| |done].
  - rewrite (Hrec _ _ _ H1). apply IH.
  - by rewrite (Hrec _ _ _ H1).
Qed.

(** More fuel does not change a result. *)
Lemma find_all_dependencies_mono fuel fuel' h expr find ig x :
  fuel ≤ fuel' →
  find_all_dependencies fuel h expr find ig = Some x →
  find_all_dependencies fuel' h expr find ig = Some x.
Proof.
  revert fuel' expr ig x. induction fuel as [|fuel IH]; intros fuel' expr ig x Hle; [done|].
  destruct fuel' as [|fuel']; [lia|]. simpl.
  apply unpack_loop_mono. intros f ig' y. apply IH. lia.
Qed.

Lemma unpack_loop_total rec h find qs unpacked ig k :
  (∀ f ig', (∃ a, ig' = ig ++ a) →
     size (dom h ∖ list_to_set ig') < k →
     ∃ r ig'', rec f ig' = Some (r, ig'') ∧ ∃ a, ig'' = ig' ++ a) →
  size (dom h ∖ list_to_set ig) ≤ k →
  ∃ r ig'', unpack_loop rec h find qs unpacked ig = Some (r, ig'') ∧
            ∃ a, ig'' = ig ++ a.
Proof.
  revert unpacked ig.
  induction qs as [|[q|s] qs IH]; intros unpacked ig Hrec Hk; simpl.
  - eexists _, _. split; [done|]. exists []. by rewrite app_nil_r.
  - case_bool_decide as Hq; [by apply IH|].
    destruct (h !! q) as [o|] eqn:Ho; simpl.
    2:{ eexists _, _. split; [done|]. exists []. by rewrite app_nil_r. }
    destruct (value_formula o) as [[f|s]|]; try by apply IH.
    destruct (Hrec f (ig ++ [q])) as (r & ig' & Hr & a & ->); [by eexists| |].
    { apply Nat.lt_le_trans with (size (dom h ∖ list_to_set (C := gset loc) ig)); [|done].
      apply subset_size. apply strict_spec_alt. split.
      - rewrite list_to_set_app_L. set_solver.
      - intros Heq. assert (q ∈ dom h ∖ list_to_set (C := gset loc) ig) as Hin.
        { apply elem_of_difference. split; [by apply elem_of_dom|].
          by rewrite elem_of_list_to_set. }
        rewrite <- Heq in Hin. rewrite list_to_set_app_L in Hin. set_solver. }
    rewrite Hr. destruct r as [content|e].
    + edestruct (IH (if bool_decide (Q find ∈ free_symbols content)
                     then subs unpacked (Sym (Q q)) content else unpacked)
                    ((ig ++ [q]) ++ a)) as (r & ig'' & Hl & a' & ->).
      * intros f' ig3 [a3 ->] Hs. apply Hrec; [|done].
        exists ([q] ++ a ++ a3). by rewrite !app_assoc.
      * etrans; [|exact Hk]. apply subseteq_size.
        rewrite !list_to_set_app_L. set_solver.
      * eexists _, _. split; [done|]. exists ([q] ++ a ++ a').
        by rewrite !app_assoc.
    + eexists _, _. split; [done|]. exists ([q] ++ a). by rewrite !app_assoc.
  - eexists _, _. split; [done|]. exists []. by rewrite app_nil_r.
Qed.

(** With fuel beyond the number of quantities not yet ignored the search
    returns, and the list it worked on has only grown at its end. *)
Lemma find_all_dependencies_total fuel h expr find ig :
  size (dom h ∖ list_to_set ig) < fuel →
  ∃ r ig', find_all_dependencies fuel h expr find ig = Some (r, ig') ∧
           ∃ a, ig' = ig ++ a.
Proof.
  revert expr ig. induction fuel as [|fuel IH]; intros expr ig Hk; [lia|].
  simpl. apply unpack_loop_total with (k := fuel); [|lia].
  intros f ig' _ Hs. by apply IH.
Qed.

Lemma find_all_dependencies_extends fuel h expr find ig r ig' :
  find_all_dependencies fuel h expr find ig = Some (r, ig') → ∃ a, ig' = ig ++ a.
Proof.
  intros Hrun.
  destruct (find_all_dependencies_total
              (S (fuel + size (dom h ∖ list_to_set (C := gset loc) ig)))
              h expr find ig) as (r' & ig'' & Hrun' & Ha); [lia|].
  apply find_all_dependencies_mono
    with (fuel' := S (fuel + size (dom h ∖ list_to_set (C := gset loc) ig))) in Hrun; [|lia].
  rewrite Hrun in Hrun'. by simplify_eq.
Qed.

(** C10: a call of [_find_all_dependencies] that leaves [ignore] out returns
    (given fuel beyond the number of quantities), changes no quantity, and
    leaves what it appended in the shared default list; so the same call made
    twice can differ: for [y] computed from [x], the first call unpacks [y]
    to an expression in [x] and [plot] takes the pair as a function, the
    second call finds [y] ignored, returns it as it is, and [plot] takes the
    same pair as a data set. *)
Theorem find_all_dependencies_default_shared :
  (∀ expr find w, ∃ r w',
     find_all_dependencies_default (S (size (dom (heap w)))) expr find w = Some (r, w')) ∧
  (∀ fuel expr find w r w',
     find_all_dependencies_default fuel expr find w = Some (r, w') →
     heap w' = heap w ∧ ∃ appended, ignore_default w' = ignore_default w ++ appended) ∧
  (∃ fuel w w1 w2 x y r1 r2,
     find_all_dependencies_default fuel (Sym (Q y)) x w = Some (Ok r1, w1) ∧
     find_all_dependencies_default fuel (Sym (Q y)) x w1 = Some (Ok r2, w2) ∧
     heap w1 = heap w ∧ ignore_default w = [] ∧ ignore_default w1 = [y] ∧
     r1 ≠ r2 ∧ has r1 x = true ∧ has r2 x = false ∧
     plot_kind fuel (Sym (Q x)) (Sym (Q y)) w = Some (Ok (PlotFunction r1), w1) ∧
     plot_kind fuel (Sym (Q x)) (Sym (Q y)) w1 = Some (Ok PlotDataSet, w2)).
Proof.
  split_and!.
  - intros expr find w. unfold find_all_dependencies_default.
    destruct (find_all_dependencies_total (S (size (dom (heap w)))) (heap w) expr find
                (ignore_default w)) as (r & ig' & -> & _); [|by eexists _, _].
    apply Nat.lt_succ_r, subseteq_size. set_solver.
  - intros fuel expr find w r w'. unfold find_all_dependencies_default.
    destruct (find_all_dependencies _ _ _ _ _) as [[r' ig']|] eqn:Hrun; [|done].
    intros [= <- <-]. split; [done|]. simpl.
    by apply find_all_dependencies_extends in Hrun.
  - exists 3, two_quantities, (set_ignore_default [1] two_quantities),
      (set_ignore_default [1] two_quantities), 0, 1, (Sym (Q 0)), (Sym (Q 1)).
    split_and!; try done; vm_compute; try done.
Qed.

End Dependencies.

(** * What the operations keep *)

Section Stability.
Context {D : Domain} {E : Engine}.

(** ** The monad *)

Lemma bind_run {A B} (m : M A) (k : A → M B) w a w' :
  m w = (Ok a, w') → (m ≫= k) w = k a w'.
Proof. unfold mbind, M_bind. by intros ->. Qed.

Lemma bind_run_raise {A B} (m : M A) (k : A → M B) w e w' :
  m w = (Raise e, w') → (m ≫= k) w = (Raise e, w').
Proof. unfold mbind, M_bind. by intros ->. Qed.

Lemma bind_ok_inv {A B} (m : M A) (k : A → M B) w b w' :
  (m ≫= k) w = (Ok b, w') → ∃ a w1, m w = (Ok a, w1) ∧ k a w1 = (Ok b, w').
Proof.
  unfold mbind, M_bind. destruct (m w) as [[a|e] w1]; [|done]. eauto.
Qed.

#[export] Instance keeps_formulas_preorder : PreOrder keeps_formulas.
Proof. split; unfold keeps_formulas; [by intros ?|intros ???; tauto]. Qed.

#[export] Instance same_meta_preorder : PreOrder same_meta.
Proof.
  split; [by intros ??|]. intros w1 w2 w3 H1 H2 l. by rewrite H1, H2.
Qed.

#[export] Instance same_trace_preorder : PreOrder same_trace.
Proof. split; unfold same_trace; [done|]. intros ???; congruence. Qed.

#[export] Instance same_solver_calls_preorder : PreOrder same_solver_calls.
Proof. split; unfold same_solver_calls; [done|]. intros ???; congruence. Qed.

Lemma same_trace_solver_calls w w' : same_trace w w' → same_solver_calls w w'.
Proof. unfold same_trace, same_solver_calls. by intros ->. Qed.

Section Combinators.
Context (R : World → World → Prop) `{!PreOrder R}.

Lemma stable_ret {A} (a : A) : stable R (mret a).
Proof. intros w. simpl. reflexivity. Qed.

Lemma stable_raise {A} e : stable R (raise (A := A) e).
Proof. intros w. simpl. reflexivity. Qed.

Lemma stable_lift {A} (r : Res A) : stable R (lift r).
Proof. intros w. simpl. reflexivity. Qed.

Lemma stable_with_heap {A} (f : gmap loc Quantity → Res A) : stable R (with_heap f).
Proof. intros w. simpl. reflexivity. Qed.

Lemma stable_getattr {A} q (f : Quantity → A) : stable R (getattr q f).
Proof. intros w. unfold getattr. destruct (heap w !! q); simpl; reflexivity. Qed.

Lemma stable_bind {A B} (m : M A) (k : A → M B) :
  stable R m → (∀ a, stable R (k a)) → stable R (m ≫= k).
Proof.
  intros Hm Hk w. unfold mbind, M_bind. specialize (Hm w).
  destruct (m w) as [[a|e] w']; simpl in *; [|done].
  etrans; [exact Hm|apply Hk].
Qed.

Lemma stable_setattr q f :
  (∀ w o, heap w !! q = Some o → R w (set_heap (<[q := f o]> (heap w)) w)) →
  stable R (setattr q f).
Proof.
  intros Hf w. unfold setattr. destruct (heap w !! q) eqn:Hq; simpl; [|reflexivity].
  by apply Hf.
Qed.

End Combinators.

(** ** What the attribute writes keep *)

Lemma setattr_keeps_formulas q f :
  (∀ o, formula_ok (value_formula o) ∧ formula_ok (error_formula o) →
        formula_ok (value_formula (f o)) ∧ formula_ok (error_formula (f o))) →
  stable keeps_formulas (setattr q f).
Proof.
  intros Hf. apply stable_setattr; [apply _|].
  intros w o Hq Hok l o'. simpl.
  destruct (decide (l = q)) as [->|Hne].
  - rewrite lookup_insert_eq. intros [= <-]. apply Hf. by eapply Hok.
  - rewrite lookup_insert_ne by done. apply Hok.
Qed.

Lemma setattr_same_meta q f :
  (∀ o, meta (f o) = meta o) → stable same_meta (setattr q f).
Proof.
  intros Hf. apply stable_setattr; [apply _|].
  intros w o Hq l. simpl. destruct (decide (l = q)) as [->|Hne].
  - rewrite lookup_insert_eq, Hq. simpl. by rewrite Hf.
  - by rewrite lookup_insert_ne.
Qed.

Lemma setattr_same_trace q f : stable same_trace (setattr q f).
Proof. by apply stable_setattr; [apply _|]. Qed.

Lemma assign_keeps_formulas val err_arg unit n ln vu eu ig :
  stable keeps_formulas (assign val err_arg unit n ln vu eu ig).
Proof.
  intros w Hok. destruct (assign val err_arg unit n ln vu eu ig w) as [[q|e] w'] eqn:Hrun.
  - apply assign_ok_inv in Hrun
      as (rv & re & v & vf & vd & err & ef & _ & _ & _ & -> & ->).
    intros l o. simpl. destruct (decide (l = fresh (dom (heap w)))) as [->|Hne].
    + rewrite lookup_insert_eq. intros [= <-]. simpl.
      split; intros s; [by destruct vf|by destruct ef].
    + rewrite lookup_insert_ne by done. apply Hok.
  - by apply assign_raise_inv in Hrun as ->.
Qed.

Lemma assign_same_trace val err_arg unit n ln vu eu ig :
  stable same_trace (assign val err_arg unit n ln vu eu ig).
Proof. intros w. apply (assign_keeps_world val err_arg unit n ln vu eu ig w). Qed.

Lemma new_quantity_keeps_formulas n ln : stable keeps_formulas (new_quantity n ln).
Proof.
  intros w Hok l o. simpl. destruct (decide (l = fresh (dom (heap w)))) as [->|Hne].
  - rewrite lookup_insert_eq. intros [= <-]. by split.
  - rewrite lookup_insert_ne by done. apply Hok.
Qed.

Lemma next_keeps_formulas g : stable keeps_formulas (next g).
Proof.
  unfold next. destruct (pending g) as [|n rest].
  - apply stable_ret; apply _.
  - apply stable_bind; [apply _|apply new_quantity_keeps_formulas|]. intros l.
    apply stable_ret; apply _.
Qed.

Lemma take_items_keeps_formulas k g : stable keeps_formulas (take_items k g).
Proof.
  revert g. induction k as [|k IH]; intros g; simpl.
  - apply stable_ret; apply _.
  - apply stable_bind; [apply _|apply next_keeps_formulas|]. intros [[l|] g'].
    + apply stable_bind; [apply _|apply IH|]. intros [ls g''].
      apply stable_ret; apply _.
    + apply stable_ret; apply _.
Qed.

Section FitStable.
Context (R : World → World → Prop) `{!PreOrder R}.

Lemma fit_xaxes_stable writable xdata xvar func :
  (∀ val, stable R (assign val None None None None None None false)) →
  stable R (fit_xaxes writable xdata xvar func).
Proof.
  intros Hassign.
  revert xvar func. induction xdata as [|x xdata IH]; intros xvar func; simpl.
  - by apply stable_ret.
  - apply stable_bind; [done| |].
    + destruct (as_quantity x); [by apply stable_ret|].
      apply stable_bind; [done|apply Hassign|]. intros q.
      destruct writable; [by apply stable_ret|by apply stable_raise].
    + intros x'. destruct xvar as [[|v xvar]|].
      * by apply stable_raise.
      * apply stable_bind; [done|apply IH|]. intros [xs f]. by apply stable_ret.
      * apply stable_bind; [done|apply IH|]. intros [xs f]. by apply stable_ret.
Qed.

Lemma fit_prepare_stable func xdata ydata xvar :
  (∀ val, stable R (assign val None None None None None None false)) →
  stable R (fit_prepare func xdata ydata xvar).
Proof.
  intros Hassign. unfold fit_prepare. apply stable_bind; [done| |].
  - destruct xvar; [|by apply stable_ret].
    case_bool_decide; [by apply stable_ret|by apply stable_raise].
  - intros xv. apply stable_bind; [done|by apply fit_xaxes_stable|]. intros [xs f].
    apply stable_bind; [done| |].
    + destruct (as_quantity ydata); [by apply stable_ret|apply Hassign].
    + intros y. by apply stable_ret.
Qed.

Lemma collect_known_stable ps syms known : stable R (collect_known ps syms known).
Proof.
  revert known. induction syms as [|[q|s] syms IH]; intros known; simpl.
  - by apply stable_ret.
  - case_bool_decide; [apply IH|].
    apply stable_bind; [done|by apply stable_getattr|]. intros d.
    apply stable_bind; [done|by apply stable_getattr|]. intros n. apply IH.
  - by apply stable_raise.
Qed.

Lemma save_dims_stable solved syms :
  (∀ q d, stable R (setattr q (set_dim d))) →
  (∀ q u, stable R (setattr q (set_prefer_unit u))) →
  stable R (save_dims solved syms).
Proof.
  intros Hd Hu. induction syms as [|[q|s] syms IH]; simpl.
  - by apply stable_ret.
  - apply stable_bind; [done|by apply stable_getattr|]. intros d.
    apply stable_bind; [done|by apply stable_getattr|]. intros n.
    destruct (solved !! n); [|by apply stable_raise].
    apply stable_bind; [done| |by intros _].
    case_match; [|by apply stable_ret].
    apply stable_bind; [done|apply Hd|]. intros _. apply Hu.
  - by apply stable_raise.
Qed.

Lemma save_results_stable i ps values errors :
  (∀ q v, stable R (setattr q (set_value v))) →
  (∀ q, stable R (setattr q (set_value_formula (Some (FStr "fit"))))) →
  (∀ q v, stable R (setattr q (set_error v))) →
  (∀ q, stable R (setattr q (set_error_formula (Some (FStr "fit"))))) →
  stable R (save_results i ps values errors).
Proof.
  intros H1 H2 H3 H4.
  revert i. induction ps as [|p ps IH]; intros i; simpl.
  - by apply stable_ret.
  - destruct (values !! i); [|by apply stable_raise].
    apply stable_bind; [done|by apply H1|]. intros _.
    apply stable_bind; [done|by apply H2|]. intros _.
    destruct (errors !! i); [|by apply stable_raise].
    apply stable_bind; [done|by apply H3|]. intros _.
    apply stable_bind; [done|by apply H4|]. intros _. apply IH.
Qed.

End FitStable.

Lemma emit_keeps_formulas e : stable keeps_formulas (emit e).
Proof. intros w Hok l o. apply Hok. Qed.

Lemma emit_same_meta e : stable same_meta (emit e).
Proof. intros w l. reflexivity. Qed.

Lemma check_dimensions_stable (R : World → World → Prop) `{!PreOrder R} func y :
  stable R (check_dimensions func y).
Proof.
  unfold check_dimensions.
  apply stable_bind; [done|by apply stable_with_heap|]. intros fd.
  apply stable_bind; [done|by apply stable_getattr|]. intros yd.
  case_match; [by apply stable_raise|by apply stable_ret].
Qed.

Lemma solve_dimensions_stable (R : World → World → Prop) `{!PreOrder R}
    func y ydim known :
  (∀ q d, stable R (setattr q (set_dim d))) →
  (∀ q u, stable R (setattr q (set_prefer_unit u))) →
  stable R (solve_dimensions func y ydim known).
Proof.
  intros Hd Hu. unfold solve_dimensions.
  apply stable_bind; [done|by apply stable_with_heap|]. intros solved.
  apply stable_bind; [done|by apply save_dims_stable|]. intros _.
  by apply check_dimensions_stable.
Qed.

Lemma fit_dimensions_keeps_formulas func y ps :
  stable keeps_formulas (fit_dimensions func y ps).
Proof.
  unfold fit_dimensions.
  apply stable_bind; [apply _|apply stable_with_heap; apply _|]. intros fd.
  apply stable_bind; [apply _|apply stable_getattr; apply _|]. intros yd.
  case_match; [|apply stable_ret; apply _].
  apply stable_bind; [apply _|apply collect_known_stable; apply _|]. intros known.
  apply stable_bind; [apply _|apply stable_getattr; apply _|]. intros yd'.
  apply stable_bind; [apply _|apply emit_keeps_formulas|]. intros _.
  apply solve_dimensions_stable; [apply _|..]; intros; by apply setattr_keeps_formulas.
Qed.

Lemma save_results_keeps_formulas i ps values errors :
  stable keeps_formulas (save_results i ps values errors).
Proof.
  apply save_results_stable; [apply _|..]; intros; apply setattr_keeps_formulas;
    intros o [Hv He]; simpl; split; try done; by intros s [= <-].
Qed.

Lemma fit_finish_stable (R : World → World → Prop) `{!PreOrder R}
    func xs y ps opts :
  stable R (emit (EvFitting func)) →
  (∀ values errors, stable R (save_results 0 ps values errors)) →
  stable R (fit_finish func xs y ps opts).
Proof.
  intros Hemit Hsave. unfold fit_finish.
  apply stable_bind; [done|exact Hemit|]. intros _.
  apply stable_bind; [done|by apply stable_with_heap|]. intros [values errors].
  apply stable_bind; [done|apply Hsave|]. intros _.
  by apply stable_with_heap.
Qed.

Lemma fit_keeps_formulas func xdata ydata ps xvar opts ig :
  stable keeps_formulas (fit func xdata ydata ps xvar opts ig).
Proof.
  unfold fit.
  apply stable_bind; [apply _| |].
  { apply fit_prepare_stable; [apply _|]. intros. apply assign_keeps_formulas. }
  intros [[func' xs] y].
  apply stable_bind; [apply _| |].
  { destruct ig; [apply stable_ret; apply _|apply fit_dimensions_keeps_formulas]. }
  intros _. apply fit_finish_stable; [apply _|apply emit_keeps_formulas|].
  intros. apply save_results_keeps_formulas.
Qed.

Lemma plot_kind_heap fuel x y w r w' :
  plot_kind fuel x y w = Some (r, w') → heap w' = heap w.
Proof.
  unfold plot_kind, find_all_dependencies_default.
  destruct (as_quantity x); [|by intros [= _ <-]].
  destruct (find_all_dependencies _ _ _ _ _) as [[[u|e] ig]|]; by intros [= _ <-].
Qed.

Lemma step_keeps_formulas w w' : step w w' → formulas_ok w → formulas_ok w'.
Proof.
  intros [val err_arg unit n ln vu eu ig w0 r w0' Hrun
         |names k w0 r w0' Hrun
         |func xdata ydata ps xvar opts ig w0 r w0' Hrun
         |fuel x y w0 r w0' Hrun].
  - pose proof (assign_keeps_formulas val err_arg unit n ln vu eu ig w0) as H.
    by rewrite Hrun in H.
  - pose proof (take_items_keeps_formulas k (params names) w0) as H.
    by rewrite Hrun in H.
  - pose proof (fit_keeps_formulas func xdata ydata ps xvar opts ig w0) as H.
    by rewrite Hrun in H.
  - apply plot_kind_heap in Hrun. unfold formulas_ok. by rewrite Hrun.
Qed.

Lemma reachable_formulas_ok w : reachable w → formulas_ok w.
Proof.
  unfold reachable. intros Hr.
  apply (rtc_ind_r (R := step) (λ w, formulas_ok w) empty_world); [| |exact Hr].
  - intros l o. simpl. by rewrite lookup_empty.
  - intros w1 w2 _ Hstep Hok. by eapply step_keeps_formulas.
Qed.

Lemma setattr_ok_inv q f w w' :
  setattr q f w = (Ok (), w') →
  ∃ o, heap w !! q = Some o ∧ w' = set_heap (<[q := f o]> (heap w)) w.
Proof.
  unfold setattr. destruct (heap w !! q) as [o|]; [|done].
  intros [= <-]. eauto.
Qed.

Lemma save_results_fitted i ps values errors w w' :
  save_results i ps values errors w = (Ok (), w') →
  (∀ l o, heap w !! l = Some o → fitted o →
          ∃ o', heap w' !! l = Some o' ∧ fitted o') ∧
  (∀ p, p ∈ ps → ∃ o, heap w' !! p = Some o ∧ fitted o).
Proof.
  revert i w. induction ps as [|p ps IH]; intros i w; simpl.
  - intros [= <-]. split; [eauto|]. by intros p ?%elem_of_nil.
  - destruct (values !! i) as [v|]; [|done].
    intros ([] & w1 & (o1 & Ho1 & ->)%setattr_ok_inv & H)%bind_ok_inv.
    apply bind_ok_inv in H as ([] & w2 & (o2 & Ho2 & ->)%setattr_ok_inv & H).
    destruct (errors !! i) as [e|]; [|done].
    apply bind_ok_inv in H as ([] & w3 & (o3 & Ho3 & ->)%setattr_ok_inv & H).
    apply bind_ok_inv in H as ([] & w4 & (o4 & Ho4 & ->)%setattr_ok_inv & H).
    simpl in *. rewrite lookup_insert_eq in Ho2, Ho3, Ho4.
    simplify_eq. rewrite !insert_insert_eq in H.
    apply IH in H as [Hkeep Hps]. split.
    + intros l o Hl Hfit. destruct (decide (l = p)) as [->|Hne].
      * eapply (Hkeep p); [simpl; apply lookup_insert_eq|]. by split.
      * eapply (Hkeep l); [simpl; rewrite lookup_insert_ne by done; exact Hl|done].
    + intros p' [->|Hin]%elem_of_cons; [|by apply Hps].
      eapply (Hkeep p); [simpl; apply lookup_insert_eq|]. by split.
Qed.

(** C6, as the code has it: in every world a script reaches, each formula
    attribute of each quantity is absent, a symbolic expression, or the
    string ["fit"]; a successful [fit] leaves the string ["fit"] in the value
    formula as well as in the error formula of every parameter, and the
    quantity a successful [assign] builds has formulas that are absent or
    expressions. *)
Theorem formula_attributes w :
  reachable w →
  formulas_ok w ∧
  (∀ func xdata ydata ps xvar opts ig r w',
     fit func xdata ydata ps xvar opts ig w = (Ok r, w') →
     ∀ p, p ∈ ps →
       ∃ o, heap w' !! p = Some o ∧ value_formula o = Some (FStr "fit") ∧
            error_formula o = Some (FStr "fit")) ∧
  (∀ val err_arg unit n ln vu eu ig q w',
     assign val err_arg unit n ln vu eu ig w = (Ok q, w') →
     ∃ o, heap w' !! q = Some o ∧
       (value_formula o = None ∨ ∃ e, value_formula o = Some (FExpr e)) ∧
       (error_formula o = None ∨ ∃ e, error_formula o = Some (FExpr e))).
Proof.
  intros Hr. split_and!.
  - by apply reachable_formulas_ok.
  - intros func xdata ydata ps xvar opts ig r w' Hrun p Hp. unfold fit in Hrun.
    apply bind_ok_inv in Hrun as ([[func' xs] y] & w1 & _ & Hrun).
    apply bind_ok_inv in Hrun as (_ & w2 & _ & Hrun). unfold fit_finish in Hrun.
    apply bind_ok_inv in Hrun as (_ & w3 & _ & Hrun).
    apply bind_ok_inv in Hrun as ([values errors] & w4 & _ & Hrun).
    apply bind_ok_inv in Hrun as ([] & w5 & Hsave & Hrun).
    unfold with_heap in Hrun. injection Hrun as _ <-.
    apply save_results_fitted in Hsave as [_ Hps].
    destruct (Hps p Hp) as (o & Ho & Hv & He). eauto.
  - intros val err_arg unit n ln vu eu ig q w' Hrun. apply assign_ok_inv in Hrun
      as (rv & re & v & vf & vd & err & ef & _ & _ & _ & -> & ->).
    eexists. split; [apply assign_new_lookup|]. simpl.
    split; [destruct vf|destruct ef]; simpl; eauto.
Qed.

End Stability.

(** * The dimension solver in [fit] *)

Section FitDimensions.
Context {D : Domain} {E : Engine}.

Lemma getattr_run {A} q (f : Quantity → A) w o :
  heap w !! q = Some o → getattr q f w = (Ok (f o), w).
Proof. unfold getattr. by intros ->. Qed.

Lemma collect_known_run ps syms known w :
  (∀ s, s ∈ syms → ∃ q, s = Q q ∧ is_Some (heap w !! q)) →
  ∃ known', collect_known ps syms known w = (Ok known', w).
Proof.
  revert known. induction syms as [|s syms IH]; intros known Hq; simpl.
  - by eexists.
  - destruct (Hq s) as (q & -> & o & Ho); [by left|].
    assert (∀ s, s ∈ syms → ∃ q, s = Q q ∧ is_Some (heap w !! q)) as Hq'.
    { intros s Hs. apply Hq. by right. }
    case_bool_decide; [by apply IH|].
    rewrite (bind_run _ _ _ _ _ (getattr_run q dim w o Ho)).
    rewrite (bind_run _ _ _ _ _ (getattr_run q name w o Ho)).
    by apply IH.
Qed.

Lemma solver_calls_emit_solve func ydim known w :
  solver_calls (trace (log_event (EvDimSolve func ydim known) w)) =
  S (solver_calls (trace w)).
Proof.
  unfold solver_calls. simpl. rewrite filter_app, length_app. simpl. lia.
Qed.

Lemma emit_fitting_same_solver_calls func :
  stable same_solver_calls (emit (EvFitting func)).
Proof.
  intros w. unfold same_solver_calls, solver_calls. simpl.
  rewrite filter_app, length_app. simpl. lia.
Qed.

Lemma setattr_same_solver_calls q f : stable same_solver_calls (setattr q f).
Proof. intros w. apply same_trace_solver_calls, setattr_same_trace. Qed.

Lemma fitting_calls_same_trace w w' :
  same_trace w w' → fitting_calls (trace w') = fitting_calls (trace w).
Proof. unfold same_trace. by intros ->. Qed.

Lemma save_dims_run solved syms w :
  NoDup syms →
  (∀ s, s ∈ syms →
     ∃ q o, s = Q q ∧ heap w !! q = Some o ∧ is_Some (solved !! name o)) →
  ∃ w', save_dims solved syms w = (Ok (), w') ∧ same_trace w w' ∧
    (∀ q, Q q ∉ syms → heap w' !! q = heap w !! q) ∧
    (∀ q o, Q q ∈ syms → heap w !! q = Some o →
       ∃ o', heap w' !! q = Some o' ∧ name o' = name o ∧
             solved !! name o = Some (dim o') ∧
             prefer_unit o' =
               if bool_decide (dim o = dim o') then prefer_unit o else None).
Proof.
  revert w. induction syms as [|s syms IH]; intros w Hnd Hq; simpl.
  - eexists. split; [done|]. split; [done|]. split; [done|].
    by intros q o ?%elem_of_nil.
  - apply NoDup_cons in Hnd as [Hs Hnd].
    destruct (Hq s) as (q & o & -> & Ho & kd & Hkd); [by left|].
    rewrite (bind_run _ _ _ _ _ (getattr_run q dim w o Ho)).
    rewrite (bind_run _ _ _ _ _ (getattr_run q name w o Ho)).
    rewrite Hkd.
    destruct (decide (dim o = kd)) as [Heq|Hne].
    + rewrite bool_decide_true by done. simpl.
      unfold mbind at 1, M_bind at 1. simpl.
      destruct (IH w Hnd) as (w' & Hrun & Htr & Hout & Hin).
      { intros s Hs'. apply Hq. by right. }
      exists w'. split; [done|]. split; [done|]. split.
      * intros q' Hq'. apply Hout. intros ?. apply Hq'. by right.
      * intros q' o' [[= ->]|Hq']%elem_of_cons Ho'.
        -- rewrite Hout by done. rewrite Ho in Ho'. injection Ho' as <-.
           exists o. rewrite bool_decide_true by done. by rewrite Hkd, Heq.
        -- by apply Hin.
    + rewrite bool_decide_false by done. simpl.
      set (o1 := set_prefer_unit None (set_dim kd o)).
      set (w1 := set_heap (<[q := o1]> (heap w)) w).
      assert (((setattr q (set_dim kd);; setattr q (set_prefer_unit None)) w
               = (Ok (), w1))) as Hset.
      { unfold mbind, M_bind, setattr. rewrite Ho. simpl.
        rewrite lookup_insert_eq. simpl. unfold w1, set_heap. simpl.
        by rewrite insert_insert_eq. }
      rewrite (bind_run _ _ _ _ _ Hset).
      destruct (IH w1 Hnd) as (w' & Hrun & Htr & Hout & Hin).
      { intros s Hs'. destruct (Hq s) as (q' & o' & -> & Ho' & Hk'); [by right|].
        exists q', o'. split; [done|]. split; [|done].
        simpl. rewrite lookup_insert_ne; [done|]. intros ->. done. }
      exists w'. split; [done|]. split; [done|]. split.
      * intros q' Hq'. rewrite Hout by (intros ?; apply Hq'; by right).
        simpl. rewrite lookup_insert_ne; [done|]. intros ->. apply Hq'. by left.
      * intros q' o' [[= ->]|Hq']%elem_of_cons Ho'.
        -- rewrite Hout by done. rewrite Ho in Ho'. injection Ho' as <-.
           simpl. rewrite lookup_insert_eq. exists o1. simpl.
           rewrite bool_decide_false by done. by rewrite Hkd.
        -- apply Hin; [done|]. simpl. rewrite lookup_insert_ne; [done|].
           intros ->. done.
Qed.


Lemma fit_after_prepare func xdata ydata ps xvar opts w func' xs y w1 :
  fit_prepare func xdata ydata xvar w = (Ok (func', xs, y), w1) →
  fit func xdata ydata ps xvar opts false w =
  match fit_dimensions func' y ps w1 with
  | (Ok _, w2) => fit_finish func' xs y ps opts w2
  | (Raise e, w2) => (Raise e, w2)
  end.
Proof. intros H. unfold fit. by rewrite (bind_run _ _ _ _ _ H). Qed.

Lemma fit_finish_same_solver_calls func xs y ps opts :
  stable same_solver_calls (fit_finish func xs y ps opts).
Proof.
  apply fit_finish_stable; [apply _|apply emit_fitting_same_solver_calls|].
  intros. apply save_results_stable; [apply _|..]; intros;
    apply setattr_same_solver_calls.
Qed.

Lemma fit_finish_same_meta func xs y ps opts :
  stable same_meta (fit_finish func xs y ps opts).
Proof.
  apply fit_finish_stable; [apply _|apply emit_same_meta|].
  intros. apply save_results_stable; [apply _|..]; intros;
    by apply setattr_same_meta.
Qed.

Lemma solve_dimensions_same_solver_calls func y ydim known :
  stable same_solver_calls (solve_dimensions func y ydim known).
Proof.
  apply solve_dimensions_stable; [apply _|..]; intros; apply setattr_same_solver_calls.
Qed.

(** C5: when [fit] (with dimension checking) finds that the function's
    dimension is not the one of [ydata], the whole call makes exactly one
    call of the dimension solver.  If the solver raises, so does [fit], at
    once.  If it returns dimensions for the names of all symbols of the
    function, every such quantity ends with the solved dimension, its
    preferred unit cleared when that dimension is not its former one and kept
    otherwise; and if the function's dimension then still differs from that
    of [ydata], [fit] raises without calling the fitting backend, in the
    world the solved dimensions left. *)
Theorem fit_solves_dimensions_once func xdata ydata ps xvar opts w func' xs y w1 oy fd :
  fit_prepare func xdata ydata xvar w = (Ok (func', xs, y), w1) →
  heap w1 !! y = Some oy →
  try_dimension (get_dimension (heap w1) func') = Ok fd →
  fd ≠ dim oy →
  (∀ s, s ∈ free_symbols func' → ∃ q, s = Q q ∧ is_Some (heap w1 !! q)) →
  let run := fit func xdata ydata ps xvar opts false w in
  ∃ known,
    let w2 := log_event (EvDimSolve func' (dim oy) known) w1 in
    collect_known ps (free_symbols func') ∅ w1 = (Ok known, w1) ∧
    solver_calls (trace run.2) = S (solver_calls (trace w)) ∧
    (∀ c s, dim_solve (heap w1) func' (dim oy) known = Throw c s →
       run = (Raise (Raised c s), w2)) ∧
    (∀ solved,
       dim_solve (heap w1) func' (dim oy) known = Done solved →
       (∀ q o, Q q ∈ free_symbols func' → heap w1 !! q = Some o →
               is_Some (solved !! name o)) →
       ∃ w3,
         save_dims solved (free_symbols func') w2 = (Ok (), w3) ∧
         (∀ q o, Q q ∈ free_symbols func' → heap w1 !! q = Some o →
            ∃ o', heap run.2 !! q = Some o' ∧
                  solved !! name o = Some (dim o') ∧
                  prefer_unit o' =
                    if bool_decide (dim o = dim o') then prefer_unit o else None) ∧
         (∀ c s, get_dimension (heap w3) func' = Throw c s →
            run = (Raise (Raised c s), w3)) ∧
         (∀ fd' oy',
            get_dimension (heap w3) func' = Done fd' →
            heap w3 !! y = Some oy' → Some fd' ≠ dim oy' →
            run = (Raise (RuntimeError FitDimensionsNotFound), w3) ∧
            fitting_calls (trace run.2) = fitting_calls (trace w))).
Proof.
  intros Hprep Hy Hfd Hne Hsyms run.
  destruct (collect_known_run ps (free_symbols func') ∅ w1 Hsyms) as [known Hknown].
  exists known. intros w2.
  assert (Htrace : trace w1 = trace w).
  { pose proof (fit_prepare_stable same_trace func xdata ydata xvar
                  (λ val, assign_same_trace val None None None None None None false) w)
      as H.
    by rewrite Hprep in H. }
  assert (Hdims : fit_dimensions func' y ps w1 =
                  solve_dimensions func' y (dim oy) known w2).
  { unfold fit_dimensions.
    rewrite (bind_run (with_heap _) _ w1 fd w1) by (unfold with_heap; by rewrite Hfd).
    rewrite (bind_run _ _ _ _ _ (getattr_run y dim w1 oy Hy)).
    rewrite bool_decide_false by done. simpl.
    rewrite (bind_run _ _ _ _ _ Hknown).
    rewrite (bind_run _ _ _ _ _ (getattr_run y dim w1 oy Hy)).
    by rewrite (bind_run (emit _) _ w1 () w2). }
  assert (Hrun : run =
    match solve_dimensions func' y (dim oy) known w2 with
    | (Ok _, w3) => fit_finish func' xs y ps opts w3
    | (Raise e, w3) => (Raise e, w3)
    end).
  { subst run. by rewrite (fit_after_prepare _ _ _ _ _ _ _ _ _ _ _ Hprep), Hdims. }
  split; [done|]. split_and!.
  - rewrite Hrun.
    pose proof (solve_dimensions_same_solver_calls func' y (dim oy) known w2) as H1.
    destruct (solve_dimensions func' y (dim oy) known w2) as [[[]|e] w3]; simpl in H1.
    + pose proof (fit_finish_same_solver_calls func' xs y ps opts w3) as H2.
      unfold same_solver_calls in *. rewrite H2, H1.
      unfold w2. by rewrite solver_calls_emit_solve, Htrace.
    + unfold same_solver_calls in *. simpl. rewrite H1.
      unfold w2. by rewrite solver_calls_emit_solve, Htrace.
  - intros c s Hsolve. rewrite Hrun. unfold solve_dimensions.
    by rewrite (bind_run_raise (with_heap _) _ w2 (Raised c s) w2)
      by (unfold with_heap; simpl; by rewrite Hsolve).
  - intros solved Hsolve Hcover.
    destruct (save_dims_run solved (free_symbols func') w2) as (w3 & Hsave & Htr & Hout & Hin).
    { apply NoDup_remove_dups. }
    { intros s Hs. destruct (Hsyms s Hs) as (q & -> & o & Ho).
      exists q, o. split; [done|]. split; [done|]. by eapply Hcover. }
    exists w3. split; [done|].
    assert (Hsolved : solve_dimensions func' y (dim oy) known w2 =
                      check_dimensions func' y w3).
    { unfold solve_dimensions.
      rewrite (bind_run (with_heap _) _ w2 solved w2)
        by (unfold with_heap; simpl; by rewrite Hsolve).
      by rewrite (bind_run _ _ _ _ _ Hsave). }
    rewrite Hsolved in Hrun. split_and!.
    + intros q o Hq Ho. destruct (Hin q o Hq Ho) as (o' & Ho' & Hn & Hd & Hu).
      assert (same_meta w3 run.2) as Hmeta.
      { rewrite Hrun.
        pose proof (check_dimensions_stable same_meta func' y w3) as H1.
        destruct (check_dimensions func' y w3) as [[[]|e] w4]; simpl in *; [|done].
        etrans; [exact H1|]. apply fit_finish_same_meta. }
      specialize (Hmeta q). rewrite Ho' in Hmeta. simpl in Hmeta.
      destruct (heap run.2 !! q) as [o''|]; [|done].
      unfold meta in Hmeta. injection Hmeta as Hn' Hd' Hu'.
      exists o''. split; [done|]. by rewrite <- Hd', <- Hu'.
    + intros c s Hget. rewrite Hrun. unfold check_dimensions.
      by rewrite (bind_run_raise (with_heap _) _ w3 (Raised c s) w3)
        by (unfold with_heap; by rewrite Hget).
    + intros fd' oy' Hget Hy' Hne'.
      assert (check_dimensions func' y w3 = (Raise (RuntimeError FitDimensionsNotFound), w3))
        as Hcheck.
      { unfold check_dimensions.
        rewrite (bind_run (with_heap _) _ w3 fd' w3) by (unfold with_heap; by rewrite Hget).
        rewrite (bind_run _ _ _ _ _ (getattr_run y dim w3 oy' Hy')).
        by rewrite bool_decide_false. }
      rewrite Hcheck in Hrun. split; [done|]. rewrite Hrun. simpl.
      rewrite (fitting_calls_same_trace w2 w3 Htr). unfold w2, fitting_calls. simpl.
      rewrite filter_app, length_app, Htrace. simpl. lia.
Qed.

End FitDimensions.

(** * More on [assign] *)

Section AssignShapes.
Context {D : Domain} {E : Engine}.

(** An error with more axes than the value is refused, whatever its size: a
    non-scalar error must be a trailing part of the value's shape, so an
    error of shape (1,) does not go with a scalar value. *)
Theorem assign_error_more_axes val (err_arg : Array) unit n ln vu eu ig w rv re v vf vd :
  resolve_units unit vu eu = Ok (rv, re) →
  process_value (heap w) val ig rv = Ok (v, vf, vd) →
  length (shape v) < length (shape err_arg) →
  assign val (Some err_arg) unit n ln vu eu ig w =
  (Raise (RuntimeError (ShapeMismatch (shape v) (shape err_arg))), w).
Proof.
  intros Hres Hval Hlen. rewrite assign_run, Hres, Hval.
  unfold process_error. rewrite scale_shape.
  destruct (shapes_fit (shape v) (shape err_arg)) eqn:Hfit; [|done].
  apply shapes_fit_suffix in Hfit as [k Hk].
  rewrite Hk, length_app in Hlen. lia.
Qed.

End AssignShapes.

Section AssignEngines.
Context {D : Domain} (E1 E2 : Engine).

Lemma resolve_units_same_parse unit vu eu :
  @parse_unit _ E1 = @parse_unit _ E2 →
  resolve_units (E := E1) unit vu eu = resolve_units (E := E2) unit vu eu.
Proof. intros H. unfold resolve_units, parsed. by rewrite H. Qed.

Lemma assigned_same_dummy l n ln v vf err ef rv re vd :
  @dummy_name _ E1 = @dummy_name _ E2 →
  assigned (E := E1) l n ln v vf err ef rv re vd =
  assigned (E := E2) l n ln v vf err ef rv re vd.
Proof. intros H. unfold assigned. by rewrite H. Qed.

(** With [ignore_dim=True] the dimension of the formula plays no part: two
    engines that differ only in [get_dimension] give the same outcome and the
    same world, so no failure of the dimension evaluation can make the call
    fail. *)
Theorem assign_ignore_dim_skips_dimension val err_arg unit n ln vu eu w :
  same_but_get_dimension E1 E2 →
  assign (E := E1) val err_arg unit n ln vu eu true w =
  assign (E := E2) val err_arg unit n ln vu eu true w.
Proof.
  intros (Hp & Hf & Hv & He & Hn). rewrite !assign_run.
  rewrite (resolve_units_same_parse unit vu eu Hp).
  destruct (resolve_units (E := E2) unit vu eu) as [[rv re]|x]; [|done].
  assert (process_value (E := E1) (heap w) val true rv =
          process_value (E := E2) (heap w) val true rv) as ->.
  { unfold process_value. by rewrite Hf, Hv. }
  destruct (process_value (E := E2) (heap w) val true rv) as [[[v vf] vd]|x]; [|done].
  assert (process_error (E := E1) (heap w) err_arg v vf true re =
          process_error (E := E2) (heap w) err_arg v vf true re) as ->.
  { unfold process_error. by rewrite He. }
  destruct (process_error (E := E2) (heap w) err_arg v vf true re) as [[err ef]|x];
    [|done].
  by rewrite (assigned_same_dummy _ _ _ _ _ _ _ _ _ _ Hn).
Qed.

(** An explicit error replaces the error of the calculation: with one, two
    engines that differ only in [get_error] give the same outcome and the
    same world. *)
Theorem assign_explicit_error_skips_propagation val given unit n ln vu eu ig w :
  same_but_get_error E1 E2 →
  assign (E := E1) val (Some given) unit n ln vu eu ig w =
  assign (E := E2) val (Some given) unit n ln vu eu ig w.
Proof.
  intros (Hp & Hf & Hv & Hd & Hn). rewrite !assign_run.
  rewrite (resolve_units_same_parse unit vu eu Hp).
  destruct (resolve_units (E := E2) unit vu eu) as [[rv re]|x]; [|done].
  assert (process_value (E := E1) (heap w) val ig rv =
          process_value (E := E2) (heap w) val ig rv) as ->.
  { unfold process_value. by rewrite Hf, Hv, Hd. }
  destruct (process_value (E := E2) (heap w) val ig rv) as [[[v vf] vd]|x]; [|done].
  assert (process_error (E := E1) (heap w) (Some given) v vf ig re =
          process_error (E := E2) (heap w) (Some given) v vf ig re) as -> by done.
  destruct (process_error (E := E2) (heap w) (Some given) v vf ig re) as [[err ef]|x];
    [|done].
  by rewrite (assigned_same_dummy _ _ _ _ _ _ _ _ _ _ Hn).
Qed.

End AssignEngines.

(** * [params] and more on [fit] *)

Section ParamsFit.
Context {D : Domain} {E : Engine}.

Lemma take_items_cons k n rest w :
  take_items (S k) {| pending := n :: rest |} w =
  match take_items k {| pending := rest |}
          (set_heap (<[fresh (dom (heap w)) := bare_quantity n]> (heap w)) w) with
  | (Ok (ls, g), w2) => (Ok (fresh (dom (heap w)) :: ls, g), w2)
  | (Raise e, w2) => (Raise e, w2)
  end.
Proof.
  simpl. unfold next, mbind, M_bind. simpl.
  by destruct (take_items k _ _) as [[[ls g]|e] w2].
Qed.

Lemma take_items_nil k w :
  take_items k {| pending := [] |} w = (Ok ([], {| pending := [] |}), w).
Proof. by destruct k. Qed.

Lemma take_items_run k (names : list string) w :
  ∃ ls w',
    take_items k {| pending := names |} w =
      (Ok (ls, {| pending := drop k names |}), w') ∧
    length ls = k `min` length names ∧ NoDup ls ∧
    (∀ l, l ∈ ls → heap w !! l = None) ∧
    (∀ i l n, ls !! i = Some l → names !! i = Some n →
              heap w' !! l = Some (bare_quantity n)) ∧
    (∀ l, l ∉ ls → heap w' !! l = heap w !! l) ∧
    (k = 0 → w' = w).
Proof.
  revert names w. induction k as [|k IH]; intros names w.
  { exists [], w. simpl. split_and!; try done.
    - constructor.
    - by intros l ?%elem_of_nil. }
  destruct names as [|n names].
  { exists [], w. rewrite take_items_nil. simpl. split_and!; try done.
    - constructor.
    - by intros l ?%elem_of_nil. }
  set (l1 := fresh (dom (heap w))).
  set (w1 := set_heap (<[l1 := bare_quantity n]> (heap w)) w).
  destruct (IH names w1) as (ls & w' & Hrun & Hlen & Hnd & Hnew & Hat & Hout & _).
  assert (Hl1 : heap w !! l1 = None) by apply fresh_lookup_None.
  assert (Hfresh : ∀ l, l ∈ ls → l ≠ l1).
  { intros l Hin ->. apply Hnew in Hin. simpl in Hin.
    by rewrite lookup_insert_eq in Hin. }
  exists (l1 :: ls), w'. split_and!.
  - rewrite take_items_cons. fold l1 w1. by rewrite Hrun.
  - simpl. by rewrite Hlen.
  - constructor; [|done]. intros Hin. by apply (Hfresh l1).
  - intros l [->|Hin]%elem_of_cons; [done|].
    pose proof (Hnew l Hin) as Hl. simpl in Hl.
    rewrite lookup_insert_ne in Hl; [done|]. intros <-. by apply (Hfresh l1).
  - intros [|i] l n'; simpl.
    + intros [= <-] [= <-]. rewrite Hout.
      * simpl. apply lookup_insert_eq.
      * intros Hin. by apply (Hfresh l1).
    + apply Hat.
  - intros l Hl. apply not_elem_of_cons in Hl as [Hne Hl].
    rewrite (Hout l Hl). simpl. by rewrite lookup_insert_ne.
  - done.
Qed.

(** [params] creates nothing; what it returns makes its quantities one at a
    time, when they are asked for.  Taking [k] items of it never fails and
    gives the quantities for the first [k] names (all of them when there are
    fewer), which are new objects, all different, each with its name and
    nothing else (no value, error, formula, dimension or unit), while every
    other object stays as it is and the names left are the rest; nothing
    taken, nothing changed.  Once all are taken, whatever is asked of the
    generator again gives nothing and changes nothing.  The names are the
    words of a single argument, and the arguments themselves when there are
    several or none. *)
Theorem params_placeholders names k w :
  let g := params names in
  (∀ n, names = [n] → pending g = str_split n) ∧
  (length names ≠ 1 → pending g = names) ∧
  ∃ ls w',
    take_items k g w = (Ok (ls, {| pending := drop k (pending g) |}), w') ∧
    length ls = k `min` length (pending g) ∧ NoDup ls ∧
    (∀ l, l ∈ ls → heap w !! l = None) ∧
    (∀ i l n, ls !! i = Some l → pending g !! i = Some n →
              heap w' !! l = Some (bare_quantity n)) ∧
    (∀ l, l ∉ ls → heap w' !! l = heap w !! l) ∧
    (k = 0 → w' = w) ∧
    (length (pending g) ≤ k →
     ∀ k', take_items k' {| pending := drop k (pending g) |} w' =
           (Ok ([], {| pending := [] |}), w')).
Proof.
  intros g. subst g. unfold params. split_and!.
  - by intros n ->.
  - destruct names as [|n [|m names]]; simpl; [done|lia|done].
  - cbn [pending]. generalize (match names with [n] => str_split n | _ => names end).
    intros ns.
    destruct (take_items_run k ns w)
      as (ls & w' & Hrun & Hlen & Hnd & Hnew & Hat & Hout & Hzero).
    exists ls, w'. split_and!; try done.
    intros Hk k'. rewrite drop_ge by done. apply take_items_nil.
Qed.

(** ** Preparation *)

(** [xvar] of another length than [xdata] fails the assertion before
    anything is created. *)
Theorem fit_xvar_length func xdata ydata ps xv opts ig w :
  length (items (as_sequence xv)) ≠ length (items (as_sequence xdata)) →
  fit func xdata ydata ps (Some xv) opts ig w = (Raise AssertionError, w).
Proof.
  intros Hlen. unfold fit, fit_prepare.
  rewrite bool_decide_false by done. done.
Qed.

Lemma fit_xaxes_tuple_ok xdata xvar func w xs func' w' :
  fit_xaxes false xdata xvar func w = (Ok (xs, func'), w') →
  Forall (λ x, is_Some (as_quantity x)) xdata ∧ xs = xdata ∧ w' = w.
Proof.
  revert xvar func xs func' w'.
  induction xdata as [|x xdata IH]; intros xvar func xs func' w'; simpl.
  - by intros [= <- _ <-].
  - intros (x' & w1 & Hx & Hrest)%bind_ok_inv.
    destruct (as_quantity x) as [q|] eqn:Hq.
    + injection Hx as <- <-.
      destruct xvar as [[|v xvar]|]; [done| |].
      * apply bind_ok_inv in Hrest as ([xs0 f0] & w2 & Hrec & Hret).
        injection Hret as <- <- <-. apply IH in Hrec as (Hall & -> & ->).
        split_and!; [|done..]. constructor; [by rewrite Hq|done].
      * apply bind_ok_inv in Hrest as ([xs0 f0] & w2 & Hrec & Hret).
        injection Hret as <- <- <-. apply IH in Hrec as (Hall & -> & ->).
        split_and!; [|done..]. constructor; [by rewrite Hq|done].
    + apply bind_ok_inv in Hx as (q & w2 & _ & Hraise). done.
Qed.

(** For [xdata] given as one expression or as a tuple, [fit] can only return
    if every item is a quantity: an item that is an expression is first made a
    quantity by [assign] and then cannot be stored in the tuple.  For a single
    expression the call ends with the [TypeError], the new quantity left
    behind. *)
Theorem fit_tuple_xdata func xdata ydata ps xvar opts ig w :
  is_list (as_sequence xdata) = false →
  (∀ r w', fit func xdata ydata ps xvar opts ig w = (Ok r, w') →
     Forall (λ x, is_Some (as_quantity x)) (items (as_sequence xdata))) ∧
  (∀ e q w1, xdata = XOne e → as_quantity e = None → xvar = None →
     assign (VExpr e) None None None None None None false w = (Ok q, w1) →
     fit func xdata ydata ps xvar opts ig w = (Raise TypeError, w1)).
Proof.
  intros Htuple. split.
  - intros r w' Hrun. unfold fit in Hrun.
    apply bind_ok_inv in Hrun as ([[func' xs] y] & w1 & Hprep & _).
    unfold fit_prepare in Hprep.
    apply bind_ok_inv in Hprep as (xv & w2 & _ & Hprep).
    apply bind_ok_inv in Hprep as ([xs' f'] & w3 & Hax & _).
    rewrite Htuple in Hax. by apply fit_xaxes_tuple_ok in Hax as (? & _).
  - intros e q w1 -> He -> Hassign. unfold fit, fit_prepare. simpl.
    rewrite He. unfold mbind, M_bind. simpl. by rewrite Hassign.
Qed.

(** ** Dimensions *)

#[export] Instance same_measurements_preorder : PreOrder same_measurements.
Proof.
  split; [by intros ??|]. intros w1 w2 w3 H1 H2 l. by rewrite H1, H2.
Qed.

#[export] Instance keeps_meta_preorder : PreOrder keeps_meta.
Proof.
  split.
  - intros w l o Hl. by exists o.
  - intros w1 w2 w3 H1 H2 l o Hl.
    destruct (H1 l o Hl) as (o' & Hl' & Hm).
    destruct (H2 l o' Hl') as (o'' & Hl'' & Hm').
    exists o''. split; [done|]. by rewrite Hm', Hm.
Qed.

Lemma same_meta_keeps_meta w w' : same_meta w w' → keeps_meta w w'.
Proof.
  intros H l o Hl. specialize (H l). rewrite Hl in H. simpl in H.
  destruct (heap w' !! l) as [o'|]; [|done].
  exists o'. split; [done|]. unfold meta in *. simpl in *. congruence.
Qed.

Lemma setattr_same_measurements q f :
  (∀ o, measurement (f o) = measurement o) → stable same_measurements (setattr q f).
Proof.
  intros Hf. apply stable_setattr; [apply _|].
  intros w o Hq l. simpl. destruct (decide (l = q)) as [->|Hne].
  - rewrite lookup_insert_eq, Hq. simpl. by rewrite Hf.
  - by rewrite lookup_insert_ne.
Qed.

(** The dimension stage of [fit] changes dimensions and preferred units
    only: every quantity has the name, long name, value, error and formulas
    after it that it had before, however the stage ends. *)
Theorem fit_dimensions_keeps_measurements func y ps w l :
  measurement <$> heap (fit_dimensions func y ps w).2 !! l =
  measurement <$> heap w !! l.
Proof.
  symmetry. revert w l. change (stable same_measurements (fit_dimensions func y ps)).
  unfold fit_dimensions.
  apply stable_bind; [apply _|apply stable_with_heap; apply _|]. intros fd.
  apply stable_bind; [apply _|apply stable_getattr; apply _|]. intros yd.
  case_match; [|apply stable_ret; apply _].
  apply stable_bind; [apply _|apply collect_known_stable; apply _|]. intros known.
  apply stable_bind; [apply _|apply stable_getattr; apply _|]. intros yd'.
  apply stable_bind; [apply _|by intros w0 l0|]. intros _.
  apply solve_dimensions_stable; [apply _|..]; intros;
    by apply setattr_same_measurements.
Qed.

Lemma assign_keeps_meta val err_arg unit n ln vu eu ig :
  stable keeps_meta (assign val err_arg unit n ln vu eu ig).
Proof.
  intros w l o Hl. exists o. split; [|done].
  by apply (assign_keeps_world val err_arg unit n ln vu eu ig w).
Qed.

Lemma assign_same_solver_calls val err_arg unit n ln vu eu ig :
  stable same_solver_calls (assign val err_arg unit n ln vu eu ig).
Proof. intros w. apply same_trace_solver_calls, assign_same_trace. Qed.

Lemma fit_finish_keeps_meta func xs y ps opts :
  stable keeps_meta (fit_finish func xs y ps opts).
Proof. intros w. apply same_meta_keeps_meta, fit_finish_same_meta. Qed.

(** With [ignore_dim=True] a fit never calls the dimension solver and leaves
    every quantity that existed with its name, dimension and preferred
    unit. *)
Theorem fit_ignore_dim func xdata ydata ps xvar opts w :
  let run := fit func xdata ydata ps xvar opts true w in
  solver_calls (trace run.2) = solver_calls (trace w) ∧
  ∀ l o, heap w !! l = Some o →
    ∃ o', heap run.2 !! l = Some o' ∧
          name o' = name o ∧ dim o' = dim o ∧ prefer_unit o' = prefer_unit o.
Proof.
  simpl. split.
  - revert w. change (stable same_solver_calls (fit func xdata ydata ps xvar opts true)).
    unfold fit. apply stable_bind; [apply _| |].
    { apply fit_prepare_stable; [apply _|]. intros. apply assign_same_solver_calls. }
    intros [[func' xs] y]. apply stable_bind; [apply _|apply stable_ret; apply _|].
    intros _. apply fit_finish_same_solver_calls.
  - assert (stable keeps_meta (fit func xdata ydata ps xvar opts true)) as Hk.
    { unfold fit. apply stable_bind; [apply _| |].
      { apply fit_prepare_stable; [apply _|]. intros. apply assign_keeps_meta. }
      intros [[func' xs] y]. apply stable_bind; [apply _|apply stable_ret; apply _|].
      intros _. apply fit_finish_keeps_meta. }
    intros l o Hl. destruct (Hk w l o Hl) as (o' & Hl' & Hm).
    exists o'. split; [done|]. unfold meta in Hm. by injection Hm.
Qed.

(** When the function already has the dimension of [ydata], [fit] goes
    straight to the fitting: no solver call, no dimension changed. *)
Theorem fit_dimensions_agree func xdata ydata ps xvar opts w func' xs y w1 oy d :
  fit_prepare func xdata ydata xvar w = (Ok (func', xs, y), w1) →
  heap w1 !! y = Some oy →
  get_dimension (heap w1) func' = Done d →
  dim oy = Some d →
  let run := fit func xdata ydata ps xvar opts false w in
  run = fit_finish func' xs y ps opts w1 ∧
  solver_calls (trace run.2) = solver_calls (trace w).
Proof.
  intros Hprep Hy Hd Hoy run.
  assert (Hrun : run = fit_finish func' xs y ps opts w1).
  { subst run. rewrite (fit_after_prepare _ _ _ _ _ _ _ _ _ _ _ Hprep).
    unfold fit_dimensions.
    rewrite (bind_run (with_heap _) _ w1 (Some d) w1)
      by (unfold with_heap; by rewrite Hd).
    rewrite (bind_run _ _ _ _ _ (getattr_run y dim w1 oy Hy)).
    by rewrite Hoy, bool_decide_true. }
  split; [done|]. rewrite Hrun.
  pose proof (fit_finish_same_solver_calls func' xs y ps opts w1) as H1.
  pose proof (fit_prepare_stable same_solver_calls func xdata ydata xvar
                (λ val, assign_same_solver_calls val None None None None None None false) w)
    as H2.
  rewrite Hprep in H2. unfold same_solver_calls in *. simpl in H2. by rewrite H1, H2.
Qed.

End ParamsFit.

(** * Results of a fit, missing results, missing dimensions *)

Section FitResults.
Context {D : Domain} {E : Engine}.

Lemma save_results_saved i ps values errors w w' :
  save_results i ps values errors w = (Ok (), w') → NoDup ps →
  (∀ l, l ∉ ps → heap w' !! l = heap w !! l) ∧
  (∀ k p, ps !! k = Some p →
     ∃ o o', heap w !! p = Some o ∧ heap w' !! p = Some o' ∧
       value o' = values !! (i + k) ∧ error o' = errors !! (i + k) ∧
       fitted o' ∧ meta o' = meta o ∧ longname o' = longname o).
Proof.
  revert i w. induction ps as [|p ps IH]; intros i w; simpl.
  - intros [= <-] _. split; [done|]. by intros k p.
  - intros Hrun [Hp Hnd]%NoDup_cons.
    destruct (values !! i) as [v|] eqn:Hv; [|done].
    apply bind_ok_inv in Hrun as ([] & w1 & (o1 & Ho1 & ->)%setattr_ok_inv & Hrun).
    apply bind_ok_inv in Hrun as ([] & w2 & (o2 & Ho2 & ->)%setattr_ok_inv & Hrun).
    destruct (errors !! i) as [e|] eqn:He; [|done].
    apply bind_ok_inv in Hrun as ([] & w3 & (o3 & Ho3 & ->)%setattr_ok_inv & Hrun).
    apply bind_ok_inv in Hrun as ([] & w4 & (o4 & Ho4 & ->)%setattr_ok_inv & Hrun).
    simpl in *. rewrite lookup_insert_eq in Ho2, Ho3, Ho4.
    simplify_eq. rewrite !insert_insert_eq in Hrun.
    apply IH in Hrun as [Hout Hin]; [|done]. simpl in *. split.
    + intros l Hl. rewrite Hout by (intros ?; apply Hl; by right).
      rewrite lookup_insert_ne; [done|]. intros ->. apply Hl. by left.
    + intros [|k] p'; simpl.
      * intros [= <-]. eexists o1, _. split; [done|].
        rewrite (Hout p Hp), lookup_insert_eq. split; [done|]. simpl.
        by rewrite Nat.add_0_r, Hv, He.
      * intros Hk. destruct (Hin k p' Hk) as (o & o' & Ho & Ho' & Hval & Herr & Hrest).
        assert (p' ≠ p) as Hne.
        { intros ->. apply Hp. by eapply list_elem_of_lookup_2. }
        rewrite lookup_insert_ne in Ho by done.
        exists o, o'. split; [done|]. split; [done|].
        by rewrite <- Nat.add_succ_comm.
Qed.

(** After a fit that returns, with parameters that are all different, the
    k-th parameter holds the k-th value and the k-th error that the fitting
    backend returned (and ["fit"] as both formulas); what is not a parameter
    is as it was when the backend was called. *)
Theorem fit_results_saved func xdata ydata ps xvar opts ig w r w' :
  fit func xdata ydata ps xvar opts ig w = (Ok r, w') →
  NoDup ps →
  ∃ func' xs y w2 values errors,
    fitting_fit (heap w2) func' xs y ps opts = Done (values, errors) ∧
    (∀ k p, ps !! k = Some p →
       ∃ o', heap w' !! p = Some o' ∧
         value o' = values !! k ∧ error o' = errors !! k ∧ fitted o') ∧
    (∀ l, l ∉ ps → heap w' !! l = heap w2 !! l).
Proof.
  intros Hrun Hnd. unfold fit in Hrun.
  apply bind_ok_inv in Hrun as ([[func' xs] y] & w1 & _ & Hrun).
  apply bind_ok_inv in Hrun as ([] & w2 & _ & Hrun). unfold fit_finish in Hrun.
  apply bind_ok_inv in Hrun as ([] & w3 & [= <-] & Hrun).
  apply bind_ok_inv in Hrun as ([values errors] & w4 & Hfit & Hrun).
  apply bind_ok_inv in Hrun as ([] & w5 & Hsave & Hrun).
  unfold with_heap in Hrun, Hfit. simpl in Hfit. injection Hrun as _ <-.
  injection Hfit as Hfit <-.
  destruct (fitting_fit (heap w2) func' xs y ps opts) as [[vs es]|] eqn:Hcall;
    simpl in Hfit; [|done].
  injection Hfit as <- <-.
  apply save_results_saved in Hsave as [Hout Hin]; [|done].
  exists func', xs, y, w2, vs, es. split; [done|]. split; [|exact Hout].
  intros k p Hk. destruct (Hin k p Hk) as (o & o' & _ & Ho' & Hv & He & Hf & _).
  exists o'. by split_and!.
Qed.

Lemma setattr_run q f w o :
  heap w !! q = Some o → setattr q f w = (Ok (), set_heap (<[q := f o]> (heap w)) w).
Proof. unfold setattr. by intros ->. Qed.

Lemma save_results_short i ps values errors w :
  (∀ p, p ∈ ps → is_Some (heap w !! p)) →
  i ≤ length values → i ≤ length errors →
  length values < i + length ps ∨ length errors < i + length ps →
  (save_results i ps values errors w).1 = Raise IndexError.
Proof.
  revert i w. induction ps as [|p ps IH]; intros i w Hps Hiv Hie Hshort; simpl in *.
  - lia.
  - destruct (values !! i) as [v|] eqn:Hv; [|done].
    destruct (Hps p) as [o Ho]; [by left|].
    rewrite (bind_run _ _ _ _ _ (setattr_run p _ w o Ho)).
    erewrite bind_run; [|by apply setattr_run; simpl; apply lookup_insert_eq].
    destruct (errors !! i) as [e|] eqn:He; [|done].
    erewrite bind_run; [|by apply setattr_run; simpl; apply lookup_insert_eq].
    erewrite bind_run; [|by apply setattr_run; simpl; apply lookup_insert_eq].
    apply lookup_lt_Some in Hv, He. apply IH; [|lia..].
    intros p' Hp'. simpl. destruct (decide (p' = p)) as [->|Hne].
    + rewrite lookup_insert_eq. by eexists.
    + rewrite !lookup_insert_ne by done. apply Hps. by right.
Qed.

(** When the fitting backend returns fewer values or fewer errors than there
    are parameters, the fit ends with an [IndexError] (the parameters being
    quantities). *)
Theorem fit_finish_short_results func xs y ps opts w values errors :
  fitting_fit (heap w) func xs y ps opts = Done (values, errors) →
  (∀ p, p ∈ ps → is_Some (heap w !! p)) →
  length values < length ps ∨ length errors < length ps →
  (fit_finish func xs y ps opts w).1 = Raise IndexError.
Proof.
  intros Hfit Hps Hshort. unfold fit_finish.
  rewrite (bind_run (emit _) _ w () (log_event (EvFitting func) w)) by done.
  rewrite (bind_run (with_heap _) _ _ (values, errors) (log_event (EvFitting func) w))
    by (unfold with_heap; simpl; by rewrite Hfit).
  assert ((save_results 0 ps values errors (log_event (EvFitting func) w)).1 =
          Raise IndexError) as Hsave.
  { apply save_results_short; [done|lia..]. }
  unfold mbind, M_bind.
  destruct (save_results 0 ps values errors (log_event (EvFitting func) w))
    as [[[]|e] w'] eqn:Hrun; simpl in Hsave; [done|].
  simpl. by injection Hsave as ->.
Qed.

Lemma save_dims_missing solved syms w :
  NoDup syms →
  (∀ s, s ∈ syms → ∃ q o, s = Q q ∧ heap w !! q = Some o) →
  (∃ q o, Q q ∈ syms ∧ heap w !! q = Some o ∧ solved !! name o = None) →
  ∃ n, (save_dims solved syms w).1 = Raise (KeyError n) ∧ solved !! n = None.
Proof.
  revert w. induction syms as [|s syms IH]; intros w Hnd Hall Hmiss.
  - destruct Hmiss as (q & o & Hin & _). by apply elem_of_nil in Hin.
  - apply NoDup_cons in Hnd as [Hs Hnd].
    destruct (Hall s) as (q & o & -> & Ho); [by left|]. simpl.
    rewrite (bind_run _ _ _ _ _ (getattr_run q dim w o Ho)).
    rewrite (bind_run _ _ _ _ _ (getattr_run q name w o Ho)).
    destruct (solved !! name o) as [kd|] eqn:Hkd; [|by exists (name o)].
    assert (∃ w1, ((if negb (bool_decide (dim o = kd))
                    then setattr q (set_dim kd);; setattr q (set_prefer_unit None)
                    else mret ()) w = (Ok (), w1)) ∧
                  ∀ q', q' ≠ q → heap w1 !! q' = heap w !! q') as (w1 & Hstep & Hother).
    { case_bool_decide; simpl.
      - by exists w.
      - eexists. split.
        + unfold mbind, M_bind, setattr. rewrite Ho. simpl.
          by rewrite lookup_insert_eq.
        + intros q' Hne. simpl. by rewrite !lookup_insert_ne. }
    rewrite (bind_run _ _ _ _ _ Hstep).
    apply IH; [done| |].
    + intros s Hin. destruct (Hall s) as (q' & o' & -> & Ho'); [by right|].
      exists q', o'. split; [done|]. rewrite Hother; [done|]. by intros ->.
    + destruct Hmiss as (q' & o' & Hin & Ho' & Hnone).
      apply elem_of_cons in Hin as [[= ->]|Hin]; [congruence|].
      exists q', o'. split; [done|]. split; [|done].
      rewrite Hother; [done|]. by intros ->.
Qed.

(** When the solver's answer has no entry for the name of one of the
    function's quantities, storing the dimensions ends with a [KeyError] for
    a name the answer lacks. *)
Theorem solve_dimensions_missing_name func y ydim known w solved :
  dim_solve (heap w) func ydim known = Done solved →
  (∀ s, s ∈ free_symbols func → ∃ q o, s = Q q ∧ heap w !! q = Some o) →
  (∃ q o, Q q ∈ free_symbols func ∧ heap w !! q = Some o ∧
          solved !! name o = None) →
  ∃ n, (solve_dimensions func y ydim known w).1 = Raise (KeyError n) ∧
       solved !! n = None.
Proof.
  intros Hsolve Hall Hmiss. unfold solve_dimensions.
  rewrite (bind_run (with_heap _) _ w solved w) by (unfold with_heap; by rewrite Hsolve).
  destruct (save_dims_missing solved (free_symbols func) w) as (n & Hrun & Hn);
    [apply NoDup_remove_dups|done..|].
  exists n. split; [|done]. unfold mbind, M_bind.
  destruct (save_dims solved (free_symbols func) w) as [[[]|e] w']; simpl in *;
    [done|by rewrite Hrun].
Qed.

End FitResults.

(** * More on the dependency search, [formula] and the arguments of [plot] *)

Section Search.
Context {D : Domain}.

Lemma unpack_loop_passed_over rec h find qs unpacked ig :
  (∀ s, s ∈ qs → passed_over h ig s) →
  unpack_loop rec h find qs unpacked ig = Some (Ok unpacked, ig).
Proof.
  induction qs as [|[q|n] qs IH]; intros Hall; simpl; [done| |].
  - assert (∀ s, s ∈ qs → passed_over h ig s) as Hrest.
    { intros s Hs. apply Hall. by right. }
    case_bool_decide as Hq; [by apply IH|].
    destruct (Hall (Q q)) as [Hin|(o & Ho & Hf)]; [by left|done|].
    rewrite Ho. simpl. destruct (value_formula o) as [[f|s]|] eqn:Hvf;
      [by destruct (Hf f)|by apply IH..].
  - destruct (Hall (V n)). by left.
Qed.

Lemma passed_over_extend h ig a s : passed_over h ig s → passed_over h (ig ++ a) s.
Proof.
  destruct s as [q|n]; [|done]. intros [Hin|Ho]; [left|by right].
  apply elem_of_app. by left.
Qed.

Lemma unpack_loop_marks rec h find qs unpacked ig r ig' :
  (∀ f i x i', rec f i = Some (x, i') → ∃ a, i' = i ++ a) →
  unpack_loop rec h find qs unpacked ig = Some (Ok r, ig') →
  (∃ a, ig' = ig ++ a) ∧ ∀ s, s ∈ qs → passed_over h ig' s.
Proof.
  intros Hrec. revert unpacked ig.
  induction qs as [|[q|n] qs IH]; intros unpacked ig; simpl.
  - intros [= <- <-]. split; [exists []; by rewrite app_nil_r|].
    by intros s ?%elem_of_nil.
  - case_bool_decide as Hq.
    { intros Hrun. destruct (IH _ _ Hrun) as ([a ->] & Hall).
      split; [by eexists|]. intros s [->|Hs]%elem_of_cons; [|by apply Hall].
      left. apply elem_of_app. by left. }
    destruct (h !! q) as [o|] eqn:Ho; simpl; [|done].
    destruct (value_formula o) as [[f|s']|] eqn:Hvf.
    + destruct (rec f (ig ++ [q])) as [[[content|e] ig1]|] eqn:Hr; [|done..].
      destruct (Hrec _ _ _ _ Hr) as [a1 ->].
      intros Hrun. destruct (IH _ _ Hrun) as ([a ->] & Hall).
      split; [exists ([q] ++ a1 ++ a); by rewrite !app_assoc|].
      intros s [->|Hs]%elem_of_cons; [|by apply Hall].
      left. rewrite !elem_of_app, list_elem_of_singleton. tauto.
    + intros Hrun. destruct (IH _ _ Hrun) as ([a ->] & Hall).
      split; [by eexists|]. intros s [->|Hs]%elem_of_cons; [|by apply Hall].
      right. exists o. split; [done|]. by rewrite Hvf.
    + intros Hrun. destruct (IH _ _ Hrun) as ([a ->] & Hall).
      split; [by eexists|]. intros s [->|Hs]%elem_of_cons; [|by apply Hall].
      right. exists o. split; [done|]. by rewrite Hvf.
  - done.
Qed.

(** Quantities without a formula, and fit parameters (whose value formula is
    the string ["fit"]), are leaves: an expression over them is returned as
    it is and nothing is appended to the list. *)
Theorem find_all_dependencies_leaves fuel h expr find ig :
  (∀ s, s ∈ free_symbols expr →
     ∃ q o, s = Q q ∧ h !! q = Some o ∧ ∀ f, value_formula o ≠ Some (FExpr f)) →
  find_all_dependencies (S fuel) h expr find ig = Some (Ok expr, ig).
Proof.
  intros Hall. simpl. apply unpack_loop_passed_over.
  intros s Hs. destruct (Hall s Hs) as (q & o & -> & Ho & Hf). right. eauto.
Qed.

(** A quantity defined by a formula over leaves is replaced by that formula
    exactly when the formula mentions the quantity looked for; either way the
    quantity is appended to the list. *)
Theorem find_all_dependencies_one_level fuel h y o formula find ig :
  h !! y = Some o → value_formula o = Some (FExpr formula) → y ∉ ig →
  (∀ s, s ∈ free_symbols formula →
     s = Q y ∨
     ∃ q o', s = Q q ∧ h !! q = Some o' ∧ ∀ f, value_formula o' ≠ Some (FExpr f)) →
  find_all_dependencies (S (S fuel)) h (Sym (Q y)) find ig =
  Some (Ok (if bool_decide (Q find ∈ free_symbols formula)
            then formula else Sym (Q y)), ig ++ [y]).
Proof.
  intros Ho Hvf Hy Hall.
  assert (find_all_dependencies (S fuel) h formula find (ig ++ [y]) =
          Some (Ok formula, ig ++ [y])) as Hinner.
  { simpl. apply unpack_loop_passed_over. intros s Hs.
    destruct (Hall s Hs) as [->|(q & o' & -> & Ho' & Hf)].
    - left. apply elem_of_app. right. by apply list_elem_of_singleton.
    - right. eauto. }
  change (find_all_dependencies (S (S fuel)) h (Sym (Q y)) find ig) with
    (unpack_loop (λ f i, find_all_dependencies (S fuel) h f find i) h find
       (free_symbols (Sym (Q y))) (Sym (Q y)) ig).
  change (free_symbols (Sym (Q y))) with [Q y].
  revert Hinner. generalize (find_all_dependencies (S fuel) h). intros rec Hinner.
  cbn [unpack_loop]. rewrite bool_decide_false by done.
  rewrite Ho. cbn [fmap option_fmap option_map]. rewrite Hvf, Hinner.
  case_bool_decide; [|done]. cbn [subs]. by rewrite decide_True.
Qed.

(** After a call with the default list that returned, the same call again
    unpacks nothing: it returns the expression it was given and leaves the
    list as it is; [plot] then takes the pair as a function only if [y]
    itself contains [x]. *)
Theorem find_all_dependencies_second_call fuel fuel' expr find w r w1 :
  find_all_dependencies_default fuel expr find w = Some (Ok r, w1) →
  find_all_dependencies_default (S fuel') expr find w1 = Some (Ok expr, w1) ∧
  plot_kind (S fuel') (Sym (Q find)) expr w1 =
    Some (Ok (if has expr find then PlotFunction expr else PlotDataSet), w1).
Proof.
  unfold find_all_dependencies_default. intros Hrun.
  destruct (find_all_dependencies fuel (heap w) expr find (ignore_default w))
    as [[r' ig']|] eqn:Hfirst; [|done].
  injection Hrun as -> <-. destruct fuel as [|fuel]; [done|]. simpl in Hfirst.
  apply unpack_loop_marks in Hfirst as [_ Hall].
  2:{ intros f i x i'. apply find_all_dependencies_extends. }
  assert (find_all_dependencies (S fuel') (heap w) expr find ig' = Some (Ok expr, ig'))
    as Hsecond by (simpl; by apply unpack_loop_passed_over).
  split.
  - change (heap (set_ignore_default ig' w)) with (heap w).
    change (ignore_default (set_ignore_default ig' w)) with ig'.
    by rewrite Hsecond.
  - unfold plot_kind, find_all_dependencies_default. cbn [as_quantity].
    change (heap (set_ignore_default ig' w)) with (heap w).
    change (ignore_default (set_ignore_default ig' w)) with ig'.
    by rewrite Hsecond.
Qed.

End Search.

Section Formula.
Context {D : Domain} {E : Engine}.

(** [formula] composed with [fit]: for every parameter of a fit that
    returned, [formula] returns the string ["fit"]. *)
Theorem formula_of_fit_parameter func xdata ydata ps xvar opts ig w r w' p :
  fit func xdata ydata ps xvar opts ig w = (Ok r, w') →
  p ∈ ps →
  formula (heap w') (Sym (Q p)) = FormulaString "fit".
Proof.
  intros Hrun Hp. unfold fit in Hrun.
  apply bind_ok_inv in Hrun as ([[func' xs] y] & w1 & _ & Hrun).
  apply bind_ok_inv in Hrun as ([] & w2 & _ & Hrun). unfold fit_finish in Hrun.
  apply bind_ok_inv in Hrun as ([] & w3 & _ & Hrun).
  apply bind_ok_inv in Hrun as ([values errors] & w4 & _ & Hrun).
  apply bind_ok_inv in Hrun as ([] & w5 & Hsave & Hrun).
  unfold with_heap in Hrun. injection Hrun as _ <-.
  apply save_results_fitted in Hsave as [_ Hps].
  destruct (Hps p Hp) as (o & Ho & _ & He).
  unfold formula. simpl. by rewrite Ho, He.
Qed.

(** ** The loop that puts in [\sigma] *)

Lemma with_sigma_on_nil h e : with_sigma_on [] h e = e.
Proof.
  induction e as [c|s|a IHa b IHb|a IHa b IHb|a IHa b IHb|f a IHa]; simpl;
    by rewrite ?IHa, ?IHb.
Qed.

Lemma with_sigma_on_all seen h e :
  (∀ s, s ∈ symbols e → s ∈ seen) → with_sigma_on seen h e = with_sigma h e.
Proof.
  induction e as [c|s|a IHa b IHb|a IHa b IHb|a IHa b IHb|f a IHa]; simpl;
    intros Hall.
  - done.
  - rewrite bool_decide_true; [done|]. apply Hall. by apply list_elem_of_singleton.
  - rewrite IHa, IHb; [done|intros s Hs; apply Hall, elem_of_app; tauto..].
  - rewrite IHa, IHb; [done|intros s Hs; apply Hall, elem_of_app; tauto..].
  - rewrite IHa, IHb; [done|intros s Hs; apply Hall, elem_of_app; tauto..].
  - by rewrite IHa.
Qed.

Lemma with_sigma_on_skip var seen h e :
  sigma_of h var = Sym var →
  with_sigma_on (var :: seen) h e = with_sigma_on seen h e.
Proof.
  intros Hvar.
  induction e as [c|s|a IHa b IHb|a IHa b IHb|a IHa b IHb|f a IHa]; simpl;
    try by rewrite ?IHa, ?IHb.
  destruct (decide (s = var)) as [->|Hne].
  - rewrite bool_decide_true by (by left). rewrite Hvar. by case_bool_decide.
  - apply (f_equal (λ b : bool, if b then sigma_of h s else Sym s)).
    apply bool_decide_ext. rewrite elem_of_cons. tauto.
Qed.

(** One substitution of the loop, for a symbol whose name ends in [_err]. *)
Lemma subs_with_sigma_on var n seen h e :
  symbol_name h var = Some n → ends_err n = true →
  (∀ s m, s ∈ symbols e → symbol_name h s = Some m →
          ends_err m = true → ends_err (str_but_last 4 m) = false) →
  subs (with_sigma_on seen h e) (Sym var) (sigma_of h var) =
  with_sigma_on (var :: seen) h e.
Proof.
  intros Hvar Herr.
  assert (Hnot : ∀ m, ends_err m = false → V m ≠ var).
  { intros m Hm <-. simpl in Hvar. injection Hvar as ->. congruence. }
  induction e as [c|s|a IHa b IHb|a IHa b IHb|a IHa b IHb|f a IHa]; intros Hplain.
  - done.
  - cbn [with_sigma_on].
    assert (Hs : ∀ m, symbol_name h s = Some m → ends_err m = true →
                 ends_err (str_but_last 4 m) = false).
    { intros m. apply Hplain. by apply list_elem_of_singleton. }
    destruct (decide (s = var)) as [->|Hne].
    + rewrite (bool_decide_true (var ∈ var :: seen)) by (by left).
      case_bool_decide as Hin.
      * unfold sigma_of. rewrite Hvar, Herr. cbn [subs].
        rewrite decide_False by done. cbn [subs].
        rewrite decide_False; [done|]. intros [= Heq].
        by apply (Hnot (str_but_last 4 n) (Hs n Hvar Herr)).
      * cbn [subs]. by rewrite decide_True.
    + rewrite (bool_decide_ext (s ∈ var :: seen) (s ∈ seen))
        by (rewrite elem_of_cons; tauto).
      case_bool_decide as Hin.
      * unfold sigma_of at 1 3. destruct (symbol_name h s) as [m|] eqn:Hm.
        -- destruct (ends_err m) eqn:Hem.
           ++ cbn [subs]. rewrite decide_False by done. cbn [subs].
              rewrite decide_False; [done|]. intros [= Heq].
              by apply (Hnot (str_but_last 4 m) (Hs m eq_refl Hem)).
           ++ cbn [subs]. rewrite decide_False; [done|]. by intros [= ->].
        -- cbn [subs]. rewrite decide_False; [done|]. by intros [= ->].
      * cbn [subs]. rewrite decide_False; [done|]. by intros [= ->].
  - cbn [with_sigma_on subs]. rewrite decide_False by done.
    rewrite IHa, IHb; [done|intros s m Hs; apply Hplain; simpl; apply elem_of_app; tauto..].
  - cbn [with_sigma_on subs]. rewrite decide_False by done.
    rewrite IHa, IHb; [done|intros s m Hs; apply Hplain; simpl; apply elem_of_app; tauto..].
  - cbn [with_sigma_on subs]. rewrite decide_False by done.
    rewrite IHa, IHb; [done|intros s m Hs; apply Hplain; simpl; apply elem_of_app; tauto..].
  - cbn [with_sigma_on subs]. rewrite decide_False by done.
    rewrite IHa; [done|]. intros s m Hs. by apply Hplain.
Qed.

Lemma sigma_loop_with_sigma_on h vars seen f :
  (∀ s, s ∈ vars → is_Some (symbol_name h s)) →
  (∀ s m, s ∈ symbols f → symbol_name h s = Some m →
          ends_err m = true → ends_err (str_but_last 4 m) = false) →
  sigma_loop h vars (with_sigma_on seen h f) =
  Some (with_sigma_on (rev vars ++ seen) h f).
Proof.
  intros Hnames Hplain. revert seen.
  induction vars as [|var vars IH]; intros seen; [done|].
  cbn [sigma_loop]. destruct (Hnames var) as [n Hn]; [by left|]. rewrite Hn.
  assert (∀ s, s ∈ vars → is_Some (symbol_name h s)) as Hrest.
  { intros s Hs. apply Hnames. by right. }
  assert (with_sigma_on (rev (var :: vars) ++ seen) h f =
          with_sigma_on (rev vars ++ var :: seen) h f) as ->.
  { simpl. by rewrite <- app_assoc. }
  fold (ends_err n). destruct (ends_err n) eqn:Herr.
  - assert (Fn "\sigma" (Sym (V (str_but_last 4 n))) = sigma_of h var) as ->.
    { unfold sigma_of. by rewrite Hn, Herr. }
    rewrite (subs_with_sigma_on var n seen h f Hn Herr Hplain). by apply IH.
  - rewrite <- (with_sigma_on_skip var seen h f).
    + by apply IH.
    + unfold sigma_of. by rewrite Hn, Herr.
Qed.

Lemma plain_errors_symbols h f s m :
  plain_errors h f → s ∈ symbols f → symbol_name h s = Some m →
  ends_err m = true → ends_err (str_but_last 4 m) = false.
Proof.
  intros Hplain Hs Hm. destruct (Hplain s) as (m' & Hm' & Hok).
  - unfold free_symbols. by apply elem_of_remove_dups.
  - rewrite Hm in Hm'. by injection Hm' as <-.
Qed.

Lemma sigma_loop_with_sigma h f :
  plain_errors h f → sigma_loop h (free_symbols f) f = Some (with_sigma h f).
Proof.
  intros Hplain.
  rewrite <- (with_sigma_on_nil h f) at 2.
  rewrite sigma_loop_with_sigma_on.
  - f_equal. apply with_sigma_on_all. intros s Hs.
    rewrite app_nil_r. apply list_elem_of_In. rewrite <- in_rev.
    apply list_elem_of_In. unfold free_symbols. by apply elem_of_remove_dups.
  - intros s Hs. destruct (Hplain s Hs) as (m & -> & _). by eexists.
  - intros s m. by apply plain_errors_symbols.
Qed.

Lemma with_sigma_no_err h f s m :
  plain_errors h f →
  s ∈ symbols (with_sigma h f) → symbol_name h s = Some m → ends_err m = false.
Proof.
  intros Hplain.
  assert (∀ s, s ∈ symbols f →
            ∃ n, symbol_name h s = Some n ∧
                 (ends_err n = true → ends_err (str_but_last 4 n) = false)) as Hall.
  { intros s' Hs'. apply Hplain. unfold free_symbols. by apply elem_of_remove_dups. }
  clear Hplain. revert s m.
  induction f as [c|s'|a IHa b IHb|a IHa b IHb|a IHa b IHb|g a IHa]; intros s m; simpl.
  - by intros ?%elem_of_nil.
  - destruct (Hall s') as (n & Hn & Hok); [by apply list_elem_of_singleton|].
    unfold sigma_of. rewrite Hn. destruct (ends_err n) eqn:Herr; simpl.
    + intros ->%list_elem_of_singleton [= <-]. by apply Hok.
    + intros ->%list_elem_of_singleton. rewrite Hn. by intros [= <-].
  - intros [Hs|Hs]%elem_of_app;
      [apply IHa|apply IHb]; try done; intros s' Hs'; apply Hall; simpl;
      apply elem_of_app; tauto.
  - intros [Hs|Hs]%elem_of_app;
      [apply IHa|apply IHb]; try done; intros s' Hs'; apply Hall; simpl;
      apply elem_of_app; tauto.
  - intros [Hs|Hs]%elem_of_app;
      [apply IHa|apply IHb]; try done; intros s' Hs'; apply Hall; simpl;
      apply elem_of_app; tauto.
  - apply IHa. intros s' Hs'. by apply Hall.
Qed.

(** [formula] composed with [assign]: a quantity built from a number, or
    given an explicit error, has no error formula, and [formula] raises the
    [ValueError] that names it.  A quantity computed from a formula without
    an explicit error is rendered with the error formula that propagation
    gave, in which every symbol with a name [x_err] has given way to
    [\sigma(x)] and every other symbol is as it was, so that no symbol of
    what is rendered has a name ending in [_err]; this for an error formula
    whose symbols have names of which none ends in [_err_err]. *)
Theorem formula_of_assigned val err_arg unit n ln vu eu ig w q w' :
  assign val err_arg unit n ln vu eu ig w = (Ok q, w') →
  (is_Some err_arg ∨ (∀ e, val = VExpr e → is_number e = true) →
     formula (heap w') (Sym (Q q)) = FormulaValueError (default (dummy_name q) n)) ∧
  (∀ e, err_arg = None → val = VExpr e → is_number e = false →
     ∃ propagated ef,
       get_error (heap w) e = Done (propagated, ef) ∧
       (plain_errors (heap w') ef →
          formula (heap w') (Sym (Q q)) =
            FormulaRendered q (with_sigma (heap w') ef) ∧
          ∀ s m, s ∈ free_symbols (with_sigma (heap w') ef) →
                 symbol_name (heap w') s = Some m → ends_err m = false)).
Proof.
  intros Hrun. apply assign_ok_inv in Hrun
    as (rv & re & v & vf & vd & err & ef & Hres & Hval & Herr & -> & ->).
  apply process_value_inv in Hval.
  unfold formula. cbn [as_quantity set_heap heap]. rewrite lookup_insert_eq.
  cbn [error_formula assigned name].
  split.
  - intros [[given ->]|Hl].
    + by apply process_error_given in Herr as (_ & _ & ->).
    + destruct err_arg as [given|].
      * by apply process_error_given in Herr as (_ & _ & ->).
      * assert (vf = None) as ->.
        { destruct val as [e|a].
          - rewrite (Hl e eq_refl) in Hval. by destruct Hval as (c & _ & _ & -> & _).
          - by destruct Hval as (_ & -> & _). }
        by apply process_error_absent in Herr as [_ ->].
  - intros e -> -> Hnum. rewrite Hnum in Hval.
    destruct Hval as (computed & _ & -> & _).
    apply process_error_propagated in Herr as (p & f & Hp & _ & ->).
    exists p, f. split; [done|]. intros Hplain.
    cbn [fmap option_fmap option_map].
    rewrite (sigma_loop_with_sigma _ f Hplain). split; [done|].
    intros s m Hs. apply (with_sigma_no_err _ f s m Hplain).
    by apply elem_of_remove_dups.
Qed.

End Formula.

Section PlotRounds.
Context {D : Domain}.

Lemma plot_rounds_cover_le n (plots : list PlotArg) :
  length plots ≤ n →
  ∃ rest, plots = concat (map round_args (plot_rounds plots)) ++ rest ∧
          length rest ≤ 1 ∧
          Forall (λ r, ∀ o, r.2 = Some o → is_options o = true) (plot_rounds plots).
Proof.
  revert plots. induction n as [|n IH]; intros plots Hlen.
  - destruct plots; [|simpl in Hlen; lia]. exists []. split_and!; [done|simpl; lia|done].
  - destruct plots as [|x [|y [|o rest]]]; simpl.
    + exists []. split_and!; [done|simpl; lia|done].
    + exists [x]. split_and!; [done|simpl; lia|done].
    + exists []. split_and!; [done|simpl; lia|]. constructor; [|done]. by intros.
    + destruct (is_options o) eqn:Ho; simpl.
      * destruct (IH rest) as (r & Hr & Hl & Hall); [simpl in *; lia|].
        exists r. split_and!; [by rewrite Hr at 1|done|].
        constructor; [|done]. simpl. by intros ? [= <-].
      * destruct (IH (o :: rest)) as (r & Hr & Hl & Hall); [simpl in *; lia|].
        exists r. split_and!; [by rewrite Hr at 1|done|].
        constructor; [|done]. by intros.
Qed.

(** The loop of [plot] takes its arguments in order, two or three at a time,
    and leaves out nothing but at most one last argument, which is ignored
    without a word; as options it takes only a dictionary or a string. *)
Theorem plot_rounds_cover (plots : list PlotArg) :
  ∃ rest, plots = concat (map round_args (plot_rounds plots)) ++ rest ∧
          length rest ≤ 1 ∧
          Forall (λ r, ∀ o, r.2 = Some o → is_options o = true) (plot_rounds plots).
Proof. by apply (plot_rounds_cover_le (length plots)). Qed.

End PlotRounds.

(** * The phases of the script *)

Section ScriptPhases.
Context {D : Domain} {Sc : Script}.

Lemma parse_all_ok files trees calls :
  parse_all files = (Ok trees, calls) →
  Forall2 (λ f t, parse_file f = Done t) files trees ∧ calls = CParse <$> files.
Proof.
  revert trees calls. induction files as [|f files IH]; intros trees calls; simpl.
  - intros [= <- <-]. by split.
  - destruct (parse_file f) as [t|c s] eqn:Hf; [|done].
    destruct (parse_all files) as [[ts|e] calls'] eqn:Hrest; [|done].
    intros [= <- <-]. destruct (IH ts calls' eq_refl) as [Hall ->].
    split; [by constructor|done].
Qed.

Lemma parse_all_calls files :
  ∃ done, done `prefix_of` files ∧ (parse_all files).2 = CParse <$> done.
Proof.
  induction files as [|f files (done & Hpre & Hcalls)]; simpl.
  - by exists [].
  - destruct (parse_file f) as [t|c s].
    + destruct (parse_all files) as [r calls]. simpl in *. subst calls.
      exists (f :: done). split; [by apply prefix_cons|done].
    + exists [f]. split; [|done]. by apply prefix_cons, prefix_nil.
Qed.

Lemma interpret_all_ok trees commands calls :
  interpret_all trees = (Ok commands, calls) →
  ∃ each, Forall2 (λ t cs, interpret t = Done cs) trees each ∧
          commands = concat each ∧ calls = CInterpret <$> trees.
Proof.
  revert commands calls. induction trees as [|t trees IH]; intros commands calls; simpl.
  - intros [= <- <-]. by exists [].
  - destruct (interpret t) as [cs|c s] eqn:Ht; [|done].
    destruct (interpret_all trees) as [[more|e] calls'] eqn:Hrest; [|done].
    intros [= <- <-]. destruct (IH more calls' eq_refl) as (each & Hall & -> & ->).
    exists (cs :: each). split_and!; [by constructor|done..].
Qed.

Lemma interpret_all_calls trees :
  ∃ done, done `prefix_of` trees ∧ (interpret_all trees).2 = CInterpret <$> done.
Proof.
  induction trees as [|t trees (done & Hpre & Hcalls)]; simpl.
  - by exists [].
  - destruct (interpret t) as [cs|c s].
    + destruct (interpret_all trees) as [r calls]. simpl in *. subst calls.
      exists (t :: done). split; [by apply prefix_cons|done].
    + exists [t]. split; [|done]. by apply prefix_cons, prefix_nil.
Qed.

Lemma execute_all_calls commands config store :
  ∃ done, done `prefix_of` commands ∧
          (execute_all commands config store).2 = (λ c, CExecute c config) <$> done ∧
          ∀ store', (execute_all commands config store).1 = Ok store' → done = commands.
Proof.
  revert store. induction commands as [|c commands IH]; intros store; simpl.
  - exists []. by split_and!.
  - destruct (execute c config store) as [store1|cl s].
    + destruct (IH store1) as (done & Hpre & Hcalls & Hok).
      destruct (execute_all commands config store1) as [r calls]. simpl in *.
      subst calls. exists (c :: done). split_and!; [by apply prefix_cons|done|].
      intros store' ->. by rewrite (Hok store' eq_refl).
    + exists [c]. split_and!; [by apply prefix_cons, prefix_nil|done..].
Qed.

Lemma run_files_no_input (argv : list string) store :
  length argv < 2 →
  run_files argv store =
  (Raise (Raised ValueErrorC "no input file specified."), []).
Proof. destruct argv as [|script [|first rest]]; simpl; [done..|lia]. Qed.

Lemma run_files_first (argv : list string) store :
  2 ≤ length argv →
  ∃ first rest, argv !! 1 = Some first ∧ (run_files argv store).2 = CParse first :: rest.
Proof.
  destruct argv as [|script [|first rest]]; [simpl; lia..|]. intros _.
  exists first. unfold run_files. cbn [tail parse_all lookup list_lookup].
  destruct (parse_file first) as [t|c s]; [|by eexists].
  destruct (parse_all rest) as [[ts|e] calls]; [|by eexists].
  destruct (interpret_all (t :: ts)) as [[cmds|e] c2]; [|by eexists].
  destruct (execute_all cmds _ store) as [[store'|e] c3]; by eexists.
Qed.

Lemma run_files_executes (argv : list string) store c config :
  CExecute c config ∈ (run_files argv store).2 →
  ∃ trees each,
    Forall2 (λ f t, parse_file f = Done t) (tail argv) trees ∧
    Forall2 (λ t cs, interpret t = Done cs) trees each ∧
    c ∈ concat each ∧
    ∃ first, argv !! 1 = Some first ∧
             config = set_directory (dirname first) standard_config.
Proof.
  destruct argv as [|script [|first rest]]; [by intros ?%elem_of_nil..|].
  unfold run_files. cbn [tail].
  destruct (parse_all_calls (first :: rest)) as (parsed & _ & Hparsed).
  destruct (parse_all (first :: rest)) as [[trees|e] c1] eqn:Hparse; simpl in Hparsed.
  2:{ subst c1. cbn [fst snd]. intros (? & ? & _)%list_elem_of_fmap. done. }
  apply parse_all_ok in Hparse as [Hfiles ->].
  destruct (interpret_all_calls trees) as (interpreted & _ & Hint).
  destruct (interpret_all trees) as [[commands|e] c2] eqn:Hinterpret; simpl in Hint.
  2:{ subst c2. cbn [fst snd]. rewrite elem_of_app.
      intros [(? & ? & _)%list_elem_of_fmap|(? & ? & _)%list_elem_of_fmap]; done. }
  apply interpret_all_ok in Hinterpret as (each & Htrees & -> & ->).
  set (cfg := set_directory (dirname first) standard_config).
  destruct (execute_all_calls (concat each) cfg store)
    as (done & Hpre & Hcalls & _).
  assert (CExecute c config ∈ (execute_all (concat each) cfg store).2 →
          c ∈ concat each ∧ config = cfg) as Hexec.
  { rewrite Hcalls. intros (c' & [= -> ->] & Hin)%list_elem_of_fmap. split; [|done].
    destruct Hpre as [k ->]. apply elem_of_app. by left. }
  destruct (execute_all (concat each) cfg store) as [[store'|e] c3];
    simpl in Hexec; cbn [fst snd]; rewrite !elem_of_app.
  - intros [(? & ? & _)%list_elem_of_fmap|[(? & ? & _)%list_elem_of_fmap|[Hin|Hin]]];
      [done..| |].
    + destruct (Hexec Hin) as [Hc ->]. exists trees, each. split_and!; [done..|].
      by exists first.
    + apply list_elem_of_singleton in Hin. done.
  - intros [(? & ? & _)%list_elem_of_fmap|[(? & ? & _)%list_elem_of_fmap|Hin]];
      [done..|].
    destruct (Hexec Hin) as [Hc ->]. exists trees, each. split_and!; [done..|].
    by exists first.
Qed.


Lemma run_files_generates (argv : list string) store config :
  CGenerate config ∈ (run_files argv store).2 ∨ (run_files argv store).1 = Ok () →
  ∃ trees each,
    Forall2 (λ f t, parse_file f = Done t) (tail argv) trees ∧
    Forall2 (λ t cs, interpret t = Done cs) trees each ∧
    ∃ cfg, (CGenerate config ∈ (run_files argv store).2 → config = cfg) ∧
    (run_files argv store).2 =
      (CParse <$> tail argv) ++ (CInterpret <$> trees) ++
      ((λ c, CExecute c cfg) <$> concat each) ++ [CGenerate cfg].
Proof.
  destruct argv as [|script [|first rest]];
    [by intros [?%elem_of_nil|?]..|].
  unfold run_files. cbn [tail].
  destruct (parse_all_calls (first :: rest)) as (parsed & _ & Hparsed).
  destruct (parse_all (first :: rest)) as [[trees|e] c1] eqn:Hparse; simpl in Hparsed.
  2:{ subst c1. cbn [fst snd]. intros [(? & ? & _)%list_elem_of_fmap|?]; done. }
  apply parse_all_ok in Hparse as [Hfiles ->].
  destruct (interpret_all_calls trees) as (interpreted & _ & Hint).
  destruct (interpret_all trees) as [[commands|e] c2] eqn:Hinterpret; simpl in Hint.
  2:{ subst c2. cbn [fst snd]. rewrite elem_of_app.
      intros [[(? & ? & _)%list_elem_of_fmap|(? & ? & _)%list_elem_of_fmap]|?]; done. }
  apply interpret_all_ok in Hinterpret as (each & Htrees & -> & ->).
  set (cfg := set_directory (dirname first) standard_config).
  destruct (execute_all_calls (concat each) cfg store)
    as (done & Hpre & Hcalls & Hok).
  destruct (execute_all (concat each) cfg store) as [[store'|e] c3];
    simpl in Hcalls, Hok; cbn [fst snd].
  - intros _. rewrite (Hok store' eq_refl) in Hcalls. subst c3.
    exists trees, each. split_and!; [done..|]. exists cfg. split; [|done].
    rewrite !elem_of_app.
    intros [(? & ? & _)%list_elem_of_fmap|[(? & ? & _)%list_elem_of_fmap|
            [(? & ? & _)%list_elem_of_fmap|Hin%list_elem_of_singleton]]];
      [done..|]. by injection Hin.
  - subst c3. rewrite !elem_of_app.
    intros [[(? & ? & _)%list_elem_of_fmap|[(? & ? & _)%list_elem_of_fmap|
             (? & ? & _)%list_elem_of_fmap]]|?]; done.
Qed.


Lemma main_run (argv : list string) store :
  new_output = Done store →
  main argv = ((run_files argv store).1, COutput :: (run_files argv store).2).
Proof. unfold main. intros ->. by destruct (run_files argv store). Qed.

(** The [Output] is constructed before the command line is looked at: that
    call is the first the script makes, whatever the arguments, and an
    exception of it ends the script with nothing else called.  With fewer
    than two arguments nothing else is called either, and the script ends
    with the [ValueError] once the constructor has returned; with two or
    more, the next call is the parse of the first file. *)
Theorem main_no_input (argv : list string) :
  (∃ rest, (main argv).2 = COutput :: rest) ∧
  (∀ c s, new_output = Throw c s → main argv = (Raise (Raised c s), [COutput])) ∧
  (length argv < 2 →
     (main argv).2 = [COutput] ∧
     ∀ store, new_output = Done store →
       (main argv).1 = Raise (Raised ValueErrorC "no input file specified.")) ∧
  (2 ≤ length argv → ∀ store, new_output = Done store →
     ∃ first rest, argv !! 1 = Some first ∧
                   (main argv).2 = COutput :: CParse first :: rest).
Proof.
  split_and!.
  - unfold main. destruct new_output as [store|c s]; [|by eexists].
    destruct (run_files argv store). by eexists.
  - intros c s Hnew. unfold main. by rewrite Hnew.
  - intros Hlen. unfold main. destruct new_output as [store|c s]; [|done].
    rewrite (run_files_no_input argv store Hlen). split; [done|]. by intros.
  - intros Hlen store Hnew. rewrite (main_run argv store Hnew).
    destruct (run_files_first argv store Hlen) as (first & rest & Hfirst & Hcalls).
    exists first, rest. split; [done|]. simpl. by rewrite Hcalls.
Qed.

(** Nothing is executed before everything is parsed and interpreted: if the
    script executes a command at all, every file named on the command line
    has been parsed and every tree interpreted without an exception, the
    command is one that the interpreter returned, and the configuration it
    is given is the standard one with the directory of the first file. *)
Theorem main_executes_after_interpreting (argv : list string) c config :
  CExecute c config ∈ (main argv).2 →
  ∃ trees each,
    Forall2 (λ f t, parse_file f = Done t) (tail argv) trees ∧
    Forall2 (λ t cs, interpret t = Done cs) trees each ∧
    c ∈ concat each ∧
    ∃ first, argv !! 1 = Some first ∧
             config = set_directory (dirname first) standard_config.
Proof.
  unfold main. destruct new_output as [store|cl s].
  - pose proof (run_files_executes argv store c config) as H.
    destruct (run_files argv store) as [r calls]. simpl in *.
    intros [[=]|Hin]%elem_of_cons. by apply H.
  - simpl. intros [[=]|?%elem_of_nil]%elem_of_cons. done.
Qed.

(** The output is generated last and only after every command has been
    executed: if [generate] is called, the calls before it are the
    construction of the [Output], the parses of all the files in the order
    of the command line, then the interpretations of all the trees, then the
    executions of all the commands in the order the interpreter returned
    them; a run that ends without an exception is such a run. *)
Theorem main_generates_last (argv : list string) config :
  CGenerate config ∈ (main argv).2 ∨ (main argv).1 = Ok () →
  ∃ trees each,
    Forall2 (λ f t, parse_file f = Done t) (tail argv) trees ∧
    Forall2 (λ t cs, interpret t = Done cs) trees each ∧
    ∃ cfg, (CGenerate config ∈ (main argv).2 → config = cfg) ∧
    (main argv).2 =
      COutput :: (CParse <$> tail argv) ++ (CInterpret <$> trees) ++
      ((λ c, CExecute c cfg) <$> concat each) ++ [CGenerate cfg].
Proof.
  unfold main. destruct new_output as [store|cl s].
  - pose proof (run_files_generates argv store config) as H.
    destruct (run_files argv store) as [r calls]. simpl in *.
    intros Hrun.
    destruct H as (trees & each & Hparse & Hint & cfg & Hcfg & ->).
    { destruct Hrun as [[[=]|Hin]%elem_of_cons|Hok]; [by left|by right]. }
    exists trees, each. split_and!; [done..|]. exists cfg. split; [|done].
    intros [[=]|Hin]%elem_of_cons. by apply Hcfg.
  - simpl. intros [[[=]|?%elem_of_nil]%elem_of_cons|?]; done.
Qed.

End ScriptPhases.

(** * The theorems on a script *)

Module Examples.
Import Demo.
Local Open Scope Z_scope.

(** C1 on the script: [assign(h*t, unit="km", ignore_dim=True)] stores the
    computed values times 1000 with the dimension of the kilometre. *)
Lemma assign_formula_value_witness :
  ∃ o, heap (assign (VExpr (Mul (Sym (Q h)) (Sym (Q t)))) None (Some kilometre)
               None None None None true world_h).2 !! 2%nat = Some o ∧
       value o = Some (array [3%nat] [2000; 8000; 18000]) ∧
       dim o = Some length_dim.
Proof.
  destruct (assign_formula_value (D := domain) (E := engine) (Mul (Sym (Q h)) (Sym (Q t))) None (Some kilometre)
              None None None None true world_h
              in_kilometres
              in_kilometres
              eq_refl eq_refl) as (Hok & _).
  destruct (Hok 2%nat _ eq_refl) as (o & val & Ho & Hval & _ & Hv & Hd).
  exists o. split; [exact Ho|]. split; [|exact Hd].
  vm_compute in Hval. injection Hval as <-. exact Hv.
Defined.

(** C1 as stated fails: [assign(h*h, ignore_dim=True)] with no unit gives a
    dimensionless quantity although the computed dimension is length squared. *)
Lemma assign_formula_dimension_counterexample :
  ¬ (∀ (e : Expr) (ignore_dim : bool) (w : World) (q : loc) (w' : World) (cd : Dim),
       is_number e = false →
       assign (VExpr e) None None None None None None ignore_dim w = (Ok q, w') →
       get_dimension (heap w) e = Done cd →
       dim <$> heap w' !! q = Some (Some cd)).
Proof.
  intros H.
  specialize (H (Mul (Sym (Q h)) (Sym (Q h))) true world_h 2%nat _ area_dim
                eq_refl eq_refl eq_refl).
  vm_compute in H. discriminate H.
Qed.

(** C2 on the grid: a (4,) error in kilometres is stored as three copies of
    the row, in metres; a (3,) error is refused with both shapes. *)
Lemma assign_error_broadcast_witness :
  (∃ q w' o,
     assign (VNum grid) (Some per_column) (Some kilometre) None None None None false
       world_h = (Ok q, w') ∧ heap w' !! q = Some o ∧
     error o = Some (array [3%nat; 4%nat]
                       [1000; 2000; 3000; 4000; 1000; 2000; 3000; 4000;
                        1000; 2000; 3000; 4000])) ∧
  assign (VNum grid) (Some per_row) (Some kilometre) None None None None false
    world_h = (Raise (RuntimeError (ShapeMismatch [3%nat; 4%nat] [3%nat])), world_h).
Proof.
  split.
  - destruct (assign_error_broadcast (D := domain) (E := engine) (VNum grid)
                per_column (Some kilometre) None None None None false world_h
                in_kilometres in_kilometres (scale (factor in_kilometres) grid) None
                length_dim eq_refl eq_refl eq_refl)
      as (_ & _ & H34 & _).
    exact (H34 eq_refl eq_refl).
  - destruct (assign_error_broadcast (D := domain) (E := engine) (VNum grid)
                per_row (Some kilometre) None None None None false world_h
                in_kilometres in_kilometres (scale (factor in_kilometres) grid) None
                length_dim eq_refl eq_refl eq_refl)
      as (_ & _ & _ & H3).
    exact (H3 eq_refl eq_refl).
Defined.

(** C3 on the script: a value in metres with an error in seconds is refused. *)
Lemma assign_unit_consistency_witness :
  assign (VNum grid) (Some per_column) None None None (Some metre)
    (Some second) false world_h =
  (Raise (RuntimeError (UnitDimensionMismatch length_dim time_dim)), world_h).
Proof.
  destruct (assign_unit_consistency (D := domain) (E := engine) (VNum grid) (Some per_column) None None false world_h)
    as (H & _).
  apply (H metre second 1 length_dim metre 1 time_dim second
           eq_refl eq_refl).
  discriminate.
Defined.

(** The error of [assign] on the script:
    [assign(h*t, unit="km", ignore_dim=True)] stores the propagated error
    times 1000; [assign(grid, error=per_column, unit="km")]
    stores the four errors times 1000, three times over, and no error
    formula; [assign(h*h, value_unit="km", ignore_dim=True)] stores the
    propagated error as it is. *)
Lemma assign_error_source_witness :
  (∃ o, heap (assign (VExpr (Mul (Sym (Q h)) (Sym (Q t)))) None (Some kilometre)
                None None None None true world_h).2 !! 2%nat = Some o ∧
        error o = Some (array [3%nat] [1000; 2000; 3000]) ∧
        is_Some (error_formula o)) ∧
  (∃ o, heap (assign (VNum grid) (Some per_column) (Some kilometre)
                None None None None false world_h).2 !! 2%nat = Some o ∧
        error o = Some (array [3%nat; 4%nat]
                          [1000; 2000; 3000; 4000; 1000; 2000; 3000; 4000;
                           1000; 2000; 3000; 4000]) ∧
        error_formula o = None) ∧
  (∃ o, heap (assign (VExpr (Mul (Sym (Q h)) (Sym (Q h)))) None None
                None None (Some kilometre) None true world_h).2 !! 2%nat = Some o ∧
        error o = Some (array [3%nat] [4; 8; 12])).
Proof.
  split_and!.
  - destruct (assign_error_source (D := domain) (E := engine)
                (VExpr (Mul (Sym (Q h)) (Sym (Q t)))) None
                (Some kilometre) None None None None true world_h 2%nat _ eq_refl)
      as (o & rv & re & val & Ho & Hres & _ & _ & Hprop & _).
    destruct (Hprop _ eq_refl eq_refl eq_refl) as (p & f & Hp & He & Hf).
    exists o. split; [exact Ho|].
    vm_compute in Hres. injection Hres as <- <-.
    vm_compute in Hp. injection Hp as <- <-.
    split; [exact He|]. rewrite Hf. by eexists.
  - destruct (assign_error_source (D := domain) (E := engine)
                (VNum grid) (Some per_column)
                (Some kilometre) None None None None false world_h 2%nat _ eq_refl)
      as (o & rv & re & val & Ho & Hres & Hval & Hgiven & _).
    destruct (Hgiven per_column eq_refl) as (Hf & Hdata).
    destruct (Hdata eq_refl) as (lead & Hlead & He).
    exists o. split; [exact Ho|]. split; [|exact Hf].
    vm_compute in Hres. injection Hres as <- <-.
    vm_compute in Ho. injection Ho as <-.
    vm_compute in Hval. injection Hval as <-.
    destruct (app_inj_tail lead [3%nat] 4%nat 4%nat (eq_sym Hlead)) as [-> _].
    exact He.
  - destruct (assign_error_source (D := domain) (E := engine)
                (VExpr (Mul (Sym (Q h)) (Sym (Q h)))) None None
                None None (Some kilometre) None true world_h 2%nat _ eq_refl)
      as (o & rv & re & val & Ho & Hres & _ & _ & Hprop & _).
    destruct (Hprop _ eq_refl eq_refl eq_refl) as (p & f & Hp & He & _).
    exists o. split; [exact Ho|].
    vm_compute in Hres. injection Hres as <- <-.
    vm_compute in Hp. injection Hp as <- <-.
    exact He.
Defined.

(** C4 at [assign(h*h, value_unit="km", ignore_dim=True)], the heights being
    2, 4, 6 with error 1: the computed values 4, 16, 36 are stored times 1000
    and their propagated errors 4, 8, 12 times 1, the error factor having
    stayed 1; the same call with [unit="km"] stores both times 1000. *)
Lemma propagated_error_not_rescaled :
  value <$> heap (assign (VExpr (Mul (Sym (Q h)) (Sym (Q h)))) None None None None
                    (Some kilometre) None true world_h).2 !! 2%nat =
    Some (Some (array [3%nat] [4000; 16000; 36000])) ∧
  error <$> heap (assign (VExpr (Mul (Sym (Q h)) (Sym (Q h)))) None None None None
                    (Some kilometre) None true world_h).2 !! 2%nat =
    Some (Some (array [3%nat] [4; 8; 12])) ∧
  value <$> heap (assign (VExpr (Mul (Sym (Q h)) (Sym (Q h)))) None (Some kilometre)
                    None None None None true world_h).2 !! 2%nat =
    Some (Some (array [3%nat] [4000; 16000; 36000])) ∧
  error <$> heap (assign (VExpr (Mul (Sym (Q h)) (Sym (Q h)))) None (Some kilometre)
                    None None None None true world_h).2 !! 2%nat =
    Some (Some (array [3%nat] [4000; 8000; 12000])) ∧
  get_value (heap world_h) (Mul (Sym (Q h)) (Sym (Q h))) =
    Done (array [3%nat] [4; 16; 36]) ∧
  ∃ formula, get_error (heap world_h) (Mul (Sym (Q h)) (Sym (Q h))) =
               Done (array [3%nat] [4; 8; 12], formula).
Proof.
  split_and!; try (vm_compute; reflexivity). eexists. reflexivity.
Qed.

(** C5 on the script: [fit(v*t, t, h, [v])] calls the solver once and [v]
    ends with the dimension of a velocity. *)
Lemma fit_solves_dimensions_once_witness :
  solver_calls (trace (fit_velocity false world_v).2) = 1%nat ∧
  ∃ o, heap (fit_velocity false world_v).2 !! v = Some o ∧
       dim o = Some (1, 0, -1) ∧ prefer_unit o = None.
Proof.
  assert (Hsyms : ∀ s, s ∈ free_symbols (D := domain) (Mul (Sym (Q v)) (Sym (Q t))) →
                  ∃ q, s = Q q ∧ is_Some (heap world_v !! q)).
  { intros s Hs. vm_compute in Hs. apply list_elem_of_In in Hs.
    destruct Hs as [<-|[<-|[]]]; eexists; (split; [reflexivity|]);
      vm_compute; by eexists. }
  destruct (fit_solves_dimensions_once (D := domain) (E := engine)
              (Mul (Sym (Q v)) (Sym (Q t))) (XOne (Sym (Q t))) (Sym (Q h)) [v] None
              no_options world_v (Mul (Sym (Q v)) (Sym (Q t))) [Sym (Q t)] h world_v
              _ None eq_refl eq_refl eq_refl ltac:(discriminate) Hsyms)
    as (known & Hknown & Hcalls & _ & Hsolved).
  split; [exact Hcalls|].
  vm_compute in Hknown. injection Hknown as <-.
  destruct (Hsolved _ eq_refl) as (w3 & _ & Hdims & _).
  { intros q o Hq Ho. vm_compute in Hq. apply list_elem_of_In in Hq.
    destruct Hq as [[= <-]|[[= <-]|[]]]; vm_compute in Ho; injection Ho as <-;
      vm_compute; by eexists. }
  destruct (Hdims v _ ltac:(vm_compute; apply list_elem_of_In; by left) eq_refl)
    as (o' & Ho' & Hd & Hu).
  exists o'. split; [exact Ho'|].
  vm_compute in Hd. injection Hd as Hd.
  assert (dim o' = Some (1, 0, -1)) as Hd' by (symmetry; exact Hd).
  split; [exact Hd'|]. rewrite Hu, Hd'. reflexivity.
Defined.

Lemma step_world_t : step empty_world world_t.
Proof.
  apply (step_assign (D := domain) (E := engine) (VNum (array [3%nat] [1; 2; 3])) None (Some second)
           (Some "t"%string) None None None false empty_world (Ok t) world_t).
  vm_compute. reflexivity.
Qed.

Lemma step_world_h : step world_t world_h.
Proof.
  apply (step_assign (D := domain) (E := engine) (VNum (array [3%nat] [2; 4; 6])) (Some (scalar (D := domain) 1)) (Some metre)
           (Some "h"%string) None None None false world_t (Ok h) world_h).
  vm_compute. reflexivity.
Qed.

Lemma step_world_v : step world_h world_v.
Proof.
  apply (step_params (D := domain) (E := engine) ["v"%string] 2 world_h
           (Ok ([v], {| pending := [] |})) world_v).
  vm_compute. reflexivity.
Qed.

Lemma step_world_fitted : step world_v world_fitted.
Proof.
  apply (step_fit (D := domain) (E := engine) (Mul (Sym (Q v)) (Sym (Q t))) (XOne (Sym (Q t))) (Sym (Q h)) [v]
           None no_options true world_v (Ok "table"%string) world_fitted).
  vm_compute. reflexivity.
Qed.

Lemma reachable_world_fitted : reachable world_fitted.
Proof.
  unfold reachable.
  eapply rtc_l; [exact step_world_t|].
  eapply rtc_l; [exact step_world_h|].
  eapply rtc_l; [exact step_world_v|].
  apply rtc_once. exact step_world_fitted.
Qed.

(** C6 on the script: after the fit every formula is absent, an expression
    or ["fit"]. *)
Lemma formula_attributes_witness : formulas_ok world_fitted.
Proof. exact (proj1 (formula_attributes world_fitted reachable_world_fitted)). Defined.

(** C6 as stated fails: after [fit(v*t, t, h, [v], ignore_dim=True)] the
    value formula of [v] is the string ["fit"]. *)
Lemma value_formula_fit_counterexample :
  ¬ (∀ w, reachable w →
       ∀ l o s, heap w !! l = Some o → value_formula o ≠ Some (FStr s)).
Proof.
  intros H.
  refine (H world_fitted reachable_world_fitted v _ "fit"%string eq_refl _).
  reflexivity.
Qed.

(** C7 on the script: [t] is the same object after [h] is assigned. *)
Lemma assign_frame_witness : heap world_h !! t = heap world_t !! t.
Proof.
  destruct (assign_frame (D := domain) (E := engine)
              (VNum (array [3%nat] [2; 4; 6])) (Some (scalar (D := domain) 1)) (Some metre)
              (Some "h"%string) None None None false world_t) as (H & _).
  exact (H t _ eq_refl).
Defined.

Lemma engines_same_up_to_units : same_up_to_units engine engine'.
Proof.
  split; [|by repeat split]. intros u. simpl. unfold unit_table.
  repeat case_bool_decide; reflexivity.
Defined.

(** The preferred unit on the script: with canonical units spelled
    differently, heights in
    kilometres are assigned the same value, error and dimension; the three
    heights are stored times 1000, and so is their error, three times over;
    the preferred unit is the kilometre. *)
Lemma prefer_unit_is_metadata_witness :
  (without_unit <$>
     heap (assign (E := engine) (VNum (array [3%nat] [2; 4; 6]))
             (Some (scalar (D := domain) 1)) (Some kilometre) (Some "h"%string)
             None None None false world_t).2 !! h =
   without_unit <$>
     heap (assign (E := engine') (VNum (array [3%nat] [2; 4; 6]))
             (Some (scalar (D := domain) 1)) (Some kilometre) (Some "h"%string)
             None None None false world_t).2 !! h) ∧
  ∃ o, heap (assign (E := engine) (VNum (array [3%nat] [2; 4; 6]))
               (Some (scalar (D := domain) 1)) (Some kilometre) (Some "h"%string)
               None None None false world_t).2 !! h = Some o ∧
       value o = Some (array [3%nat] [2000; 4000; 6000]) ∧
       error o = Some (array [3%nat] [1000; 1000; 1000]) ∧
       prefer_unit o = Some kilometre.
Proof.
  destruct (prefer_unit_is_metadata (D := domain) engine engine'
              (VNum (array [3%nat] [2; 4; 6])) (Some (scalar (D := domain) 1))
              (Some kilometre) (Some "h"%string) None None None false world_t)
    as (Hprefer & Hsame & Hstored).
  split; [exact (proj2 (Hsame engines_same_up_to_units) h)|].
  destruct (Hstored h _ eq_refl)
    as (o & rv & re & val & Hres & Ho & Hval & Hnum & _ & _ & Hgiven & _).
  destruct (Hgiven (scalar (D := domain) 1) eq_refl eq_refl) as (lead & Hlead & He).
  destruct (Hprefer h _ eq_refl) as (o' & Ho' & Hunit & _).
  destruct (Hunit kilometre (or_introl eq_refl)) as (f & d & c & Hparse & Hc).
  exists o. split; [exact Ho|].
  rewrite Ho in Ho'. injection Ho' as <-.
  vm_compute in Hparse. injection Hparse as <- <- <-.
  vm_compute in Hres. injection Hres as <- <-.
  rewrite (Hnum _ eq_refl) in Hval, Hlead. simpl in Hlead.
  rewrite app_nil_r in Hlead. subst lead.
  split; [exact Hval|]. split; [|exact Hc].
  rewrite (Hnum _ eq_refl) in He. exact He.
Defined.

(** C8 at [assign(h*t, value_unit="km", ignore_dim=True)], the heights being
    2, 4, 6 with error 1 and the times 1, 2, 3: the quantity prefers the
    kilometre, its values 2, 8, 18 are stored times 1000, in metres, and
    their propagated errors 1, 2, 3 are stored as they are, which is in
    kilometres. *)
Lemma propagated_error_in_display_unit :
  prefer_unit <$> heap (assign (VExpr (Mul (Sym (Q h)) (Sym (Q t)))) None None None
                          None (Some kilometre) None true world_h).2 !! 2%nat =
    Some (Some kilometre) ∧
  value <$> heap (assign (VExpr (Mul (Sym (Q h)) (Sym (Q t)))) None None None None
                    (Some kilometre) None true world_h).2 !! 2%nat =
    Some (Some (array [3%nat] [2000; 8000; 18000])) ∧
  error <$> heap (assign (VExpr (Mul (Sym (Q h)) (Sym (Q t)))) None None None None
                    (Some kilometre) None true world_h).2 !! 2%nat =
    Some (Some (array [3%nat] [1; 2; 3])) ∧
  get_value (heap world_h) (Mul (Sym (Q h)) (Sym (Q t))) =
    Done (array [3%nat] [2; 8; 18]) ∧
  ∃ formula, get_error (heap world_h) (Mul (Sym (Q h)) (Sym (Q t))) =
               Done (array [3%nat] [1; 2; 3], formula).
Proof.
  split_and!; try (vm_compute; reflexivity). eexists. reflexivity.
Qed.

(** C9 on the script: heights with only an error unit, the kilometre, make
    a dimensionless quantity that prefers kilometres; the heights are stored
    as given and the one error times 1000, three times over. *)
Lemma assign_error_unit_only_witness :
  ∃ o, heap (assign (VNum (array [3%nat] [2; 4; 6])) (Some (scalar (D := domain) 1))
               None None None None (Some kilometre) false world_t).2 !! 1%nat = Some o ∧
       dim o = Some dimensionless ∧ prefer_unit o = Some kilometre ∧
       value o = Some (array [3%nat] [2; 4; 6]) ∧
       error o = Some (array [3%nat] [1000; 1000; 1000]).
Proof.
  destruct (assign_error_unit_only (D := domain) (E := engine)
              (VNum (array [3%nat] [2; 4; 6])) (Some (scalar (D := domain) 1)) None None
              kilometre false world_t 1000 length_dim kilometre eq_refl
              ltac:(discriminate))
    as (_ & H & _).
  destruct (H 1%nat _ eq_refl) as (o & val & Ho & Hval & Hd & Hu & Hnum & Hgiven).
  destruct (Hgiven (scalar (D := domain) 1) eq_refl eq_refl) as (lead & Hlead & He).
  exists o. split; [exact Ho|]. split; [exact Hd|]. split; [exact Hu|].
  rewrite (Hnum _ eq_refl) in Hval, Hlead, He. simpl in Hlead.
  rewrite app_nil_r in Hlead. subst lead.
  split; [exact Hval|exact He].
Defined.

(** C10 on two quantities: the second of two equal calls returns [y] where
    the first returned [x]. *)
Lemma find_all_dependencies_default_shared_witness :
  ∃ r w', find_all_dependencies_default (D := domain) 3 (Sym (Q 1%nat)) 0%nat
            two_quantities = Some (r, w').
Proof.
  destruct (find_all_dependencies_default_shared (D := domain)) as (H & _).
  exact (H (Sym (Q 1%nat)) 0%nat two_quantities).
Defined.

End Examples.

(** * More of the script *)

Module Scenarios.
Import Demo.
Local Open Scope Z_scope.

(** An error of shape (1,) for a scalar value is refused. *)
Lemma assign_error_more_axes_witness :
  assign (VNum (scalar (D := domain) 5)) (Some (array [1%nat] [1])) None None None
    None None false world_h =
  (Raise (RuntimeError (ShapeMismatch [] [1%nat])), world_h).
Proof.
  apply (assign_error_more_axes (D := domain) (E := engine)
           (VNum (scalar (D := domain) 5)) (array [1%nat] [1]) None None None None None
           false world_h no_unit no_unit (scalar (D := domain) 5) None (0, 0, 0)
           eq_refl eq_refl).
  simpl. lia.
Defined.

Lemma engine_same_but_get_dimension :
  same_but_get_dimension engine engine_without_dimension.
Proof. by split_and!. Qed.

Lemma engine_same_but_get_error : same_but_get_error engine engine_without_error.
Proof. by split_and!. Qed.

(** [assign(h*t, ignore_dim=True)] goes the same way when the dimension
    evaluation is out of order. *)
Lemma assign_ignore_dim_skips_dimension_witness :
  assign (E := engine) (VExpr (Mul (Sym (Q h)) (Sym (Q t)))) None None None None
    None None true world_h =
  assign (E := engine_without_dimension) (VExpr (Mul (Sym (Q h)) (Sym (Q t)))) None
    None None None None None true world_h.
Proof.
  apply (assign_ignore_dim_skips_dimension (D := domain) engine
           engine_without_dimension (VExpr (Mul (Sym (Q h)) (Sym (Q t)))) None None
           None None None None world_h).
  repeat split; reflexivity.
Defined.

(** [assign(h*t, error=1)] goes the same way when the error propagation is
    out of order. *)
Lemma assign_explicit_error_skips_propagation_witness :
  assign (E := engine) (VExpr (Mul (Sym (Q h)) (Sym (Q t))))
    (Some (scalar (D := domain) 1)) None None None None None false world_h =
  assign (E := engine_without_error) (VExpr (Mul (Sym (Q h)) (Sym (Q t))))
    (Some (scalar (D := domain) 1)) None None None None None false world_h.
Proof.
  apply (assign_explicit_error_skips_propagation (D := domain) engine
           engine_without_error (VExpr (Mul (Sym (Q h)) (Sym (Q t))))
           (scalar (D := domain) 1) None None None None None false world_h).
  repeat split; reflexivity.
Defined.

(** [a, b = params("a\x1cb")], the two names parted by the separator 0x1c:
    two quantities are made, and the generator has nothing left. *)
Lemma params_placeholders_witness :
  ∃ ls w',
    take_items 3 (params [separated_names]) world_h =
      (Ok (ls, {| pending := [] |}), w') ∧
    length ls = 2%nat ∧
    (∀ l, ls !! 0%nat = Some l → heap w' !! l = Some (bare_quantity "a")) ∧
    (∀ l, ls !! 1%nat = Some l → heap w' !! l = Some (bare_quantity "b")).
Proof.
  destruct (params_placeholders (D := domain) (E := engine)
              [separated_names] 3 world_h)
    as (_ & _ & ls & w' & Hrun & Hlen & _ & _ & Hat & _).
  exists ls, w'. split; [exact Hrun|]. split; [exact Hlen|].
  split; intros l Hl.
  - exact (Hat 0%nat l "a"%string Hl eq_refl).
  - exact (Hat 1%nat l "b"%string Hl eq_refl).
Defined.

(** [fit(v*t, t, h, [v], xvar=(t, t))] fails the assertion. *)
Lemma fit_xvar_length_witness :
  fit (E := engine) (Mul (Sym (Q v)) (Sym (Q t))) (XOne (Sym (Q t))) (Sym (Q h)) [v]
    (Some (XSeq (PyTuple [Sym (Q t); Sym (Q t)]))) no_options false world_v =
  (Raise AssertionError, world_v).
Proof.
  apply (fit_xvar_length (D := domain) (E := engine) (Mul (Sym (Q v)) (Sym (Q t)))
           (XOne (Sym (Q t))) (Sym (Q h)) [v] (XSeq (PyTuple [Sym (Q t); Sym (Q t)]))
           no_options false world_v).
  simpl. lia.
Defined.

(** [fit(v*t*t, t*t, h, [v])] makes the quantity for [t*t] and then ends with
    the [TypeError]. *)
Lemma fit_tuple_xdata_witness :
  fit (E := engine) (Mul (Sym (Q v)) (Mul (Sym (Q t)) (Sym (Q t))))
    (XOne (Mul (Sym (Q t)) (Sym (Q t)))) (Sym (Q h)) [v] None no_options false world_v =
  (Raise TypeError, world_squared).
Proof.
  destruct (fit_tuple_xdata (D := domain) (E := engine)
              (Mul (Sym (Q v)) (Mul (Sym (Q t)) (Sym (Q t))))
              (XOne (Mul (Sym (Q t)) (Sym (Q t)))) (Sym (Q h)) [v] None no_options
              false world_v eq_refl) as [_ H].
  apply (H (Mul (Sym (Q t)) (Sym (Q t))) 3%nat world_squared eq_refl eq_refl eq_refl).
  vm_compute. reflexivity.
Defined.

(** A second [fit(v*t, t, h, [v])] finds the dimensions in agreement and
    makes no call of the solver. *)
Lemma fit_dimensions_agree_witness :
  solver_calls (trace (fit_velocity false world_solved).2) =
  solver_calls (trace world_solved).
Proof.
  assert (fit_prepare (E := engine) (Mul (Sym (Q v)) (Sym (Q t))) (XOne (Sym (Q t)))
            (Sym (Q h)) None world_solved =
          (Ok (Mul (Sym (Q v)) (Sym (Q t)), [Sym (Q t)], h), world_solved)) as Hprepare
    by (vm_compute; reflexivity).
  assert (heap world_solved !! h = Some quantity_h) as Hh by (vm_compute; reflexivity).
  assert (get_dimension (heap world_solved) (Mul (Sym (Q v)) (Sym (Q t))) =
          Done length_dim) as Hdim by (vm_compute; reflexivity).
  exact (proj2 (fit_dimensions_agree (D := domain) (E := engine)
                  (Mul (Sym (Q v)) (Sym (Q t))) (XOne (Sym (Q t))) (Sym (Q h)) [v] None
                  no_options world_solved (Mul (Sym (Q v)) (Sym (Q t))) [Sym (Q t)] h
                  world_solved quantity_h length_dim Hprepare Hh Hdim eq_refl)).
Defined.

(** After [fit(v*t, t, h, [v], ignore_dim=True)] the parameter [v] holds what
    the backend returned for it. *)
Lemma fit_results_saved_witness :
  ∃ o, heap world_fitted !! v = Some o ∧
       value o = Some (scalar (D := domain) 1) ∧
       error o = Some (scalar (D := domain) 0).
Proof.
  assert (fit_velocity true world_v = (Ok "table"%string, world_fitted)) as Hrun
    by (vm_compute; reflexivity).
  assert (NoDup [v]) as Hnd by (apply NoDup_singleton).
  destruct (fit_results_saved (D := domain) (E := engine)
              (Mul (Sym (Q v)) (Sym (Q t))) (XOne (Sym (Q t))) (Sym (Q h)) [v] None
              no_options true world_v "table"%string world_fitted Hrun Hnd)
    as (func' & xs & y & w2 & values & errors & Hfit & Hps & _).
  destruct (Hps 0%nat v eq_refl) as (o & Ho & Hv & He & _).
  cbv in Hfit. injection Hfit as <- <-.
  exists o. split; [exact Ho|]. split; [exact Hv|exact He].
Defined.

(** With a backend that returns no values for the one parameter, the fit
    ends in the [IndexError]. *)
Lemma fit_finish_short_results_witness :
  (fit_finish (E := engine_short_fit) (Mul (Sym (Q v)) (Sym (Q t))) [Sym (Q t)] h [v]
     no_options world_v).1 = Raise IndexError.
Proof.
  apply (fit_finish_short_results (D := domain) (E := engine_short_fit)
           (Mul (Sym (Q v)) (Sym (Q t))) [Sym (Q t)] h [v] no_options world_v [] []
           eq_refl).
  - intros p Hp. apply list_elem_of_singleton in Hp. subst p.
    vm_compute. by eexists.
  - left. simpl. lia.
Defined.

(** With a solver that answers with an empty dictionary, storing the
    dimensions ends in a [KeyError]. *)
Lemma solve_dimensions_missing_name_witness :
  ∃ n, (solve_dimensions (E := engine_forgetful_solver) (Mul (Sym (Q v)) (Sym (Q t)))
          h (Some length_dim) ∅ world_v).1 = Raise (KeyError n).
Proof.
  destruct (solve_dimensions_missing_name (D := domain) (E := engine_forgetful_solver)
              (Mul (Sym (Q v)) (Sym (Q t))) h (Some length_dim) ∅ world_v ∅ eq_refl)
    as (n & Hn & _).
  - intros s Hs. vm_compute in Hs. apply list_elem_of_In in Hs.
    destruct Hs as [<-|[<-|[]]]; eexists _, _; (split; [reflexivity|]);
      vm_compute; reflexivity.
  - exists v, (bare_quantity "v"). split_and!.
    + vm_compute. apply list_elem_of_In. by left.
    + vm_compute. reflexivity.
    + reflexivity.
  - by exists n.
Defined.

(** In the fitted world [v*t] has only leaves: the parameter [v], whose value
    formula is the string, and the measured [t]. *)
Lemma find_all_dependencies_leaves_witness :
  find_all_dependencies (D := domain) 1 (heap world_fitted)
    (Mul (Sym (Q v)) (Sym (Q t))) t [] =
  Some (Ok (Mul (Sym (Q v)) (Sym (Q t))), []).
Proof.
  apply (find_all_dependencies_leaves (D := domain) 0 (heap world_fitted)
           (Mul (Sym (Q v)) (Sym (Q t))) t []).
  intros s Hs. vm_compute in Hs. apply list_elem_of_In in Hs.
  destruct Hs as [<-|[<-|[]]]; eexists _, _; (split; [reflexivity|]);
    (split; [vm_compute; reflexivity|]); intros f; discriminate.
Defined.

(** [y = x] is unpacked to [x] when [x] is looked for, and left as [y] when
    [y] itself is. *)
Lemma find_all_dependencies_one_level_witness :
  find_all_dependencies (D := domain) 2 (heap two_quantities) (Sym (Q 1%nat)) 0%nat [] =
    Some (Ok (Sym (Q 0%nat)), [1%nat]) ∧
  find_all_dependencies (D := domain) 2 (heap two_quantities) (Sym (Q 1%nat)) 1%nat [] =
    Some (Ok (Sym (Q 1%nat)), [1%nat]).
Proof.
  assert (∀ s, s ∈ free_symbols (D := domain) (Sym (Q 0%nat)) →
            s = Q 1%nat ∨
            ∃ q o', s = Q q ∧ heap two_quantities !! q = Some o' ∧
                    ∀ f, value_formula o' ≠ Some (FExpr f)) as Hleaves.
  { intros s Hs. vm_compute in Hs. apply list_elem_of_In in Hs.
    destruct Hs as [<-|[]]. right. exists 0%nat, (bare_quantity "x").
    split; [reflexivity|]. split; [vm_compute; reflexivity|]. intros f. discriminate. }
  assert (1%nat ∉ ([] : list loc)) as Hnot by (apply not_elem_of_nil).
  split.
  - apply (find_all_dependencies_one_level (D := domain) 0 (heap two_quantities)
             1%nat (formula_quantity "y" (Sym (Q 0%nat))) (Sym (Q 0%nat)) 0%nat []
             eq_refl eq_refl Hnot Hleaves).
  - apply (find_all_dependencies_one_level (D := domain) 0 (heap two_quantities)
             1%nat (formula_quantity "y" (Sym (Q 0%nat))) (Sym (Q 0%nat)) 1%nat []
             eq_refl eq_refl Hnot Hleaves).
Defined.

(** After [plot(x, y)] for [y = x], the same pair is taken as a data set. *)
Lemma find_all_dependencies_second_call_witness :
  plot_kind (D := domain) 1 (Sym (Q 0%nat)) (Sym (Q 1%nat)) two_quantities_ignored =
  Some (Ok PlotDataSet, two_quantities_ignored).
Proof.
  assert (find_all_dependencies_default (D := domain) 3 (Sym (Q 1%nat)) 0%nat
            two_quantities = Some (Ok (Sym (Q 0%nat)), two_quantities_ignored)) as Hfirst
    by (vm_compute; reflexivity).
  exact (proj2 (find_all_dependencies_second_call (D := domain) 3 0 (Sym (Q 1%nat))
                  0%nat two_quantities (Sym (Q 0%nat)) two_quantities_ignored Hfirst)).
Defined.

(** [formula(v)] after the fit is the string. *)
Lemma formula_of_fit_parameter_witness :
  formula (D := domain) (heap world_fitted) (Sym (Q v)) = FormulaString "fit".
Proof.
  assert (fit_velocity true world_v = (Ok "table"%string, world_fitted)) as Hrun
    by (vm_compute; reflexivity).
  assert (v ∈ [v]) as Hv by (apply list_elem_of_singleton; reflexivity).
  exact (formula_of_fit_parameter (D := domain) (E := engine)
           (Mul (Sym (Q v)) (Sym (Q t))) (XOne (Sym (Q t))) (Sym (Q h)) [v] None
           no_options true world_v "table"%string world_fitted v Hrun Hv).
Defined.

(** [formula(h)] for the measured [h], which was given its error, raises the
    [ValueError] that names it; [formula(assign(h*t))] renders the propagated
    formula with [\sigma(h)] where the symbol [h_err] was. *)
Lemma formula_of_assigned_witness :
  formula (D := domain) (heap world_h) (Sym (Q h)) = FormulaValueError "h" ∧
  formula (D := domain) (heap world_product) (Sym (Q 2%nat)) =
  FormulaRendered 2%nat
    (Fn "sqrt"
       (Add (Num 0)
          (Pow (Mul (Fn "\sigma" (Sym (V "h")))
                  (Add (Mul (Num 1) (Sym (Q t))) (Mul (Sym (Q h)) (Num 0))))
             (Num 2)))).
Proof.
  split.
  - assert (assign_h world_t = (Ok h, world_h)) as Hrun by (vm_compute; reflexivity).
    destruct (formula_of_assigned (D := domain) (E := engine)
                (VNum (array [3%nat] [2; 4; 6])) (Some (scalar (D := domain) 1))
                (Some metre) (Some "h"%string) None None None false world_t h world_h
                Hrun)
      as [H _].
    apply H. left. by eexists.
  - assert (assign_product world_h = (Ok 2%nat, world_product)) as Hrun
      by (vm_compute; reflexivity).
    destruct (formula_of_assigned (D := domain) (E := engine)
                (VExpr (Mul (Sym (Q h)) (Sym (Q t)))) None None None None None None
                false world_h 2%nat world_product Hrun)
      as [_ H].
    destruct (H (Mul (Sym (Q h)) (Sym (Q t))) eq_refl eq_refl eq_refl)
      as (p & ef & Hp & Hrendered).
    vm_compute in Hp. injection Hp as <- <-.
    destruct Hrendered as [Hformula _].
    + intros s Hs. vm_compute in Hs. apply list_elem_of_In in Hs.
      destruct Hs as [<-|[<-|[<-|[]]]]; eexists;
        (split; [vm_compute; reflexivity|]); intros Herr; vm_compute in Herr;
        try discriminate Herr; vm_compute; reflexivity.
    + rewrite Hformula. vm_compute. reflexivity.
Defined.

(** On the command line [main.py a.dat b.dat] the command [b.dat:1] is
    executed, so both files were parsed and interpreted before. *)
Lemma main_executes_after_interpreting_witness :
  ∃ trees each,
    Forall2 (λ f t, parse_file f = Done t) ["a.dat"; "b.dat"]%string trees ∧
    Forall2 (λ t cs, interpret t = Done cs) trees each.
Proof.
  destruct (main_executes_after_interpreting (D := domain) (Sc := script) command_line
              "b.dat:1"%string (set_directory "dir/a.dat" standard_config))
    as (trees & each & Hparse & Hinterpret & _).
  - apply (list_elem_of_lookup_2 _ 7%nat). vm_compute. reflexivity.
  - exists trees, each. split; [exact Hparse|exact Hinterpret].
Defined.

(** The run of [main.py a.dat b.dat] ends well, so its last call generates
    the output. *)
Lemma main_generates_last_witness :
  last (main (D := domain) (Sc := script) command_line).2 =
  Some (CGenerate (set_directory "dir/a.dat" standard_config)).
Proof.
  destruct (main_generates_last (D := domain) (Sc := script) command_line
              (set_directory "dir/a.dat" standard_config))
    as (trees & each & _ & _ & cfg & Hcfg & ->).
  - right. vm_compute. reflexivity.
  - rewrite app_comm_cons, !app_assoc, last_snoc. f_equal. f_equal. symmetry.
    apply Hcfg.
    apply (list_elem_of_lookup_2 _ 9%nat). vm_compute. reflexivity.
Defined.

End Scenarios.
